(** * Forecasting performance metrics of sktime

    A shallow embedding of [sktime/performance_metrics/forecasting.py]:
    the two scores [mase_score] and [smape_score], over IEEE-754 binary64
    values (Rocq's primitive floats, which are numpy's [float64]) and
    time-indexed series, with Python's exceptions as an error monad. *)

From Stdlib Require Import String DecimalString ZArith List Bool Lia.
From Stdlib Require Import Uint63 Floats.
Import ListNotations.

Local Open Scope Z_scope.

(** ** Exceptions *)

(** The exceptions a call can end with.  [InconsistentIndexError] and
    [InvalidHorizonError] come from the validation helpers; [ValueError]
    carries its message. *)
Inductive exn : Type :=
| InconsistentIndexError
| InvalidHorizonError
| ValueError (msg : string).

Inductive result (A : Type) : Type :=
| Ok (a : A)
| Raise (e : exn).

Arguments Ok {A} a.
Arguments Raise {A} e.

Definition bind {A B : Type} (r : result A) (k : A -> result B) : result B :=
  match r with
  | Ok a => k a
  | Raise e => Raise e
  end.

Notation "x <- r ;; k" := (bind r (fun x => k))
  (at level 61, r at next level, right associativity).
Notation "r ;;; k" := (bind r (fun _ => k))
  (at level 61, right associativity).

(** ** Data model *)

(** A time index is an ordered sequence of timestamps; a series pairs each
    timestamp with a binary64 value, so index and values have one length. *)
Definition Index : Type := list Z.
Definition Series : Type := list (Z * float).

Definition index (s : Series) : Index := map fst s.
Definition values (s : Series) : list float := map snd s.

(** [Index.max()] and [Index.min()]; pandas answers NaN on an empty index,
    here [None]. *)
Definition index_max (i : Index) : option Z :=
  match i with
  | [] => None
  | t :: ts => Some (fold_left Z.max ts t)
  end.

Definition index_min (i : Index) : option Z :=
  match i with
  | [] => None
  | t :: ts => Some (fold_left Z.min ts t)
  end.

(** [a >= b] on the two extrema; a comparison with NaN is false. *)
Definition ge_extrema (a b : option Z) : bool :=
  match a, b with
  | Some x, Some y => y <=? x
  | _, _ => false
  end.

(** ** Validation helpers (sktime.utils.validation.forecasting) *)

Fixpoint index_eqb (a b : Index) : bool :=
  match a, b with
  | [], [] => true
  | x :: a', y :: b' => (x =? y) && index_eqb a' b'
  | _, _ => false
  end.

(** Modelled from the spec: [check_consistent_time_indices] of
    [sktime.utils.validation.forecasting], which is not among the sources.
    It fails with [InconsistentIndexError] if the two series' time indices
    differ (different length, different timestamps, or different order). *)
Definition check_consistent_time_indices (x y : Series) : result unit :=
  if index_eqb (index x) (index y) then Ok tt else Raise InconsistentIndexError.

Fixpoint is_monotonic (i : Index) : bool :=
  match i with
  | [] => true
  | t :: ts =>
      match ts with
      | [] => true
      | u :: _ => (t <=? u) && is_monotonic ts
      end
  end.

(** The helper is handed an index by one caller and a series by the other. *)
Inductive index_or_series : Type :=
| OfIndex (i : Index)
| OfSeries (s : Series).

(** Modelled from the spec: [validate_obs_horizon] of
    [sktime.utils.validation.forecasting], which is not among the sources.
    It fails with [InvalidHorizonError] if the index is not monotonically
    ordered, and returns the validated index for further comparison. *)
Definition validate_obs_horizon (h : index_or_series) : result Index :=
  let i := match h with OfIndex i => i | OfSeries s => index s end in
  if is_monotonic i then Ok i else Raise InvalidHorizonError.

(** ** numpy and pandas operations *)

Local Open Scope float_scope.

(** The number of elements as a binary64 value: the count is a machine
    integer, converted with rounding to nearest. *)
Definition float_of_nat (n : nat) : float :=
  PrimFloat.of_uint63 (Uint63.of_Z (Z.of_nat n)).

(** numpy's pairwise summation, the inner loop of [np.add.reduce] on a
    contiguous array of floats, starts here: the eight partial sums
    [r[0..7]] of a block. *)
Record accumulators : Type := Accumulators
  { acc0 : float; acc1 : float; acc2 : float; acc3 : float;
    acc4 : float; acc5 : float; acc6 : float; acc7 : float }.

(** The unrolled loop: as long as eight more elements are left,
    [r[j] += a[i + j]]; the fewer than eight elements at the end are
    returned with the partial sums. *)
Fixpoint unrolled_loop (r : accumulators) (a : list float)
  : accumulators * list float :=
  match a with
  | x0 :: x1 :: x2 :: x3 :: x4 :: x5 :: x6 :: x7 :: a' =>
      unrolled_loop
        (Accumulators (acc0 r + x0) (acc1 r + x1) (acc2 r + x2) (acc3 r + x3)
                      (acc4 r + x4) (acc5 r + x5) (acc6 r + x6) (acc7 r + x7))
        a'
  | _ => (r, a)
  end.

Definition combine_accumulators (r : accumulators) : float :=
  ((acc0 r + acc1 r) + (acc2 r + acc3 r))
  + ((acc4 r + acc5 r) + (acc6 r + acc7 r)).

(** A block of at most 128 elements: fewer than eight are added in index
    order from [0.0]; otherwise the first eight start the partial sums, the
    unrolled loop adds the following groups of eight, the partial sums are
    combined pairwise and the elements left over are added one by one.
    (Later versions of numpy start the short loop at [-0.0]; the sum is the
    same unless the array holds negative zeros only, and the arrays summed
    here, absolute values and their ratios, hold none.) *)
Definition block_sum (a : list float) : float :=
  match a with
  | x0 :: x1 :: x2 :: x3 :: x4 :: x5 :: x6 :: x7 :: a' =>
      let '(r, rest) := unrolled_loop (Accumulators x0 x1 x2 x3 x4 x5 x6 x7) a' in
      fold_left PrimFloat.add rest (combine_accumulators r)
  | _ => fold_left PrimFloat.add a 0
  end.

(** More than 128 elements are split in two halves, the first a multiple of
    eight long, summed separately.  [fuel] bounds the depth of the
    splitting; the length of the array is always enough
    ([pairwise_sum_fuel]). *)
Fixpoint pairwise_sum (fuel : nat) (a : list float) : float :=
  match fuel with
  | O => block_sum a
  | S fuel' =>
      if (length a <=? 128)%nat then block_sum a
      else
        let n2 := (length a / 2)%nat in
        let n2 := (n2 - n2 mod 8)%nat in
        pairwise_sum fuel' (firstn n2 a) + pairwise_sum fuel' (skipn n2 a)
  end.

(** [np.add.reduce] over a one-dimensional array: the result starts at the
    identity [0.0] and the pairwise sum of the array is added to it. *)
Definition np_sum (a : list float) : float :=
  0 + pairwise_sum (length a) a.

(** [np.mean] of an ndarray: the sum divided by the element count.  On an
    empty array this is [0.0 / 0.0], NaN (numpy warns, it does not raise). *)
Definition np_mean (a : list float) : float :=
  np_sum a / float_of_nat (length a).

(** [np.mean] of a pandas Series: numpy hands the call to [Series.mean],
    whose default [skipna=True] masks the NaN entries: they are replaced by
    [0.0] in the array that is summed ([filled]) and left out of the count
    (the length of [kept]), and the mean of no entry at all is NaN. *)
Definition kept (a : list float) : list float :=
  filter (fun x => negb (PrimFloat.is_nan x)) a.

Definition filled (a : list float) : list float :=
  map (fun x => if PrimFloat.is_nan x then 0 else x) a.

Definition series_mean (a : list float) : float :=
  match kept a with
  | [] => nan
  | _ :: _ => np_sum (filled a) / float_of_nat (length (kept a))
  end.

Definition np_abs (a : list float) : list float := map PrimFloat.abs a.

(** Element-wise operations of two series with one index, position by
    position (both metrics reach them only after
    [check_consistent_time_indices]). *)
Fixpoint zip_with (f : float -> float -> float) (a b : list float) : list float :=
  match a, b with
  | x :: a', y :: b' => f x y :: zip_with f a' b'
  | _, _ => []
  end.

Definition series_sub (x y : Series) : list float :=
  zip_with PrimFloat.sub (values x) (values y).

(** Python's slices [a[:stop]] and [a[start:]]: a negative bound counts from
    the end, and bounds are clamped to the array. *)
Definition clamp_bound (n : nat) (k : Z) : nat :=
  let len := Z.of_nat n in
  Z.to_nat (if (k <? 0)%Z then Z.max 0 (k + len) else Z.min k len).

Definition slice_to (a : list float) (stop : Z) : list float :=
  firstn (clamp_bound (length a) stop) a.

Definition slice_from (a : list float) (start : Z) : list float :=
  skipn (clamp_bound (length a) start) a.

(** The shape of a one-dimensional array as numpy prints it, [(n,)]. *)
Definition shape_string (n : nat) : string :=
  String.append "(" (String.append (NilEmpty.string_of_uint (Nat.to_uint n)) ",)").

(** The message of numpy's broadcasting error, which names the two shapes
    (and ends with a space). *)
Definition broadcast_error (n m : nat) : string :=
  String.append "operands could not be broadcast together with shapes "
    (String.append (shape_string n)
       (String.append " " (String.append (shape_string m) " "))).

(** Element-wise subtraction of two one-dimensional arrays under numpy's
    broadcasting: equal lengths go position by position, a length-one array
    is stretched, any other pair of shapes raises [ValueError]. *)
Definition np_sub (a b : list float) : result (list float) :=
  if Nat.eqb (length a) (length b) then Ok (zip_with PrimFloat.sub a b)
  else match a, b with
       | [x], _ => Ok (map (fun y => x - y) b)
       | _, [y] => Ok (map (fun x => x - y) a)
       | _, _ => Raise (ValueError (broadcast_error (length a) (length b)))
       end.

(** ** The metrics *)

Definition not_before_error : string :=
  "Found y_train with time index which is not before time index of y_pred".

(** [mase_score(y_true, y_pred, y_train, sp=1)] *)
Definition mase_score (y_true y_pred y_train : Series) (sp : Z) : result float :=
  check_consistent_time_indices y_true y_pred ;;;
  train_index <- validate_obs_horizon (OfIndex (index y_train)) ;;
  pred_index <- validate_obs_horizon (OfSeries y_pred) ;;
  if ge_extrema (index_max train_index) (index_min pred_index)
  then Raise (ValueError not_before_error)
  else
    let y_train := values y_train in
    let y_pred_naive := slice_to y_train (- sp) in
    diffs <- np_sub (slice_from y_train sp) y_pred_naive ;;
    let mae_naive := np_mean (np_abs diffs) in
    Ok (- series_mean (np_abs (series_sub y_true y_pred)) / mae_naive).

(** [smape_score(y_true, y_pred)] *)
Definition smape_score (y_true y_pred : Series) : result float :=
  check_consistent_time_indices y_true y_pred ;;;
  let nominator := np_abs (series_sub y_true y_pred) in
  let denominator := zip_with PrimFloat.add (np_abs (values y_true)) (np_abs (values y_pred)) in
  Ok (-2 * series_mean (zip_with PrimFloat.div nominator denominator)).

(** Series over the timestamps [start, start+1, ...]. *)
Fixpoint series_from (start : Z) (vs : list float) : Series :=
  match vs with
  | [] => []
  | v :: vs' => (start, v) :: series_from (start + 1) vs'
  end.

(** The recurring per-point quantity of SMAPE, as the specification words
    it: [|y_true_i - y_pred_i| / (|y_true_i| + |y_pred_i|)]. *)
Definition smape_ratio (t p : float) : float :=
  PrimFloat.abs (t - p) / (PrimFloat.abs t + PrimFloat.abs p).

(** The in-sample naive seasonal absolute errors, as the specification words
    them: for each position [i] from [sp] to [n_obs - 1] the naive forecast
    of [y_train[i]] is [y_train[i - sp]]. *)
Definition naive_abs_errors (y_train : list float) (sp : nat) : list float :=
  map (fun i => PrimFloat.abs (nth i y_train 0 - nth (i - sp) y_train 0))
      (seq sp (length y_train - sp)).

(** Out-of-sample absolute errors, point by point. *)
Definition abs_errors (y_true y_pred : Series) : list float :=
  map (fun tp => PrimFloat.abs (fst tp - snd tp))
      (combine (values y_true) (values y_pred)).

Definition smape_ratios (y_true y_pred : Series) : list float :=
  map (fun tp => smape_ratio (fst tp) (snd tp))
      (combine (values y_true) (values y_pred)).

(** ** Notions of the statements *)

(** *** Binary64 values through their specification *)

(** Not a NaN. *)
Definition is_number (x : spec_float) : Prop := x <> S754_nan.

(** A zero. *)
Definition SFzero (x : spec_float) : Prop :=
  match x with
  | S754_zero _ => True
  | _ => False
  end.

(** A zero or a finite number. *)
Definition SFfinite (x : spec_float) : Prop :=
  match x with
  | S754_zero _ | S754_finite _ _ _ => True
  | _ => False
  end.

(** A zero, a finite number or an infinity of sign [s]. *)
Definition signed_number (s : bool) (x : spec_float) : Prop :=
  match x with
  | S754_zero s' | S754_infinity s' | S754_finite s' _ _ => s' = s
  | S754_nan => False
  end.

(** A finite nonzero number or an infinity, of sign [s]. *)
Definition nonzero_number (s : bool) (x : spec_float) : Prop :=
  match x with
  | S754_infinity s' | S754_finite s' _ _ => s' = s
  | _ => False
  end.

(** A zero or a finite number whose sign bit is [s]. *)
Definition finite_signed (s : bool) (x : spec_float) : Prop :=
  match x with
  | S754_zero s' | S754_finite s' _ _ => s' = s
  | _ => False
  end.

(** The binary64 numbers one and minus two. *)
Definition SFone64 : spec_float := S754_finite false 4503599627370496 (-52).

Definition SFminus_two : spec_float := S754_finite true 4503599627370496 (-51).

(** *** The steps of rounding *)

(** The bits shifted out so far were all zero. *)
Definition shr_exact (mrs : shr_record) : bool :=
  negb (shr_r mrs) && negb (shr_s mrs).

(** After [k] steps the mantissa is the quotient by [2^k], and the record is
    exact iff it was and the remainder is zero. *)
Definition shifted (m : Z) (x : bool) (k : Z) (mrs : shr_record) : Prop :=
  shr_m mrs = (m / 2 ^ k)%Z /\
  shr_exact mrs = (m mod 2 ^ k =? 0)%Z && x.

(** The number of bits [shr_fexp] shifts out. *)
Definition shift_amount (m e : Z) : Z :=
  Z.max 0 (fexp prec emax (Zdigits2 m + e) - e).

(** The mantissa [binary_round_aux] holds after its first shift and the
    rounding to nearest even. *)
Definition rounded_mantissa (mx ex : Z) (lx : location) : Z :=
  let mrs := fst (shr_fexp prec emax mx ex lx) in
  round_nearest_even (shr_m mrs) (loc_of_shr_record mrs).

(** The float assembled from a sign, a nonnegative mantissa and an
    exponent, as [binary_round_aux] ends. *)
Definition assemble (s : bool) (m e : Z) : spec_float :=
  match m with
  | Z0 => S754_zero s
  | Zpos p => if (e <=? emax - prec)%Z then S754_finite s p e else S754_infinity s
  | Zneg _ => S754_nan
  end.

(** What an inexact location adds to the truncated mantissa, at most. *)
Definition loc_excess (l : location) : Z :=
  match l with
  | loc_Exact => 0
  | loc_Inexact _ => 1
  end.

(** *** Magnitudes *)

(** [m * 2^e <= m' * 2^e'], compared on integers at the smaller exponent. *)
Definition ple (m e m' e' : Z) : Prop :=
  (m * 2 ^ (e - Z.min e e') <= m' * 2 ^ (e' - Z.min e e'))%Z.

(** [|x| <= |y|] for two floats that are zeros or finite numbers. *)
Definition mag_le (x y : spec_float) : Prop :=
  match x, y with
  | S754_zero _, (S754_zero _ | S754_finite _ _ _) => True
  | S754_finite _ m e, S754_finite _ m' e' => ple (Zpos m) e (Zpos m') e'
  | _, _ => False
  end.

(** [|x| <= j] for a zero or finite float and an integer [j]. *)
Definition val_le_nat (x : spec_float) (j : Z) : Prop :=
  match x with
  | S754_zero _ => True
  | S754_finite _ m e => ple (Zpos m) e j 0
  | _ => False
  end.



(** *** Inputs and outcomes of the scores *)

(** The temporal-ordering precondition: the training index ends strictly
    before the forecast index begins. *)
Definition train_before_pred (y_train y_pred : Series) : Prop :=
  forall tmax pmin,
    index_max (index y_train) = Some tmax ->
    index_min (index y_pred) = Some pmin ->
    (tmax < pmin)%Z.

(** The index validations of [mase_score]: consistent indices and two
    well-formed horizons. *)
Definition indices_valid (y_true y_pred y_train : Series) : Prop :=
  index y_true = index y_pred /\
  is_monotonic (index y_train) = true /\
  is_monotonic (index y_pred) = true.

(** Every value of the series is a finite binary64 number (the data model's
    real numbers: no NaN, no infinity). *)
Definition all_finite (s : Series) : Prop :=
  Forall (fun v => PrimFloat.is_finite v = true) (values s).

(** No entry of the list is NaN. *)
Definition no_nan (a : list float) : Prop :=
  Forall (fun v => PrimFloat.is_nan v = false) a.

(** The points of two series, value by value. *)
Definition points (y_true y_pred : Series) : list (float * float) :=
  combine (values y_true) (values y_pred).

(** Both values of a point are zero ([0.0] or [-0.0]). *)
Definition both_zero (tp : float * float) : Prop :=
  PrimFloat.is_zero (fst tp) = true /\ PrimFloat.is_zero (snd tp) = true.

(** The two mean absolute errors of MASE. *)
Definition mae_pred (y_true y_pred : Series) : float :=
  series_mean (abs_errors y_true y_pred).

Definition mae_naive (y_train : Series) (sp : Z) : float :=
  np_mean (naive_abs_errors (values y_train) (Z.to_nat sp)).

(** The score of a call that returned, tested for NaN and for finiteness. *)
Definition returns_nan (r : result float) : bool :=
  match r with
  | Ok v => PrimFloat.is_nan v
  | Raise _ => false
  end.

Definition returns_finite (r : result float) : bool :=
  match r with
  | Ok v => PrimFloat.is_finite v
  | Raise _ => false
  end.

(** A ratio as the mean meets it: NaN, which the mean leaves out, or a
    number between zero and one. *)
Definition ratio_ok (x : float) : Prop :=
  PrimFloat.is_nan x = true \/
  (finite_signed false (Prim2SF x) /\ mag_le (Prim2SF x) SFone64).

(** *** Scaling *)





(** *** Invariants of a summation *)

(** The total weight of the elements of an array, for a weight [w] given to
    each element. *)
Definition weight (w : float -> nat) (a : list float) : nat :=
  list_sum (map w a).

(** The eight partial sums satisfy [B], with weights that add up to [W]. *)
Definition accumulators_ok (B : nat -> float -> Prop) (W : nat)
    (r : accumulators) : Prop :=
  exists j0 j1 j2 j3 j4 j5 j6 j7 : nat,
    B j0 (acc0 r) /\ B j1 (acc1 r) /\ B j2 (acc2 r) /\ B j3 (acc3 r) /\
    B j4 (acc4 r) /\ B j5 (acc5 r) /\ B j6 (acc6 r) /\ B j7 (acc7 r) /\
    (j0 + j1 + j2 + j3 + j4 + j5 + j6 + j7 = W)%nat.

(** *** Transformations and outcomes of the further properties *)

(** [-y], the series with every value negated. *)
Definition negate (y : Series) : Series :=
  map (fun tv => (fst tv, - snd tv)) y.

(** A score that is NaN or at most zero. *)
Definition not_positive (v : float) : Prop :=
  PrimFloat.is_nan v = true \/ (v <=? 0) = true.

(** The two values of a point lie on opposite sides of zero, a zero
    counting for either side. *)
Definition opposite_sides (tp : float * float) : bool :=
  ((fst tp <=? 0) && (0 <=? snd tp)) || ((snd tp <=? 0) && (0 <=? fst tp)).

(** NaN, or a number whose sign bit is clear. *)
Definition nan_or_signed (s : bool) (x : spec_float) : Prop :=
  x = S754_nan \/ signed_number s x.

(** * Properties *)

(** ** Lists, slices and the error monad *)

Lemma index_eqb_eq (a b : Index) : index_eqb a b = true <-> a = b.
Proof.
  revert b; induction a as [|x a IH]; intros [|y b]; simpl; split;
    try discriminate; try reflexivity.
  - intros H. apply andb_prop in H as [Hx Hab].
    apply Z.eqb_eq in Hx. apply IH in Hab. now subst.
  - intros H. injection H as -> ->. rewrite Z.eqb_refl. now apply IH.
Qed.

Lemma check_consistent_ok (x y : Series) :
  index x = index y -> check_consistent_time_indices x y = Ok tt.
Proof.
  intros H. unfold check_consistent_time_indices.
  now rewrite (proj2 (index_eqb_eq _ _) H).
Qed.

Lemma check_consistent_raise (x y : Series) :
  index x <> index y ->
  check_consistent_time_indices x y = Raise InconsistentIndexError.
Proof.
  intros H. unfold check_consistent_time_indices.
  destruct (index_eqb (index x) (index y)) eqn:E; [|reflexivity].
  now apply index_eqb_eq in E.
Qed.

Lemma index_length (s : Series) : length (index s) = length (values s).
Proof. unfold index, values. now rewrite !length_map. Qed.

Lemma zip_with_combine (f : float -> float -> float) (a b : list float) :
  zip_with f a b = map (fun tp => f (fst tp) (snd tp)) (combine a b).
Proof.
  revert b; induction a as [|x a IH]; intros [|y b]; simpl; try reflexivity.
  now rewrite IH.
Qed.

Lemma zip_with_length (f : float -> float -> float) (a b : list float) :
  length a = length b -> length (zip_with f a b) = length a.
Proof.
  revert b; induction a as [|x a IH]; intros [|y b]; simpl; intros H;
    try discriminate; try reflexivity.
  f_equal. apply IH. now injection H.
Qed.

Lemma abs_errors_eq (y_true y_pred : Series) :
  np_abs (series_sub y_true y_pred) = abs_errors y_true y_pred.
Proof.
  unfold np_abs, series_sub, abs_errors.
  rewrite zip_with_combine, map_map. reflexivity.
Qed.

Lemma smape_ratios_eq (y_true y_pred : Series) :
  zip_with PrimFloat.div (np_abs (series_sub y_true y_pred))
    (zip_with PrimFloat.add (np_abs (values y_true)) (np_abs (values y_pred)))
  = smape_ratios y_true y_pred.
Proof.
  unfold np_abs, series_sub, smape_ratios.
  generalize (values y_true) (values y_pred).
  induction l as [|t l IH]; intros [|p l']; simpl; try reflexivity.
  now rewrite IH.
Qed.

(** With [1 <= sp < n_obs] the two slices are the last and the first
    [n_obs - sp] elements. *)
Lemma slice_from_skipn (a : list float) (sp : nat) :
  (sp <= length a)%nat -> slice_from a (Z.of_nat sp) = skipn sp a.
Proof.
  intros H. unfold slice_from, clamp_bound.
  destruct (Z.ltb_spec (Z.of_nat sp) 0); [lia|].
  f_equal. lia.
Qed.

Lemma slice_to_firstn (a : list float) (sp : nat) :
  (1 <= sp <= length a)%nat ->
  slice_to a (- Z.of_nat sp) = firstn (length a - sp) a.
Proof.
  intros H. unfold slice_to, clamp_bound.
  destruct (Z.ltb_spec (- Z.of_nat sp) 0); [|lia].
  f_equal. lia.
Qed.

Lemma zip_sub_shift (a : list float) (sp : nat) :
  (sp <= length a)%nat ->
  map PrimFloat.abs (zip_with PrimFloat.sub (skipn sp a) (firstn (length a - sp) a))
  = naive_abs_errors a sp.
Proof.
  intros H. unfold naive_abs_errors.
  apply nth_ext with (d := PrimFloat.abs (0 - 0)) (d' := PrimFloat.abs (0 - 0)).
  - rewrite !length_map, length_seq, zip_with_length;
      rewrite length_skipn, ?length_firstn; lia.
  - intros i Hi.
    rewrite length_map, zip_with_length in Hi
      by (rewrite length_skipn, length_firstn; lia).
    rewrite length_skipn in Hi.
    rewrite zip_with_combine, map_map.
    set (g := fun tp : float * float => PrimFloat.abs (fst tp - snd tp)).
    change (PrimFloat.abs (0 - 0)) with (g (0, 0)) at 1.
    rewrite map_nth, combine_nth
      by (rewrite length_skipn, length_firstn; lia).
    set (h := fun j => PrimFloat.abs (nth j a 0 - nth (j - sp) a 0)).
    rewrite (nth_indep (map h (seq sp (length a - sp))) _ (h 0%nat))
      by (rewrite length_map, length_seq; lia).
    rewrite (map_nth h), seq_nth by lia.
    unfold g, h; simpl.
    rewrite nth_skipn, nth_firstn.
    destruct (Nat.ltb_spec i (length a - sp)); [|lia].
    repeat f_equal; lia.
Qed.

(** ** Binary64 values through their specification *)

(** The classes of a binary64 value, read off its [spec_float]. *)
Lemma SFcompare_refl (x : spec_float) :
  x <> S754_nan -> SFcompare x x = Some Eq.
Proof.
  destruct x as [s|s| |s m e]; simpl; intros H; try congruence.
  - now destruct s.
  - destruct s; rewrite Z.compare_refl, Pos.compare_cont_refl; reflexivity.
Qed.

Lemma is_nan_spec (x : float) :
  PrimFloat.is_nan x = true <-> Prim2SF x = S754_nan.
Proof.
  unfold PrimFloat.is_nan. rewrite eqb_spec. unfold SFeqb. split.
  - intros H. destruct (Prim2SF x) eqn:E; try reflexivity;
      rewrite SFcompare_refl in H by discriminate; discriminate.
  - intros ->. reflexivity.
Qed.

Lemma is_nan_eq (x : float) : PrimFloat.is_nan x = true <-> x = nan.
Proof.
  rewrite is_nan_spec. split.
  - intros H. apply Prim2SF_inj. now rewrite H.
  - intros ->. reflexivity.
Qed.

Lemma is_zero_spec (x : float) :
  PrimFloat.is_zero x = true <-> exists s, Prim2SF x = S754_zero s.
Proof.
  unfold PrimFloat.is_zero. rewrite eqb_spec.
  change (Prim2SF zero) with (S754_zero false). unfold SFeqb. split.
  - destruct (Prim2SF x) as [s|s| |s m e]; simpl; try discriminate.
    + intros _. now exists s.
    + now destruct s.
    + now destruct s.
  - intros [s ->]. reflexivity.
Qed.

Lemma is_infinity_spec (x : float) :
  PrimFloat.is_infinity x = true <-> exists s, Prim2SF x = S754_infinity s.
Proof.
  unfold PrimFloat.is_infinity. rewrite eqb_spec, abs_spec.
  change (Prim2SF infinity) with (S754_infinity false). unfold SFeqb. split.
  - destruct (Prim2SF x) as [s|s| |s m e]; simpl; try discriminate.
    intros _. now exists s.
  - intros [s ->]. reflexivity.
Qed.

Lemma is_finite_spec (x : float) :
  PrimFloat.is_finite x = true <->
  (exists s, Prim2SF x = S754_zero s) \/ (exists s m e, Prim2SF x = S754_finite s m e).
Proof.
  unfold PrimFloat.is_finite.
  rewrite negb_true_iff, orb_false_iff. split.
  - intros [Hn Hi]. destruct (Prim2SF x) as [s|s| |s m e] eqn:E.
    + left. now exists s.
    + assert (PrimFloat.is_infinity x = true) by (apply is_infinity_spec; now exists s).
      congruence.
    + apply is_nan_spec in E. congruence.
    + right. now exists s, m, e.
  - intros H. split.
    + destruct (PrimFloat.is_nan x) eqn:E; [|reflexivity].
      apply is_nan_spec in E. destruct H as [[s H]|(s & m & e & H)]; congruence.
    + destruct (PrimFloat.is_infinity x) eqn:E; [|reflexivity].
      apply is_infinity_spec in E as [s' E].
      destruct H as [[s H]|(s & m & e & H)]; congruence.
Qed.

(** Division by NaN, and of anything by zero. *)
Lemma div_nan_r (x : float) : x / nan = nan.
Proof.
  apply Prim2SF_inj. rewrite div_spec.
  change (Prim2SF nan) with S754_nan.
  destruct (Prim2SF x); reflexivity.
Qed.

Lemma div_by_zero (x y : float) :
  PrimFloat.is_zero y = true ->
  PrimFloat.is_infinity (x / y) = true \/ x / y = nan.
Proof.
  intros Hy. apply is_zero_spec in Hy as [sy Hy].
  destruct (Prim2SF x) as [s|s| |s m e] eqn:Ex.
  - right. apply Prim2SF_inj. now rewrite div_spec, Ex, Hy.
  - left. apply is_infinity_spec. exists (xorb s sy). now rewrite div_spec, Ex, Hy.
  - right. apply Prim2SF_inj. now rewrite div_spec, Ex, Hy.
  - left. apply is_infinity_spec. exists (xorb s sy). now rewrite div_spec, Ex, Hy.
Qed.

(** ** Rounding never invents a NaN *)

Lemma iter_pos_invariant {A : Type} (P : A -> Prop) (f : A -> A) :
  (forall x, P x -> P (f x)) ->
  forall n x, P x -> P (iter_pos f n x).
Proof.
  intros Hf. induction n as [n IH|n IH|]; simpl; intros x Hx; auto.
Qed.

Lemma shr_1_nonneg (mrs : shr_record) :
  (0 <= shr_m mrs)%Z -> (0 <= shr_m (shr_1 mrs))%Z.
Proof.
  destruct mrs as [m r s]. simpl.
  destruct m as [|[p|p|]|p]; simpl; lia.
Qed.

Lemma shr_nonneg (mrs : shr_record) (e n : Z) :
  (0 <= shr_m mrs)%Z -> (0 <= shr_m (fst (shr mrs e n)))%Z.
Proof.
  intros H. destruct n; simpl; auto.
  apply iter_pos_invariant with (P := fun r => (0 <= shr_m r)%Z); auto.
  apply shr_1_nonneg.
Qed.

Lemma shr_record_of_loc_m (m : Z) (l : location) :
  shr_m (shr_record_of_loc m l) = m.
Proof. destruct l as [|[]]; reflexivity. Qed.

Lemma shr_fexp_nonneg (m e : Z) (l : location) :
  (0 <= m)%Z -> (0 <= shr_m (fst (shr_fexp prec emax m e l)))%Z.
Proof.
  intros H. unfold shr_fexp. apply shr_nonneg.
  now rewrite shr_record_of_loc_m.
Qed.

Lemma round_nearest_even_nonneg (m : Z) (l : location) :
  (0 <= m)%Z -> (0 <= round_nearest_even m l)%Z.
Proof.
  intros H. destruct l as [|[]]; simpl; try lia.
  destruct (Z.even m); lia.
Qed.

Lemma binary_round_aux_signed (s : bool) (mx ex : Z) (lx : location) :
  (0 <= mx)%Z -> signed_number s (binary_round_aux prec emax s mx ex lx).
Proof.
  intros H. unfold binary_round_aux.
  pose proof (shr_fexp_nonneg mx ex lx H) as H1.
  destruct (shr_fexp prec emax mx ex lx) as [mrs' e'].
  simpl in H1.
  pose proof (shr_fexp_nonneg _ e' loc_Exact
                (round_nearest_even_nonneg _ (loc_of_shr_record mrs') H1)) as H2.
  destruct (shr_fexp prec emax _ e' loc_Exact) as [mrs'' e''].
  simpl in H2.
  destruct (shr_m mrs'') as [|m|m]; simpl; try reflexivity; try lia.
  match goal with |- context [if ?c then _ else _] => destruct c end;
    reflexivity.
Qed.

Lemma binary_round_signed (s : bool) (mx : positive) (ex : Z) :
  signed_number s (binary_round prec emax s mx ex).
Proof.
  unfold binary_round.
  destruct (shl_align mx ex _) as [mz ez].
  apply binary_round_aux_signed. lia.
Qed.

Lemma signed_number_is_number (s : bool) (x : spec_float) :
  signed_number s x -> is_number x.
Proof. destruct x; simpl; unfold is_number; congruence. Qed.

Lemma binary_normalize_is_number (m e : Z) (sz : bool) :
  is_number (binary_normalize prec emax m e sz).
Proof.
  destruct m as [|p|p]; simpl.
  - discriminate.
  - apply (signed_number_is_number false), binary_round_signed.
  - apply (signed_number_is_number true), binary_round_signed.
Qed.

Lemma SFsub_finite_is_number (x y : spec_float) :
  SFfinite x -> SFfinite y -> is_number (SF64sub x y).
Proof.
  destruct x as [sx|sx| |sx mx ex], y as [sy|sy| |sy my ey]; simpl;
    intros Hx Hy; try contradiction; try discriminate.
  - destruct sx, sy; discriminate.
  - apply binary_normalize_is_number.
Qed.

Lemma SFdiv_core_nonneg (m1 m2 : positive) (e1 e2 : Z) :
  (0 <= fst (fst (SFdiv_core_binary prec emax (Zpos m1) e1 (Zpos m2) e2)))%Z.
Proof.
  unfold SFdiv_core_binary.
  set (e' := Z.min _ _). set (s := (e1 - e2 - e')%Z).
  set (m' := match s with Zpos _ => Z.shiftl (Zpos m1) s | Z0 => Zpos m1 | Zneg _ => 0%Z end).
  assert (Hm : (0 <= m')%Z).
  { unfold m'. destruct s; try lia. apply Z.shiftl_nonneg. lia. }
  pose proof (Z_div_mod m' (Zpos m2) ltac:(lia)) as Hd.
  destruct (Z.div_eucl m' (Zpos m2)) as [q r]. simpl.
  destruct Hd as [Hq Hr]. nia.
Qed.

Lemma SFdiv_signed (sx sy : bool) (mx my : positive) (ex ey : Z) :
  signed_number (xorb sx sy)
    (SF64div (S754_finite sx mx ex) (S754_finite sy my ey)).
Proof.
  unfold SF64div, SFdiv.
  pose proof (SFdiv_core_nonneg mx my ex ey) as H.
  destruct (SFdiv_core_binary prec emax (Zpos mx) ex (Zpos my) ey) as [[mz ez] lz].
  simpl in H. now apply binary_round_aux_signed.
Qed.

(** ** Index extrema and the validation steps *)

Lemma fold_max_spec (ts : list Z) (t : Z) :
  let m := fold_left Z.max ts t in
  (m = t \/ In m ts) /\ (t <= m)%Z /\ Forall (fun u => (u <= m)%Z) ts.
Proof.
  revert t; induction ts as [|u ts IH]; intros t; simpl.
  - repeat split; auto; lia.
  - destruct (IH (Z.max t u)) as (Hin & Hle & Hall). repeat split.
    + destruct Hin as [Hin|Hin]; [|now right; right].
      destruct (Z.max_spec t u) as [[_ E]|[_ E]]; rewrite E in Hin;
        [right; left; congruence | left; congruence].
    + lia.
    + constructor; [lia|exact Hall].
Qed.

Lemma fold_min_spec (ts : list Z) (t : Z) :
  let m := fold_left Z.min ts t in
  (m = t \/ In m ts) /\ (m <= t)%Z /\ Forall (fun u => (m <= u)%Z) ts.
Proof.
  revert t; induction ts as [|u ts IH]; intros t; simpl.
  - repeat split; auto; lia.
  - destruct (IH (Z.min t u)) as (Hin & Hle & Hall). repeat split.
    + destruct Hin as [Hin|Hin]; [|now right; right].
      destruct (Z.min_spec t u) as [[_ E]|[_ E]]; rewrite E in Hin;
        [left; congruence | right; left; congruence].
    + lia.
    + constructor; [lia|exact Hall].
Qed.

(** [index_max] is the greatest timestamp of the index, [index_min] the
    least. *)
Lemma index_max_spec (i : Index) (m : Z) :
  index_max i = Some m -> In m i /\ Forall (fun t => (t <= m)%Z) i.
Proof.
  destruct i as [|t ts]; simpl; [discriminate|].
  intros [= <-]. destruct (fold_max_spec ts t) as (Hin & Hle & Hall).
  split; [|now constructor].
  destruct Hin as [E|Hin]; [left; symmetry; exact E | right; exact Hin].
Qed.

Lemma index_min_spec (i : Index) (m : Z) :
  index_min i = Some m -> In m i /\ Forall (fun t => (m <= t)%Z) i.
Proof.
  destruct i as [|t ts]; simpl; [discriminate|].
  intros [= <-]. destruct (fold_min_spec ts t) as (Hin & Hle & Hall).
  split; [|now constructor].
  destruct Hin as [E|Hin]; [left; symmetry; exact E | right; exact Hin].
Qed.

Lemma ge_extrema_false (y_train y_pred : Series) :
  ge_extrema (index_max (index y_train)) (index_min (index y_pred)) = false
  <-> train_before_pred y_train y_pred.
Proof.
  unfold train_before_pred, ge_extrema.
  destruct (index_max (index y_train)) as [a|], (index_min (index y_pred)) as [b|];
    split; intros H; try reflexivity; try discriminate; try (intros; discriminate).
  - intros ? ? [= <-] [= <-]. apply Z.leb_gt in H. lia.
  - apply Z.leb_gt. apply H; reflexivity.
Qed.

(** Once every validation passes, [mase_score] is its arithmetic. *)
Lemma mase_score_validated (y_true y_pred y_train : Series) (sp : Z) :
  indices_valid y_true y_pred y_train ->
  train_before_pred y_train y_pred ->
  mase_score y_true y_pred y_train sp =
  (diffs <- np_sub (slice_from (values y_train) sp) (slice_to (values y_train) (- sp)) ;;
   Ok (- series_mean (abs_errors y_true y_pred) / np_mean (np_abs diffs))).
Proof.
  intros (Hidx & Ht & Hp) Hord. unfold mase_score.
  rewrite check_consistent_ok by assumption. simpl.
  unfold validate_obs_horizon. rewrite Ht, Hp. simpl.
  rewrite (proj2 (ge_extrema_false _ _) Hord).
  now rewrite abs_errors_eq.
Qed.

Lemma smape_score_validated (y_true y_pred : Series) :
  index y_true = index y_pred ->
  smape_score y_true y_pred = Ok (-2 * series_mean (smape_ratios y_true y_pred)).
Proof.
  intros Hidx. unfold smape_score.
  rewrite check_consistent_ok by assumption. simpl.
  now rewrite smape_ratios_eq.
Qed.

(** ** The two means *)

(** On a list without NaN the mean of a Series is the plain mean. *)
Lemma series_mean_no_nan (a : list float) :
  no_nan a -> series_mean a = np_mean a.
Proof.
  intros H. unfold series_mean, np_mean, kept, filled.
  assert (Hk : filter (fun x => negb (PrimFloat.is_nan x)) a = a).
  { induction H as [|x a Hx H IH]; cbn [filter]; [reflexivity|].
    rewrite Hx. cbn [negb]. now rewrite IH. }
  assert (Hf : map (fun x => if PrimFloat.is_nan x then 0 else x) a = a).
  { clear Hk. induction H as [|x a Hx H IH]; cbn [map]; [reflexivity|].
    rewrite Hx. now rewrite IH. }
  rewrite Hk, Hf. destruct a; reflexivity.
Qed.

Lemma finite_sub_not_nan (x y : float) :
  PrimFloat.is_finite x = true -> PrimFloat.is_finite y = true ->
  PrimFloat.is_nan (PrimFloat.abs (x - y)) = false.
Proof.
  intros Hx Hy.
  destruct (PrimFloat.is_nan (PrimFloat.abs (x - y))) eqn:E; [|reflexivity].
  apply is_nan_spec in E. rewrite abs_spec, sub_spec in E.
  assert (Hn : is_number (SF64sub (Prim2SF x) (Prim2SF y))).
  { apply SFsub_finite_is_number.
    - apply is_finite_spec in Hx as [[s ->]|(s & m & e & ->)]; exact I.
    - apply is_finite_spec in Hy as [[s ->]|(s & m & e & ->)]; exact I. }
  unfold is_number in Hn.
  destruct (SF64sub (Prim2SF x) (Prim2SF y)); simpl in E; congruence.
Qed.

Lemma abs_errors_no_nan (y_true y_pred : Series) :
  all_finite y_true -> all_finite y_pred -> no_nan (abs_errors y_true y_pred).
Proof.
  unfold all_finite, no_nan, abs_errors.
  generalize (values y_true) (values y_pred).
  intros a b Ha. revert b.
  induction Ha as [|x a Hx Ha IH]; intros b Hb; simpl; [constructor|].
  destruct Hb as [|y b Hy Hb]; simpl; constructor.
  - now apply finite_sub_not_nan.
  - now apply IH.
Qed.

(** ** Shifting a mantissa right *)

Lemma iter_pos_steps {A : Type} (R : Z -> A -> Prop) (f : A -> A) :
  (forall k x, (0 <= k)%Z -> R k x -> R (k + 1)%Z (f x)) ->
  forall p k x, (0 <= k)%Z -> R k x -> R (k + Zpos p)%Z (iter_pos f p x).
Proof.
  intros Hf. induction p as [p IH|p IH|]; intros k x Hk Hx; simpl.
  - replace (k + Zpos p~1)%Z with (k + 1 + Zpos p + Zpos p)%Z by lia.
    apply IH; [lia|]. apply IH; [lia|]. now apply Hf.
  - replace (k + Zpos p~0)%Z with (k + Zpos p + Zpos p)%Z by lia.
    apply IH; [lia|]. now apply IH.
  - now apply Hf.
Qed.

Lemma shr_1_m (mrs : shr_record) :
  (0 <= shr_m mrs)%Z -> shr_m (shr_1 mrs) = (shr_m mrs / 2)%Z.
Proof.
  destruct mrs as [m r s]. simpl. intros H.
  rewrite <- Z.div2_div.
  destruct m as [|[p|p|]|p]; simpl; try reflexivity; lia.
Qed.

Lemma shr_1_exact (mrs : shr_record) :
  (0 <= shr_m mrs)%Z ->
  shr_exact (shr_1 mrs) = Z.even (shr_m mrs) && shr_exact mrs.
Proof.
  destruct mrs as [m [|] [|]]; simpl; intros H;
    destruct m as [|[p|p|]|p]; simpl; try reflexivity; lia.
Qed.

Lemma shifted_step (m : Z) (x : bool) (k : Z) (mrs : shr_record) :
  (0 <= m)%Z -> (0 <= k)%Z ->
  shifted m x k mrs -> shifted m x (k + 1) (shr_1 mrs).
Proof.
  intros Hm Hk [Hq Hx].
  assert (Hp : (0 < 2 ^ k)%Z) by (apply Z.pow_pos_nonneg; lia).
  assert (Hnn : (0 <= shr_m mrs)%Z) by (rewrite Hq; apply Z.div_pos; lia).
  split.
  - rewrite shr_1_m, Hq by assumption.
    rewrite Z.div_div, Z.pow_add_r by lia. reflexivity.
  - rewrite shr_1_exact, Hx, Hq by assumption.
    rewrite Z.pow_add_r, Z.rem_mul_r by lia.
    change (2 ^ 1)%Z with 2%Z.
    rewrite Zeven_mod.
    pose proof (Z.mod_pos_bound m (2 ^ k) Hp).
    pose proof (Z.mod_pos_bound (m / 2 ^ k) 2 ltac:(lia)).
    destruct (Z.eqb_spec ((m / 2 ^ k) mod 2) 0),
             (Z.eqb_spec (m mod 2 ^ k) 0),
             (Z.eqb_spec (m mod 2 ^ k + 2 ^ k * ((m / 2 ^ k) mod 2)) 0);
      simpl; try reflexivity; try nia; destruct x; reflexivity.
Qed.

Lemma shr_shifted (mrs : shr_record) (e n : Z) :
  (0 <= shr_m mrs)%Z -> (0 <= n)%Z ->
  shifted (shr_m mrs) (shr_exact mrs) n (fst (shr mrs e n)) /\
  snd (shr mrs e n) = (e + n)%Z.
Proof.
  intros Hm Hn.
  assert (H0 : shifted (shr_m mrs) (shr_exact mrs) 0 mrs).
  { split; simpl.
    - now rewrite Z.div_1_r.
    - now rewrite Z.mod_1_r. }
  destruct n as [|p|p]; simpl; [split; [exact H0|lia] | | lia].
  split; [|reflexivity].
  apply (iter_pos_steps (shifted (shr_m mrs) (shr_exact mrs)) shr_1
           (fun k x Hk => shifted_step _ _ k x Hm Hk) p 0 mrs); [lia|exact H0].
Qed.

(** ** Rounding a positive mantissa above the least exponent *)

Lemma digits2_pos_bounds (m : positive) :
  (2 ^ (Zpos (digits2_pos m) - 1) <= Zpos m < 2 ^ Zpos (digits2_pos m))%Z.
Proof.
  induction m as [m IH|m IH|]; simpl digits2_pos.
  - rewrite Pos2Z.inj_succ.
    replace (Z.succ (Zpos (digits2_pos m)) - 1)%Z with (Zpos (digits2_pos m) - 1 + 1)%Z by lia.
    rewrite Z.pow_succ_r, Z.pow_add_r by lia. lia.
  - rewrite Pos2Z.inj_succ.
    replace (Z.succ (Zpos (digits2_pos m)) - 1)%Z with (Zpos (digits2_pos m) - 1 + 1)%Z by lia.
    rewrite Z.pow_succ_r, Z.pow_add_r by lia. lia.
  - simpl. lia.
Qed.

Lemma Zdigits2_bounds (m : Z) :
  (0 < m)%Z -> (2 ^ (Zdigits2 m - 1) <= m < 2 ^ Zdigits2 m)%Z.
Proof.
  destruct m as [|p|p]; try lia. intros _. apply digits2_pos_bounds.
Qed.

Lemma Zdigits2_pos (m : Z) : (0 < m)%Z -> (0 < Zdigits2 m)%Z.
Proof. destruct m; simpl; lia. Qed.

Lemma shr_fexp_shifted (m e : Z) (l : location) :
  (0 <= m)%Z ->
  let n := Z.max 0 (fexp prec emax (Zdigits2 m + e) - e) in
  shifted m (match l with loc_Exact => true | _ => false end) n
          (fst (shr_fexp prec emax m e l)) /\
  snd (shr_fexp prec emax m e l) = (e + n)%Z.
Proof.
  intros Hm n. unfold shr_fexp.
  set (k := (fexp prec emax (Zdigits2 m + e) - e)%Z) in *.
  assert (Hrec : shr_m (shr_record_of_loc m l) = m) by apply shr_record_of_loc_m.
  assert (Hex : shr_exact (shr_record_of_loc m l)
                = match l with loc_Exact => true | _ => false end)
    by (destruct l as [|[]]; reflexivity).
  destruct (Z.le_gt_cases k 0) as [Hk|Hk].
  - replace n with 0%Z by lia.
    assert (E : shr (shr_record_of_loc m l) e k = (shr_record_of_loc m l, e))
      by (destruct k; try reflexivity; lia).
    rewrite E. simpl. split; [|lia].
    split; simpl.
    + now rewrite Z.div_1_r.
    + now rewrite Z.mod_1_r.
  - replace n with k by lia.
    pose proof (shr_shifted (shr_record_of_loc m l) e k) as H.
    rewrite Hrec, Hex in H. apply H; lia.
Qed.

Lemma shr_fexp_pos (m e : Z) (l : location) :
  (0 < m)%Z -> (emin <= e)%Z ->
  (0 < shr_m (fst (shr_fexp prec emax m e l)))%Z /\
  (emin <= snd (shr_fexp prec emax m e l))%Z.
Proof.
  intros Hm He.
  destruct (shr_fexp_shifted m e l ltac:(lia)) as [[Hq _] Hs].
  rewrite Hq, Hs.
  set (n := Z.max 0 (fexp prec emax (Zdigits2 m + e) - e)).
  pose proof (Zdigits2_bounds m Hm) as [Hlo Hhi].
  pose proof (Zdigits2_pos m Hm) as Hd.
  assert (Hn : (0 <= n <= Zdigits2 m - 1)%Z).
  { unfold n, fexp, SpecFloat.emin, prec, emax in *. lia. }
  split; [|lia].
  assert (H2 : (2 ^ n <= 2 ^ (Zdigits2 m - 1))%Z) by (apply Z.pow_le_mono_r; lia).
  assert (Hp : (0 < 2 ^ n)%Z) by (apply Z.pow_pos_nonneg; lia).
  apply Z.div_str_pos. lia.
Qed.

Lemma round_nearest_even_ge (m : Z) (l : location) :
  (m <= round_nearest_even m l <= m + 1)%Z.
Proof.
  destruct l as [|[]]; simpl; try lia. destruct (Z.even m); lia.
Qed.

Lemma binary_round_aux_nonzero (s : bool) (mx ex : Z) (lx : location) :
  (0 < mx)%Z -> (emin <= ex)%Z ->
  nonzero_number s (binary_round_aux prec emax s mx ex lx).
Proof.
  intros Hm He. unfold binary_round_aux.
  pose proof (shr_fexp_pos mx ex lx Hm He) as [H1 He1].
  destruct (shr_fexp prec emax mx ex lx) as [mrs' e'].
  simpl in H1, He1.
  pose proof (round_nearest_even_ge (shr_m mrs') (loc_of_shr_record mrs')) as Hr.
  pose proof (shr_fexp_pos (round_nearest_even (shr_m mrs') (loc_of_shr_record mrs'))
                e' loc_Exact ltac:(lia) He1) as [H2 _].
  destruct (shr_fexp prec emax _ e' loc_Exact) as [mrs'' e''].
  simpl in H2.
  destruct (shr_m mrs'') as [|m|m]; try lia.
  match goal with |- context [if ?c then _ else _] => destruct c end;
    reflexivity.
Qed.

Lemma shl_align_exponent (mx : positive) (ex ex' : Z) :
  (emin <= ex)%Z -> (emin <= ex')%Z -> (emin <= snd (shl_align mx ex ex'))%Z.
Proof.
  intros H H'. unfold shl_align. destruct (ex' - ex)%Z; simpl; assumption.
Qed.

Lemma fexp_ge_emin (e : Z) : (emin <= fexp prec emax e)%Z.
Proof. unfold fexp. apply Z.le_max_r. Qed.

Lemma binary_round_nonzero (s : bool) (mx : positive) (ex : Z) :
  (emin <= ex)%Z -> nonzero_number s (binary_round prec emax s mx ex).
Proof.
  intros He. unfold binary_round.
  pose proof (shl_align_exponent mx ex (fexp prec emax (Zpos (digits2_pos mx) + ex))
                He (fexp_ge_emin _)) as H.
  destruct (shl_align mx ex _) as [mz ez]. simpl in H.
  apply binary_round_aux_nonzero; [lia|exact H].
Qed.

(** A valid finite float has its exponent at or above the least one. *)
Lemma valid_exponent (s : bool) (m : positive) (e : Z) :
  valid_binary (S754_finite s m e) = true -> (emin <= e)%Z.
Proof.
  simpl. unfold bounded, canonical_mantissa. intros H.
  apply andb_prop in H as [H _]. apply Z.eqb_eq in H.
  rewrite <- H. apply fexp_ge_emin.
Qed.

(** ** The element count as a float *)

Lemma float_of_nat_spec (n : nat) :
  (Z.of_nat n < 2 ^ 63)%Z ->
  Prim2SF (float_of_nat n) = binary_normalize prec emax (Z.of_nat n) 0 false.
Proof.
  intros H. unfold float_of_nat.
  rewrite of_uint63_spec, Uint63.of_Z_spec.
  rewrite Z.mod_small; [reflexivity|].
  change wB with (2 ^ 63)%Z. lia.
Qed.

Lemma float_of_nat_nonzero (n : nat) :
  (0 < n)%nat -> (Z.of_nat n < 2 ^ 63)%Z ->
  nonzero_number false (Prim2SF (float_of_nat n)).
Proof.
  intros Hn H. rewrite float_of_nat_spec by assumption.
  destruct (Z.of_nat n) as [|p|p] eqn:E; try lia.
  simpl. apply binary_round_nonzero.
  unfold SpecFloat.emin, emax, prec. lia.
Qed.

(** ** Sums under numpy's pairwise summation *)

(** Enough fuel: with at least [length a] the splitting never stops short,
    and the sum does not depend on the fuel. *)
Lemma pairwise_sum_fuel (f f' : nat) (a : list float) :
  (length a <= f)%nat -> (length a <= f')%nat ->
  pairwise_sum f a = pairwise_sum f' a.
Proof.
  revert f' a. induction f as [|f IH]; intros f' a Hf Hf'.
  - destruct a; [|simpl in Hf; lia]. destruct f'; reflexivity.
  - destruct f' as [|f'].
    + destruct a; [reflexivity|simpl in Hf'; lia].
    + cbn [pairwise_sum].
      destruct (Nat.leb_spec (length a) 128) as [Hle|Hgt]; [reflexivity|].
      set (n2 := (length a / 2 - (length a / 2) mod 8)%nat).
      assert (Hn2 : (length a / 2 < length a)%nat)
        by (apply Nat.div_lt; lia).
      assert (Hn2pos : (0 < n2)%nat).
      { unfold n2.
        assert (64 <= length a / 2)%nat
          by (apply Nat.div_le_lower_bound; lia).
        pose proof (Nat.mod_upper_bound (length a / 2) 8 ltac:(lia)). lia. }
      rewrite (IH f' (firstn n2 a)), (IH f' (skipn n2 a));
        rewrite ?length_firstn, ?length_skipn; try reflexivity; lia.
Qed.

Lemma np_sum_short (a : list float) :
  (length a < 8)%nat -> np_sum a = 0 + fold_left PrimFloat.add a 0.
Proof.
  intros H. unfold np_sum.
  assert (E : pairwise_sum (length a) a = block_sum a).
  { destruct (length a) eqn:El; cbn [pairwise_sum]; [reflexivity|].
    rewrite El. destruct (Nat.leb_spec (S n) 128); [reflexivity|lia]. }
  rewrite E.
  destruct a as [|x0 [|x1 [|x2 [|x3 [|x4 [|x5 [|x6 [|x7 a]]]]]]]];
    try reflexivity.
  simpl in H. lia.
Qed.

(** From eight elements on the order of the additions is no longer the
    order of the array: [2^53] absorbs the ones added to it one by one, not
    the ones that were first added among themselves. *)
Example np_sum_eight :
  np_sum [0x1p53; 1; 1; 1; 1; 1; 1; 1] = 0x1.0000000000003p53 /\
  fold_left PrimFloat.add [0x1p53; 1; 1; 1; 1; 1; 1; 1] 0 = 0x1p53.
Proof. split; reflexivity. Qed.

Section Summation.

(** An invariant [B j x] of the partial sums: [x] sums elements of total
    weight [j].  It holds of the starting value, of every element with
    its own weight [w x], and of the sum of two partial sums as long as
    the weight stays within [T]. *)
Variable B : nat -> float -> Prop.
Variable w : float -> nat.
Variable T : nat.
Hypothesis B_zero : B 0 0.
Hypothesis B_add :
  forall j k x y, (j + k <= T)%nat -> B j x -> B k y -> B (j + k) (x + y).

Lemma weight_cons (x : float) (a : list float) :
  weight w (x :: a) = (w x + weight w a)%nat.
Proof. reflexivity. Qed.

Lemma weight_app (a b : list float) :
  weight w (a ++ b) = (weight w a + weight w b)%nat.
Proof. unfold weight. now rewrite map_app, list_sum_app. Qed.

Lemma weight_split (n : nat) (a : list float) :
  (weight w (firstn n a) + weight w (skipn n a))%nat = weight w a.
Proof. now rewrite <- weight_app, firstn_skipn. Qed.

Lemma fold_add_weighted (a : list float) :
  Forall (fun x => B (w x) x) a ->
  forall (acc : float) (j : nat),
    B j acc -> (j + weight w a <= T)%nat ->
    B (j + weight w a) (fold_left PrimFloat.add a acc).
Proof.
  intros H. induction H as [|x a Hx H IH]; intros acc j Hacc Hle.
  - unfold weight. simpl. now rewrite Nat.add_0_r.
  - rewrite weight_cons in *. cbn [fold_left].
    rewrite Nat.add_assoc. apply IH; [|lia].
    apply B_add; [lia|assumption|assumption].
Qed.

Lemma combine_accumulators_weighted (W : nat) (r : accumulators) :
  accumulators_ok B W r -> (W <= T)%nat -> B W (combine_accumulators r).
Proof.
  intros (j0 & j1 & j2 & j3 & j4 & j5 & j6 & j7 &
          H0 & H1 & H2 & H3 & H4 & H5 & H6 & H7 & E) HW.
  replace W with ((j0 + j1 + (j2 + j3)) + (j4 + j5 + (j6 + j7)))%nat by lia.
  unfold combine_accumulators.
  repeat (apply B_add; [lia| |]); assumption.
Qed.

Lemma unrolled_loop_weighted (n : nat) :
  forall (a : list float) (r : accumulators) (W : nat),
    (length a <= n)%nat ->
    accumulators_ok B W r ->
    Forall (fun x => B (w x) x) a ->
    (W + weight w a <= T)%nat ->
    exists W',
      accumulators_ok B W' (fst (unrolled_loop r a)) /\
      Forall (fun x => B (w x) x) (snd (unrolled_loop r a)) /\
      (W' + weight w (snd (unrolled_loop r a)) = W + weight w a)%nat.
Proof.
  induction n as [|n IH]; intros a r W Hlen Hr Ha HT.
  - destruct a; [|simpl in Hlen; lia]. exists W. simpl. auto.
  - destruct a as [|x0 [|x1 [|x2 [|x3 [|x4 [|x5 [|x6 [|x7 a]]]]]]]];
      try (exists W; simpl; auto; fail).
    cbn [unrolled_loop].
    repeat match goal with
           | H : Forall _ (_ :: _) |- _ =>
               let Hx := fresh "Hx" in
               let Hr := fresh "Ha" in
               apply Forall_cons_iff in H as [Hx Hr]
           end.
    rewrite !weight_cons in HT |- *.
    destruct Hr as (j0 & j1 & j2 & j3 & j4 & j5 & j6 & j7 &
                    H0 & H1 & H2 & H3 & H4 & H5 & H6 & H7 & E).
    destruct (IH a
                (Accumulators (acc0 r + x0) (acc1 r + x1) (acc2 r + x2)
                   (acc3 r + x3) (acc4 r + x4) (acc5 r + x5)
                   (acc6 r + x6) (acc7 r + x7))
                (W + (w x0 + w x1 + w x2 + w x3 + w x4 + w x5 + w x6 + w x7))%nat)
      as (W' & Hr' & Hrest & HW').
    + simpl in Hlen. lia.
    + exists (j0 + w x0)%nat, (j1 + w x1)%nat, (j2 + w x2)%nat,
        (j3 + w x3)%nat, (j4 + w x4)%nat, (j5 + w x5)%nat,
        (j6 + w x6)%nat, (j7 + w x7)%nat.
      cbn [acc0 acc1 acc2 acc3 acc4 acc5 acc6 acc7].
      repeat split; try (apply B_add; [lia|assumption|assumption]).
      lia.
    + assumption.
    + lia.
    + exists W'. repeat split; try assumption. lia.
Qed.

Lemma block_sum_weighted (a : list float) :
  Forall (fun x => B (w x) x) a ->
  (weight w a <= T)%nat ->
  B (weight w a) (block_sum a).
Proof.
  intros Ha HT.
  assert (Hshort : B (weight w a) (fold_left PrimFloat.add a 0))
    by (apply (fold_add_weighted a Ha 0 0%nat B_zero); simpl; exact HT).
  destruct a as [|x0 [|x1 [|x2 [|x3 [|x4 [|x5 [|x6 [|x7 a]]]]]]]];
    try exact Hshort.
  clear Hshort. cbn [block_sum].
  repeat match goal with
         | H : Forall _ (_ :: _) |- _ =>
             let Hx := fresh "Hx" in
             let Hr := fresh "Ha" in
             apply Forall_cons_iff in H as [Hx Hr]
         end.
  rewrite !weight_cons in HT |- *.
  destruct (unrolled_loop_weighted (length a) a
              (Accumulators x0 x1 x2 x3 x4 x5 x6 x7)
              (w x0 + w x1 + w x2 + w x3 + w x4 + w x5 + w x6 + w x7)%nat)
    as (W' & Hr' & Hrest & HW'); try assumption.
  - lia.
  - exists (w x0), (w x1), (w x2), (w x3), (w x4), (w x5), (w x6), (w x7).
    cbn [acc0 acc1 acc2 acc3 acc4 acc5 acc6 acc7]. repeat split; assumption.
  - lia.
  - destruct (unrolled_loop (Accumulators x0 x1 x2 x3 x4 x5 x6 x7) a)
      as [r rest]. cbn [fst snd] in *.
    replace (w x0 + (w x1 + (w x2 + (w x3 + (w x4 + (w x5 + (w x6 +
               (w x7 + weight w a))))))))%nat
      with (W' + weight w rest)%nat by lia.
    apply fold_add_weighted; [assumption| |lia].
    apply combine_accumulators_weighted; [assumption|lia].
Qed.

Lemma pairwise_sum_weighted (fuel : nat) :
  forall a : list float,
    Forall (fun x => B (w x) x) a ->
    (weight w a <= T)%nat ->
    B (weight w a) (pairwise_sum fuel a).
Proof.
  induction fuel as [|fuel IH]; intros a Ha HT; cbn [pairwise_sum].
  - now apply block_sum_weighted.
  - destruct (length a <=? 128)%nat; [now apply block_sum_weighted|].
    set (n2 := (length a / 2 - (length a / 2) mod 8)%nat).
    pose proof (weight_split n2 a) as Hs.
    pose proof Ha as Ha'. rewrite <- (firstn_skipn n2 a) in Ha'.
    apply Forall_app in Ha' as [Hfst Hsnd].
    rewrite <- Hs. apply B_add; [lia| |].
    + apply IH; [exact Hfst|lia].
    + apply IH; [exact Hsnd|lia].
Qed.

(** The invariant holds of the sum [np.add.reduce] returns. *)
Theorem np_sum_weighted (a : list float) :
  Forall (fun x => B (w x) x) a ->
  (weight w a <= T)%nat ->
  B (weight w a) (np_sum a).
Proof.
  intros Ha HT. unfold np_sum.
  change (weight w a) with (0 + weight w a)%nat.
  apply B_add; [simpl; exact HT|exact B_zero|].
  now apply pairwise_sum_weighted.
Qed.

End Summation.

(** A property that the starting value and every element have, and that
    addition preserves, holds of the sum. *)
Lemma np_sum_closed (P : float -> Prop) (a : list float) :
  P 0 -> (forall x y, P x -> P y -> P (x + y)) ->
  Forall P a -> P (np_sum a).
Proof.
  intros H0 Hadd Ha.
  apply (np_sum_weighted (fun _ => P) (fun _ => 0%nat) (weight (fun _ => 0%nat) a)).
  - exact H0.
  - intros j k x y _. apply Hadd.
  - exact Ha.
  - lia.
Qed.

(** ** Zero numerators and zero sums *)

Lemma zero_div_nonzero (x : float) :
  nonzero_number false (Prim2SF x) -> 0 / x = 0.
Proof.
  intros H. apply Prim2SF_inj. rewrite div_spec.
  change (Prim2SF 0) with (S754_zero false).
  destruct (Prim2SF x) as [s|s| |s m e]; simpl in H; try contradiction;
    subst s; reflexivity.
Qed.

Lemma np_sum_zeros (a : list float) :
  Forall (fun x => x = 0) a -> np_sum a = 0.
Proof.
  intros H. apply (np_sum_closed (fun x => x = 0)); [reflexivity| |exact H].
  intros x y -> ->. reflexivity.
Qed.

(** The ratio of a point where prediction and truth coincide: zero over a
    positive denominator when the value is finite and nonzero, NaN
    otherwise. *)
Lemma sub_self_finite (x : float) (s : bool) (m : positive) (e : Z) :
  Prim2SF x = S754_finite s m e -> x - x = 0.
Proof.
  intros H. apply Prim2SF_inj. rewrite sub_spec, H.
  unfold SF64sub, SFsub.
  rewrite Z.sub_diag. reflexivity.
Qed.

Lemma add_abs_self_nonzero (x : float) (s : bool) (m : positive) (e : Z) :
  Prim2SF x = S754_finite s m e ->
  nonzero_number false (Prim2SF (PrimFloat.abs x + PrimFloat.abs x)).
Proof.
  intros H. pose proof (Prim2SF_valid x) as Hv. rewrite H in Hv.
  apply valid_exponent in Hv.
  rewrite add_spec, abs_spec, H. unfold SF64add, SFabs, SFadd.
  rewrite Z.min_id. unfold shl_align. rewrite Z.sub_diag.
  cbn [fst cond_Zopp]. rewrite Pos2Z.add_pos_pos.
  cbn [binary_normalize]. now apply binary_round_nonzero.
Qed.

Lemma smape_ratio_self (x : float) :
  smape_ratio x x
  = if PrimFloat.is_finite x && negb (PrimFloat.is_zero x) then 0 else nan.
Proof.
  unfold smape_ratio.
  destruct (Prim2SF x) as [s|s| |s m e] eqn:E.
  - assert (Hz : PrimFloat.is_zero x = true) by (apply is_zero_spec; now exists s).
    rewrite Hz, andb_false_r.
    apply Prim2SF_inj.
    rewrite div_spec, add_spec, !abs_spec, sub_spec, E.
    destruct s; reflexivity.
  - assert (Hf : PrimFloat.is_finite x = false).
    { destruct (PrimFloat.is_finite x) eqn:F; [|reflexivity].
      apply is_finite_spec in F as [[s' F]|(s' & m & e & F)]; congruence. }
    rewrite Hf. simpl.
    apply Prim2SF_inj.
    rewrite div_spec, add_spec, !abs_spec, sub_spec, E.
    destruct s; reflexivity.
  - assert (Hf : PrimFloat.is_finite x = false).
    { destruct (PrimFloat.is_finite x) eqn:F; [|reflexivity].
      apply is_finite_spec in F as [[s' F]|(s' & m & e & F)]; congruence. }
    rewrite Hf. simpl.
    apply Prim2SF_inj.
    rewrite div_spec, add_spec, !abs_spec, sub_spec, E. reflexivity.
  - assert (Hf : PrimFloat.is_finite x = true).
    { apply is_finite_spec. right. now exists s, m, e. }
    assert (Hz : PrimFloat.is_zero x = false).
    { destruct (PrimFloat.is_zero x) eqn:F; [|reflexivity].
      apply is_zero_spec in F as [s' F]. congruence. }
    rewrite Hf, Hz. simpl.
    rewrite (sub_self_finite x s m e E).
    change (PrimFloat.abs 0) with 0.
    apply zero_div_nonzero. now apply (add_abs_self_nonzero x s m e).
Qed.

(** ** Means of lists of zeros and NaNs *)

Lemma series_mean_all_nan (a : list float) :
  Forall (fun x => x = nan) a -> series_mean a = nan.
Proof.
  intros H. unfold series_mean, kept.
  assert (Hk : filter (fun x => negb (PrimFloat.is_nan x)) a = []).
  { induction H as [|x a Hx H IH]; cbn [filter]; [reflexivity|].
    subst x. exact IH. }
  now rewrite Hk.
Qed.

Lemma series_mean_zero_or_nan (a : list float) :
  Forall (fun x => x = 0 \/ x = nan) a ->
  Exists (fun x => x = 0) a ->
  (Z.of_nat (length a) < 2 ^ 63)%Z ->
  series_mean a = 0.
Proof.
  intros Hall Hex Hlen. unfold series_mean, kept, filled.
  assert (Hfill : Forall (fun x => x = 0)
                         (map (fun x => if PrimFloat.is_nan x then 0 else x) a)).
  { clear Hex Hlen. induction Hall as [|x a Hx H IH]; cbn [map]; constructor.
    - destruct Hx as [->| ->]; reflexivity.
    - exact IH. }
  rewrite (np_sum_zeros _ Hfill).
  pose proof (filter_length_le (fun x => negb (PrimFloat.is_nan x)) a) as Hle.
  assert (Hne : filter (fun x => negb (PrimFloat.is_nan x)) a <> []).
  { clear Hall Hlen Hfill Hle. induction Hex as [x a Hx|x a Hex IH]; cbn [filter].
    - subst x. discriminate.
    - destruct (negb (PrimFloat.is_nan x)); [discriminate|exact IH]. }
  destruct (filter _ a) as [|k kept] eqn:E; [congruence|].
  apply zero_div_nonzero, float_of_nat_nonzero; simpl in *; lia.
Qed.

Lemma both_zero_ratio (t p : float) :
  PrimFloat.is_zero t = true -> PrimFloat.is_zero p = true ->
  smape_ratio t p = nan.
Proof.
  intros Ht Hp. apply is_zero_spec in Ht as [st Ht], Hp as [sp Hp].
  unfold smape_ratio. apply Prim2SF_inj.
  rewrite div_spec, add_spec, !abs_spec, sub_spec, Ht, Hp.
  destruct st, sp; reflexivity.
Qed.

(** ** The final quotient of MASE *)

Lemma mase_score_quotient (y_true y_pred y_train : Series) (sp : Z) :
  (1 <= sp)%Z ->
  (sp + 1 <= Z.of_nat (length y_train))%Z ->
  indices_valid y_true y_pred y_train ->
  train_before_pred y_train y_pred ->
  mase_score y_true y_pred y_train sp
  = Ok (- mae_pred y_true y_pred / mae_naive y_train sp).
Proof.
  intros Hsp Hn Hvalid Hord.
  assert (Hlen : length (values y_train) = length y_train)
    by (unfold values; apply length_map).
  rewrite mase_score_validated by assumption.
  rewrite <- (Z2Nat.id sp) at 1 2 by lia.
  rewrite slice_from_skipn, slice_to_firstn by lia.
  unfold np_sub.
  rewrite length_skipn, length_firstn, Nat.min_l, Nat.eqb_refl by lia.
  simpl. unfold np_abs. rewrite zip_sub_shift by lia.
  reflexivity.
Qed.

Lemma div_finite_not_nan (x y : float) :
  PrimFloat.is_finite x = true -> PrimFloat.is_finite y = true ->
  PrimFloat.is_zero y = false ->
  PrimFloat.is_nan (x / y) = false.
Proof.
  intros Hx Hy Hz.
  destruct (PrimFloat.is_nan (x / y)) eqn:E; [|reflexivity].
  apply is_nan_spec in E. rewrite div_spec in E.
  apply is_finite_spec in Hy as [[sy Hy]|(sy & my & ey & Hy)].
  - assert (PrimFloat.is_zero y = true) by (apply is_zero_spec; now exists sy).
    congruence.
  - apply is_finite_spec in Hx as [[sx Hx]|(sx & mx & ex & Hx)].
    + rewrite Hx, Hy in E. discriminate E.
    + pose proof (SFdiv_signed sx sy mx my ex ey) as H.
      rewrite Hx, Hy in E. rewrite E in H. contradiction.
Qed.

Lemma opp_finite (x : float) :
  PrimFloat.is_finite x = true -> PrimFloat.is_finite (- x) = true.
Proof.
  intros H. apply is_finite_spec. rewrite opp_spec.
  apply is_finite_spec in H as [[s ->]|(s & m & e & ->)]; simpl.
  - left. now exists (negb s).
  - right. now exists (negb s), m, e.
Qed.

(** ** Counting binary digits *)

Lemma Zdigits2_le (m j : Z) :
  (0 < m)%Z -> (0 <= j)%Z -> (m < 2 ^ j)%Z -> (Zdigits2 m <= j)%Z.
Proof.
  intros Hm Hj H.
  destruct (Z.le_gt_cases (Zdigits2 m) j) as [|Hgt]; [assumption|].
  pose proof (Zdigits2_bounds m Hm) as [Hlo _].
  assert (2 ^ j <= 2 ^ (Zdigits2 m - 1))%Z by (apply Z.pow_le_mono_r; lia).
  lia.
Qed.

Lemma Zdigits2_gt (m j : Z) :
  (0 <= j)%Z -> (2 ^ j <= m)%Z -> (j < Zdigits2 m)%Z.
Proof.
  intros Hj H.
  assert (Hm : (0 < m)%Z) by (pose proof (Z.pow_pos_nonneg 2 j); lia).
  destruct (Z.lt_ge_cases j (Zdigits2 m)) as [|Hge]; [assumption|].
  pose proof (Zdigits2_bounds m Hm) as [_ Hhi].
  pose proof (Zdigits2_pos m Hm).
  assert (2 ^ Zdigits2 m <= 2 ^ j)%Z by (apply Z.pow_le_mono_r; lia).
  lia.
Qed.

Lemma Zdigits2_unique (m j : Z) :
  (0 < j)%Z -> (2 ^ (j - 1) <= m < 2 ^ j)%Z -> Zdigits2 m = j.
Proof.
  intros Hj [Hlo Hhi].
  assert (Hm : (0 < m)%Z) by (pose proof (Z.pow_pos_nonneg 2 (j - 1)); lia).
  pose proof (Zdigits2_le m j Hm ltac:(lia) Hhi).
  pose proof (Zdigits2_gt m (j - 1) ltac:(lia) Hlo).
  lia.
Qed.

Lemma Zdigits2_mul_pow2 (m j : Z) :
  (0 < m)%Z -> (0 <= j)%Z -> Zdigits2 (m * 2 ^ j) = (Zdigits2 m + j)%Z.
Proof.
  intros Hm Hj.
  pose proof (Zdigits2_bounds m Hm) as [Hlo Hhi].
  pose proof (Zdigits2_pos m Hm) as Hd.
  assert (Hp : (0 < 2 ^ j)%Z) by (apply Z.pow_pos_nonneg; lia).
  apply Zdigits2_unique; [lia|].
  replace (Zdigits2 m + j - 1)%Z with (Zdigits2 m - 1 + j)%Z by lia.
  rewrite !Z.pow_add_r by lia. nia.
Qed.

Lemma iter_xO_value (m : positive) (j : positive) :
  Zpos (Pos.iter xO m j) = (Zpos m * 2 ^ Zpos j)%Z.
Proof.
  induction j as [|j IH] using Pos.peano_ind.
  - simpl. lia.
  - rewrite Pos.iter_succ, Pos2Z.inj_succ, Z.pow_succ_r by lia.
    rewrite Pos2Z.inj_xO, IH. lia.
Qed.

(** [shl_align] keeps the value and never raises the exponent above the
    target. *)
Lemma shl_align_spec (mx : positive) (ex ex' : Z) :
  let '(mz, ez) := shl_align mx ex ex' in
  ez = Z.min ex ex' /\ Zpos mz = (Zpos mx * 2 ^ (ex - ez))%Z.
Proof.
  unfold shl_align. destruct (ex' - ex)%Z as [|d|d] eqn:E.
  - rewrite Z.min_l by lia. rewrite Z.sub_diag. simpl. lia.
  - rewrite Z.min_l by lia. rewrite Z.sub_diag. simpl. lia.
  - rewrite Z.min_r by lia. split; [reflexivity|].
    rewrite iter_xO_value. f_equal. f_equal. lia.
Qed.


(** ** The steps of [binary_round_aux] *)

Lemma loc_of_exact_record (mrs : shr_record) :
  shr_exact mrs = true -> loc_of_shr_record mrs = loc_Exact.
Proof. destruct mrs as [m [|] [|]]; simpl; try discriminate; reflexivity. Qed.

Lemma shr_fexp_m (m e : Z) (l : location) :
  (0 <= m)%Z ->
  shr_m (fst (shr_fexp prec emax m e l)) = (m / 2 ^ shift_amount m e)%Z.
Proof. intros H. now destruct (shr_fexp_shifted m e l H) as [[Hq _] _]. Qed.

Lemma shr_fexp_e (m e : Z) (l : location) :
  (0 <= m)%Z ->
  snd (shr_fexp prec emax m e l) = (e + shift_amount m e)%Z.
Proof. intros H. now destruct (shr_fexp_shifted m e l H) as [_ Hs]. Qed.

Lemma shift_amount_nonneg (m e : Z) : (0 <= shift_amount m e)%Z.
Proof. unfold shift_amount. lia. Qed.

(** The rounded mantissa is the truncated one or its successor, and the
    truncated one when nothing was lost. *)
Lemma rounded_mantissa_bounds (mx ex : Z) (lx : location) :
  (0 <= mx)%Z ->
  let m1 := (mx / 2 ^ shift_amount mx ex)%Z in
  (m1 <= rounded_mantissa mx ex lx <= m1 + 1)%Z /\
  (lx = loc_Exact -> (mx mod 2 ^ shift_amount mx ex = 0)%Z ->
   rounded_mantissa mx ex lx = m1).
Proof.
  intros Hm m1. unfold rounded_mantissa.
  destruct (shr_fexp_shifted mx ex lx Hm) as [[Hq Hx] _].
  fold (shift_amount mx ex) in Hq, Hx. rewrite Hq. fold m1. split.
  - apply round_nearest_even_ge.
  - intros -> Hmod. rewrite Hmod in Hx. simpl in Hx.
    now rewrite (loc_of_exact_record _ Hx).
Qed.

Lemma binary_round_aux_steps (s : bool) (mx ex : Z) (lx : location) :
  (0 <= mx)%Z ->
  let m2 := rounded_mantissa mx ex lx in
  let e1 := (ex + shift_amount mx ex)%Z in
  binary_round_aux prec emax s mx ex lx
  = assemble s (m2 / 2 ^ shift_amount m2 e1) (e1 + shift_amount m2 e1).
Proof.
  intros Hm m2 e1. unfold binary_round_aux.
  pose proof (shr_fexp_e mx ex lx Hm) as He. fold e1 in He.
  assert (Hm2 : (0 <= m2)%Z).
  { pose proof (rounded_mantissa_bounds mx ex lx Hm) as [[H _] _].
    assert (0 <= mx / 2 ^ shift_amount mx ex)%Z.
    { apply Z.div_pos; [lia|]. apply Z.pow_pos_nonneg; [lia|apply shift_amount_nonneg]. }
    unfold m2. lia. }
  unfold m2, rounded_mantissa in *.
  destruct (shr_fexp prec emax mx ex lx) as [mrs' e']. simpl in He. subst e'.
  cbn [fst] in *.
  pose proof (shr_fexp_m _ e1 loc_Exact Hm2) as Hq.
  pose proof (shr_fexp_e _ e1 loc_Exact Hm2) as He2.
  destruct (shr_fexp prec emax _ e1 loc_Exact) as [mrs'' e''].
  simpl in Hq, He2. subst e''. rewrite Hq. reflexivity.
Qed.

(** ** Scaling by a power of two *)









(** The aligned mantissa of [binary_round]: same magnitude, exponent at most
    the canonical one. *)
Lemma shl_align_fexp (m : positive) (e : Z) (mz : positive) (ez : Z) :
  shl_align m e (fexp prec emax (Zpos (digits2_pos m) + e)) = (mz, ez) ->
  ez = Z.min e (fexp prec emax (Zpos (digits2_pos m) + e)) /\
  (Zdigits2 (Zpos mz) + ez = Zpos (digits2_pos m) + e)%Z.
Proof.
  intros E.
  pose proof (shl_align_spec m e (fexp prec emax (Zpos (digits2_pos m) + e))) as H.
  rewrite E in H. destruct H as [Hez Hmz]. split; [exact Hez|].
  rewrite Hmz, Zdigits2_mul_pow2 by lia.
  simpl Zdigits2. lia.
Qed.








(** A valid float above the least exponent is normal: [prec] digits. *)
Lemma valid_normal (s : bool) (m : positive) (e : Z) :
  valid_binary (S754_finite s m e) = true -> (emin < e)%Z ->
  Zdigits2 (Zpos m) = prec.
Proof.
  simpl. unfold bounded, canonical_mantissa. intros H He.
  apply andb_prop in H as [H _]. apply Z.eqb_eq in H.
  unfold fexp in H. lia.
Qed.









(** ** Comparing [m * 2^e] on integers *)

Lemma pow2_pos (k : Z) : (0 <= k)%Z -> (0 < 2 ^ k)%Z.
Proof. intros H. apply Z.pow_pos_nonneg; lia. Qed.

Lemma pow2_split (e c b : Z) :
  (b <= c <= e)%Z -> (2 ^ (e - b) = 2 ^ (e - c) * 2 ^ (c - b))%Z.
Proof.
  intros H. rewrite <- Z.pow_add_r by lia. f_equal. lia.
Qed.

Lemma ple_base (b m e m' e' : Z) :
  (b <= e)%Z -> (b <= e')%Z ->
  ple m e m' e' <-> (m * 2 ^ (e - b) <= m' * 2 ^ (e' - b))%Z.
Proof.
  intros He He'. unfold ple. set (c := Z.min e e').
  rewrite (pow2_split e c b), (pow2_split e' c b) by lia.
  pose proof (pow2_pos (c - b) ltac:(lia)) as Hp.
  rewrite !Z.mul_assoc. split; intros H.
  - apply Z.mul_le_mono_nonneg_r; lia.
  - apply Z.mul_le_mono_pos_r in H; lia.
Qed.

Lemma ple_refl (m e : Z) : ple m e m e.
Proof. unfold ple. lia. Qed.

Lemma ple_trans (m1 e1 m2 e2 m3 e3 : Z) :
  ple m1 e1 m2 e2 -> ple m2 e2 m3 e3 -> ple m1 e1 m3 e3.
Proof.
  set (b := Z.min e1 (Z.min e2 e3)).
  rewrite (ple_base b m1 e1 m2 e2), (ple_base b m2 e2 m3 e3),
          (ple_base b m1 e1 m3 e3) by lia.
  lia.
Qed.

Lemma ple_total (m1 e1 m2 e2 : Z) : ple m1 e1 m2 e2 \/ ple m2 e2 m1 e1.
Proof.
  set (b := Z.min e1 e2).
  rewrite (ple_base b m1 e1 m2 e2), (ple_base b m2 e2 m1 e1) by lia.
  lia.
Qed.

Lemma pow2_lt_inv (a b : Z) : (0 <= b)%Z -> (2 ^ a < 2 ^ b)%Z -> (a < b)%Z.
Proof.
  intros Hb H. destruct (Z.lt_ge_cases a b) as [|Hge]; [assumption|].
  assert (2 ^ b <= 2 ^ a)%Z by (apply Z.pow_le_mono_r; lia). lia.
Qed.

(** Magnitudes: a bound in value bounds digits plus exponent. *)
Lemma ple_magnitude (m e m' e' : Z) :
  (0 < m)%Z -> (0 < m')%Z -> ple m e m' e' ->
  (Zdigits2 m + e <= Zdigits2 m' + e')%Z.
Proof.
  intros Hm Hm' H. unfold ple in H. set (b := Z.min e e') in *.
  pose proof (Zdigits2_bounds m Hm) as [Hlo _].
  pose proof (Zdigits2_bounds m' Hm') as [_ Hhi].
  pose proof (Zdigits2_pos m Hm). pose proof (Zdigits2_pos m' Hm').
  pose proof (pow2_pos (e - b) ltac:(lia)).
  pose proof (pow2_pos (e' - b) ltac:(lia)).
  assert (Ha : (2 ^ (Zdigits2 m - 1 + (e - b)) <= m * 2 ^ (e - b))%Z).
  { rewrite Z.pow_add_r by lia. apply Z.mul_le_mono_nonneg_r; lia. }
  assert (Hb : (m' * 2 ^ (e' - b) < 2 ^ (Zdigits2 m' + (e' - b)))%Z).
  { rewrite Z.pow_add_r by lia. apply Z.mul_lt_mono_pos_r; lia. }
  assert (Hc : (Zdigits2 m - 1 + (e - b) < Zdigits2 m' + (e' - b))%Z)
    by (apply pow2_lt_inv; lia).
  lia.
Qed.

Lemma fexp_mono (x y : Z) :
  (x <= y)%Z -> (fexp prec emax x <= fexp prec emax y)%Z.
Proof. unfold fexp. lia. Qed.

Lemma valid_canonical (s : bool) (m : positive) (e : Z) :
  valid_binary (S754_finite s m e) = true ->
  fexp prec emax (Zdigits2 (Zpos m) + e) = e /\ (e <= emax - prec)%Z.
Proof.
  simpl. unfold bounded, canonical_mantissa. intros H.
  apply andb_prop in H as [H1 H2].
  apply Z.eqb_eq in H1. apply Z.leb_le in H2. split; assumption.
Qed.

Lemma valid_digits (s : bool) (m : positive) (e : Z) :
  valid_binary (S754_finite s m e) = true ->
  (Zdigits2 (Zpos m) <= prec)%Z /\ (Zpos m < 2 ^ prec)%Z.
Proof.
  intros H. apply valid_canonical in H as [H _].
  assert (Hd : (Zdigits2 (Zpos m) <= prec)%Z) by (unfold fexp in H; lia).
  split; [exact Hd|].
  pose proof (Zdigits2_bounds (Zpos m) ltac:(lia)) as [_ Hhi].
  assert (2 ^ Zdigits2 (Zpos m) <= 2 ^ prec)%Z
    by (apply Z.pow_le_mono_r; [lia|exact Hd]).
  lia.
Qed.

(** ** The two shifts of [binary_round_aux] on a mantissa with enough digits *)

Lemma first_shift (mx ex : Z) :
  (0 <= mx)%Z ->
  (ex <= fexp prec emax (Zdigits2 mx + ex))%Z ->
  shift_amount mx ex = (fexp prec emax (Zdigits2 mx + ex) - ex)%Z /\
  (mx / 2 ^ shift_amount mx ex < 2 ^ prec)%Z /\
  ((0 < mx)%Z -> (emin < fexp prec emax (Zdigits2 mx + ex))%Z ->
   (2 ^ (prec - 1) <= mx / 2 ^ shift_amount mx ex)%Z).
Proof.
  intros Hm Hd.
  assert (Hprec : prec = 53%Z) by reflexivity.
  set (T := fexp prec emax (Zdigits2 mx + ex)) in *.
  assert (Hsa : shift_amount mx ex = (T - ex)%Z) by (unfold shift_amount; fold T; lia).
  rewrite Hsa. split; [reflexivity|].
  pose proof (pow2_pos (T - ex) ltac:(lia)) as Hp.
  split.
  - apply Z.div_lt_upper_bound; [exact Hp|].
    destruct (Z.eq_dec mx 0) as [->|Hnz].
    + pose proof (pow2_pos prec ltac:(lia)). lia.
    + pose proof (Zdigits2_bounds mx ltac:(lia)) as [_ Hhi].
      pose proof (Zdigits2_pos mx ltac:(lia)).
      rewrite <- Z.pow_add_r by lia.
      assert (2 ^ Zdigits2 mx <= 2 ^ (T - ex + prec))%Z.
      { apply Z.pow_le_mono_r; [lia|]. unfold T, fexp. lia. }
      lia.
  - intros Hpos HT.
    pose proof (Zdigits2_bounds mx Hpos) as [Hlo _].
    assert (HT' : T = (Zdigits2 mx + ex - prec)%Z) by (unfold T, fexp in *; lia).
    apply Z.div_le_lower_bound; [exact Hp|].
    rewrite <- Z.pow_add_r by lia.
    replace (T - ex + (prec - 1))%Z with (Zdigits2 mx - 1)%Z by lia.
    exact Hlo.
Qed.

Lemma second_shift (m2 T : Z) :
  (emin <= T)%Z -> (0 < m2 <= 2 ^ prec)%Z ->
  (0 <= shift_amount m2 T <= 1)%Z /\
  (m2 / 2 ^ shift_amount m2 T * 2 ^ shift_amount m2 T = m2)%Z /\
  (m2 / 2 ^ shift_amount m2 T < 2 ^ prec)%Z /\
  ((2 ^ (prec - 1) <= m2)%Z -> (2 ^ (prec - 1) <= m2 / 2 ^ shift_amount m2 T)%Z).
Proof.
  intros HT [Hpos Hle].
  assert (Hprec : prec = 53%Z) by reflexivity.
  destruct (Z.eq_dec m2 (2 ^ prec)) as [->|Hne].
  - assert (Hd : Zdigits2 (2 ^ prec) = (prec + 1)%Z).
    { apply Zdigits2_unique; [lia|].
      replace (prec + 1 - 1)%Z with prec by lia.
      rewrite Z.pow_add_r by lia. change (2 ^ 1)%Z with 2%Z.
      pose proof (pow2_pos prec ltac:(lia)). lia. }
    assert (Hsa : shift_amount (2 ^ prec) T = 1%Z).
    { unfold shift_amount. rewrite Hd. unfold fexp. lia. }
    rewrite Hsa. change (2 ^ 1)%Z with 2%Z.
    replace (2 ^ prec)%Z with (2 ^ (prec - 1) * 2)%Z
      by (rewrite Z.mul_comm, <- (Z.pow_succ_r 2 (prec - 1)) by lia; f_equal; lia).
    rewrite Z.div_mul by lia.
    pose proof (pow2_pos (prec - 1) ltac:(lia)).
    repeat split; lia.
  - assert (Hd : (Zdigits2 m2 <= prec)%Z) by (apply Zdigits2_le; lia).
    assert (Hsa : shift_amount m2 T = 0%Z).
    { unfold shift_amount, fexp. lia. }
    rewrite Hsa, Z.pow_0_r, Z.div_1_r. repeat split; lia.
Qed.

(** The rounded mantissa of a mantissa with enough digits. *)
Lemma rounded_mantissa_range (mx ex : Z) (lx : location) :
  (0 <= mx)%Z ->
  (ex <= fexp prec emax (Zdigits2 mx + ex))%Z ->
  (0 <= rounded_mantissa mx ex lx <= 2 ^ prec)%Z /\
  ((0 < mx)%Z -> (emin < fexp prec emax (Zdigits2 mx + ex))%Z ->
   (2 ^ (prec - 1) <= rounded_mantissa mx ex lx)%Z).
Proof.
  intros Hm Hd.
  destruct (first_shift mx ex Hm Hd) as (Hsa & Hlt & Hge).
  pose proof (rounded_mantissa_bounds mx ex lx Hm) as [[Hlo Hhi] _].
  assert (0 <= mx / 2 ^ shift_amount mx ex)%Z
    by (apply Z.div_pos; [lia|apply pow2_pos, shift_amount_nonneg]).
  split; [lia|]. intros Hpos HT. specialize (Hge Hpos HT). lia.
Qed.

(** ** Rounding does not cross a representable number *)

Lemma ple_weaken_l (m m0 e m' e' : Z) :
  (m0 <= m)%Z -> ple m e m' e' -> ple m0 e m' e'.
Proof.
  unfold ple. intros Hm H.
  pose proof (pow2_pos (e - Z.min e e') ltac:(lia)).
  nia.
Qed.

Lemma zero_mantissa_exponent (ex : Z) :
  (ex <= fexp prec emax (Zdigits2 0 + ex))%Z ->
  fexp prec emax (Zdigits2 0 + ex) = emin.
Proof.
  assert (Hprec : prec = 53%Z) by reflexivity.
  simpl Zdigits2. unfold fexp. lia.
Qed.

Lemma assemble_pos (s : bool) (m e : Z) :
  (0 < m)%Z -> (e <= emax - prec)%Z ->
  assemble s m e = S754_finite s (Z.to_pos m) e.
Proof.
  intros Hm He. unfold assemble. destruct m as [|p|p]; try lia.
  destruct (Z.leb_spec e (emax - prec)); [reflexivity|lia].
Qed.

(** If the exact value, which lies in [[mx * 2^ex, (mx + 1) * 2^ex)] and is
    [mx * 2^ex] when the location is exact, is at most the float [B], so is
    its rounding. *)
Lemma round_le_bound (s : bool) (mx ex : Z) (lx : location)
      (mB : positive) (eB : Z) :
  (0 <= mx)%Z ->
  (ex <= fexp prec emax (Zdigits2 mx + ex))%Z ->
  valid_binary (S754_finite false mB eB) = true ->
  ple (mx + loc_excess lx) ex (Zpos mB) eB ->
  match binary_round_aux prec emax s mx ex lx with
  | S754_zero s' => s' = s
  | S754_finite s' m e => s' = s /\ ple (Zpos m) e (Zpos mB) eB
  | _ => False
  end.
Proof.
  intros Hm Hd VB Hple.
  assert (Hprec : prec = 53%Z) by reflexivity.
  assert (Hemax : emax = 1024%Z) by reflexivity.
  assert (Hemin : emin = (-1074)%Z) by reflexivity.
  destruct (first_shift mx ex Hm Hd) as (Hsa1 & Hm1lt & Hm1ge).
  pose proof (rounded_mantissa_bounds mx ex lx Hm) as [[Hlo Hhi] Hex].
  destruct (rounded_mantissa_range mx ex lx Hm Hd) as [[Hm2lo Hm2hi] Hm2ge].
  destruct (valid_canonical _ _ _ VB) as [HcB HeB].
  destruct (valid_digits _ _ _ VB) as [HdB _].
  pose proof (fexp_ge_emin (Zdigits2 (Zpos mB) + eB)) as HeBmin. rewrite HcB in HeBmin.
  pose proof (fexp_ge_emin (Zdigits2 mx + ex)) as HTmin.
  rewrite binary_round_aux_steps by assumption.
  set (T := fexp prec emax (Zdigits2 mx + ex)) in *.
  set (m2 := rounded_mantissa mx ex lx) in *.
  rewrite Hsa1 in *.
  replace (ex + (T - ex))%Z with T by lia.
  set (m1 := (mx / 2 ^ (T - ex))%Z) in *.
  assert (Hexc : (0 <= loc_excess lx <= 1)%Z) by (destruct lx; simpl; lia).
  (* the canonical exponent of the value is at most that of the bound *)
  assert (HTB : (T <= eB)%Z).
  { destruct (Z.eq_dec mx 0) as [E|E].
    - subst mx. unfold T. rewrite zero_mantissa_exponent by exact Hd. lia.
    - assert (Hmag : (Zdigits2 mx + ex <= Zdigits2 (Zpos mB) + eB)%Z).
      { apply ple_magnitude; [lia|lia|].
        apply (ple_weaken_l (mx + loc_excess lx)); [lia|exact Hple]. }
      apply fexp_mono in Hmag. fold T in Hmag. lia. }
  (* the rounded mantissa is at most the bound *)
  assert (G1 : ple m2 T (Zpos mB) eB).
  { set (b := Z.min ex eB).
    assert (Hb1 : (b <= ex)%Z) by lia. assert (Hb2 : (b <= eB)%Z) by lia.
    assert (Hb3 : (b <= T)%Z) by lia.
    apply (proj1 (ple_base b _ _ _ _ Hb1 Hb2)) in Hple.
    apply (proj2 (ple_base b _ _ _ _ Hb3 Hb2)).
    pose proof (pow2_pos (T - ex) ltac:(lia)) as HN.
    pose proof (pow2_pos (ex - b) ltac:(lia)) as HQ.
    pose proof (pow2_pos (eB - T) ltac:(lia)) as HK.
    rewrite (pow2_split T ex b) by lia.
    rewrite (pow2_split eB T b), (pow2_split T ex b) in * by lia.
    pose proof (Z.div_mod mx (2 ^ (T - ex)) ltac:(lia)) as Hdm. fold m1 in Hdm.
    pose proof (Z.mod_pos_bound mx (2 ^ (T - ex)) HN) as Hr.
    set (N := (2 ^ (T - ex))%Z) in *. set (Q := (2 ^ (ex - b))%Z) in *.
    set (K := (Zpos mB * 2 ^ (eB - T))%Z).
    assert (HKN : (mx + loc_excess lx <= K * N)%Z).
    { unfold K. apply (Z.mul_le_mono_pos_r _ _ Q); [exact HQ|]. lia. }
    assert (Hm2K : (m2 <= K)%Z).
    { destruct (Z.eq_dec (mx mod N) 0) as [E0|E0].
      - destruct lx as [|c].
        + rewrite (Hex eq_refl E0). simpl in HKN. nia.
        + simpl in HKN. nia.
      - nia. }
    unfold K in Hm2K.
    rewrite !Z.mul_assoc.
    apply Z.mul_le_mono_nonneg_r; [lia|].
    apply Z.mul_le_mono_nonneg_r; lia. }
  destruct (Z.eq_dec m2 0) as [E|E].
  - rewrite E. rewrite Z.div_0_l by (apply Z.pow_nonzero; [lia|apply shift_amount_nonneg]).
    reflexivity.
  - destruct (second_shift m2 T HTmin ltac:(lia)) as (Hn2 & Hm3 & Hm3lt & Hm3ge).
    set (n2 := shift_amount m2 T) in *.
    set (m3 := (m2 / 2 ^ n2)%Z) in *.
    pose proof (pow2_pos n2 ltac:(lia)) as Hp2.
    assert (Hm3pos : (0 < m3)%Z) by nia.
    assert (G2 : ple m3 (T + n2) (Zpos mB) eB).
    { apply (ple_trans _ _ m2 T); [|exact G1].
      apply (proj2 (ple_base T m3 (T + n2) m2 T ltac:(lia) ltac:(lia))).
      rewrite Z.sub_diag, Z.pow_0_r.
      replace (T + n2 - T)%Z with n2 by lia. lia. }
    assert (Hov : (T + n2 <= emax - prec)%Z).
    { destruct (Z.eq_dec T emin) as [ET|ET]; [lia|].
      assert (Hpos : (0 < mx)%Z).
      { destruct (Z.eq_dec mx 0) as [E0|E0]; [|lia].
        exfalso. apply ET. unfold T. rewrite E0.
        apply zero_mantissa_exponent. now rewrite <- E0. }
      specialize (Hm2ge Hpos ltac:(lia)). specialize (Hm3ge Hm2ge).
      pose proof (Zdigits2_gt m3 (prec - 1) ltac:(lia) Hm3ge).
      pose proof (ple_magnitude m3 (T + n2) (Zpos mB) eB Hm3pos ltac:(lia) G2).
      lia. }
    rewrite assemble_pos by assumption.
    split; [reflexivity|]. rewrite Z2Pos.id by assumption. exact G2.
Qed.

Lemma ple_weaken_r (m e m' m0 e' : Z) :
  (m' <= m0)%Z -> ple m e m' e' -> ple m e m0 e'.
Proof.
  unfold ple. intros Hm H.
  pose proof (pow2_pos (e' - Z.min e e') ltac:(lia)).
  nia.
Qed.

(** If the float [B] is at most [mx * 2^ex], which is at most the exact
    value, then [B] is at most the rounding. *)
Lemma round_ge_bound (s : bool) (mx ex : Z) (lx : location)
      (mB : positive) (eB : Z) :
  (0 < mx)%Z ->
  (ex <= fexp prec emax (Zdigits2 mx + ex))%Z ->
  valid_binary (S754_finite false mB eB) = true ->
  ple (Zpos mB) eB mx ex ->
  match binary_round_aux prec emax s mx ex lx with
  | S754_infinity s' => s' = s
  | S754_finite s' m e => s' = s /\ ple (Zpos mB) eB (Zpos m) e
  | _ => False
  end.
Proof.
  intros Hm Hd VB Hple.
  assert (Hprec : prec = 53%Z) by reflexivity.
  assert (Hemax : emax = 1024%Z) by reflexivity.
  assert (Hemin : emin = (-1074)%Z) by reflexivity.
  destruct (first_shift mx ex ltac:(lia) Hd) as (Hsa1 & Hm1lt & Hm1ge).
  pose proof (rounded_mantissa_bounds mx ex lx ltac:(lia)) as [[Hlo Hhi] _].
  destruct (rounded_mantissa_range mx ex lx ltac:(lia) Hd) as [[Hm2lo Hm2hi] _].
  destruct (valid_canonical _ _ _ VB) as [HcB HeB].
  destruct (valid_digits _ _ _ VB) as [_ HmB].
  pose proof (fexp_ge_emin (Zdigits2 (Zpos mB) + eB)) as HeBmin. rewrite HcB in HeBmin.
  pose proof (fexp_ge_emin (Zdigits2 mx + ex)) as HTmin.
  rewrite binary_round_aux_steps by lia.
  set (T := fexp prec emax (Zdigits2 mx + ex)) in *.
  set (m2 := rounded_mantissa mx ex lx) in *.
  rewrite Hsa1 in *.
  replace (ex + (T - ex))%Z with T by lia.
  set (m1 := (mx / 2 ^ (T - ex))%Z) in *.
  specialize (Hm1ge Hm).
  assert (G1 : ple (Zpos mB) eB m1 T /\ (0 < m1)%Z).
  { destruct (Z.le_gt_cases T eB) as [HTB|HTB].
    - assert (Hb1 : (ex <= eB)%Z) by lia. assert (Hb2 : (ex <= ex)%Z) by lia.
      apply (proj1 (ple_base ex _ _ _ _ Hb1 Hb2)) in Hple.
      rewrite Z.sub_diag, Z.pow_0_r, Z.mul_1_r in Hple.
      rewrite (pow2_split eB T ex) in Hple by lia.
      pose proof (pow2_pos (T - ex) ltac:(lia)) as HN.
      pose proof (pow2_pos (eB - T) ltac:(lia)) as HK.
      assert (Hq : (Zpos mB * 2 ^ (eB - T) <= m1)%Z).
      { apply Z.div_le_lower_bound; lia. }
      split; [|nia].
      assert (Hc1 : (T <= eB)%Z) by lia. assert (Hc2 : (T <= T)%Z) by lia.
      apply (proj2 (ple_base T _ _ _ _ Hc1 Hc2)).
      rewrite Z.sub_diag, Z.pow_0_r. lia.
    - specialize (Hm1ge ltac:(lia)).
      pose proof (pow2_pos (prec - 1) ltac:(lia)) as Hpp.
      split; [|lia].
      assert (Hc1 : (eB <= eB)%Z) by lia. assert (Hc2 : (eB <= T)%Z) by lia.
      apply (proj2 (ple_base eB _ _ _ _ Hc1 Hc2)).
      rewrite Z.sub_diag, Z.pow_0_r.
      assert (H2 : (2 ^ 1 <= 2 ^ (T - eB))%Z) by (apply Z.pow_le_mono_r; lia).
      change (2 ^ 1)%Z with 2%Z in H2.
      assert (H3 : (2 ^ prec = 2 ^ (prec - 1) * 2)%Z).
      { reflexivity. }
      nia. }
  destruct G1 as [G1 Hm1pos].
  destruct (second_shift m2 T HTmin ltac:(lia)) as (Hn2 & Hm3 & Hm3lt & _).
  set (n2 := shift_amount m2 T) in *.
  set (m3 := (m2 / 2 ^ n2)%Z) in *.
  pose proof (pow2_pos n2 ltac:(lia)) as Hp2.
  assert (Hm3pos : (0 < m3)%Z) by nia.
  assert (G2 : ple (Zpos mB) eB m3 (T + n2)).
  { apply (ple_trans _ _ m2 T); [apply (ple_weaken_r _ _ m1); [lia|exact G1]|].
    assert (Hc1 : (T <= T)%Z) by lia. assert (Hc2 : (T <= T + n2)%Z) by lia.
    apply (proj2 (ple_base T _ _ _ _ Hc1 Hc2)).
    rewrite Z.sub_diag, Z.pow_0_r.
    replace (T + n2 - T)%Z with n2 by lia. lia. }
  unfold assemble. destruct m3 as [|p|p] eqn:E3; try lia.
  destruct (Z.leb_spec (T + n2) (emax - prec)); [|reflexivity].
  split; [reflexivity|exact G2].
Qed.

(** ** Bounds through [binary_round] *)

Lemma shl_align_value (m : positive) (e : Z) (mz : positive) (ez : Z) :
  shl_align m e (fexp prec emax (Zpos (digits2_pos m) + e)) = (mz, ez) ->
  (ez <= e)%Z /\ Zpos mz = (Zpos m * 2 ^ (e - ez))%Z /\
  (ez <= fexp prec emax (Zdigits2 (Zpos mz) + ez))%Z.
Proof.
  intros E.
  destruct (shl_align_fexp m e mz ez E) as [Hez Hdig].
  pose proof (shl_align_spec m e (fexp prec emax (Zpos (digits2_pos m) + e))) as H.
  rewrite E in H. destruct H as [_ Hmz].
  rewrite Hdig. repeat split; lia.
Qed.

Lemma binary_round_le_bound (s : bool) (m : positive) (e : Z)
      (mB : positive) (eB : Z) :
  valid_binary (S754_finite false mB eB) = true ->
  ple (Zpos m) e (Zpos mB) eB ->
  match binary_round prec emax s m e with
  | S754_zero s' => s' = s
  | S754_finite s' m' e' => s' = s /\ ple (Zpos m') e' (Zpos mB) eB
  | _ => False
  end.
Proof.
  intros VB Hple. unfold binary_round.
  destruct (shl_align m e _) as [mz ez] eqn:E.
  destruct (shl_align_value m e mz ez E) as (Hez & Hmz & Hd).
  apply round_le_bound; try assumption; [lia|].
  simpl loc_excess. rewrite Z.add_0_r.
  apply (ple_trans _ _ (Zpos m) e); [|exact Hple].
  assert (Hc1 : (ez <= ez)%Z) by lia.
  apply (proj2 (ple_base ez _ _ _ _ Hc1 Hez)).
  rewrite Z.sub_diag, Z.pow_0_r. lia.
Qed.

Lemma binary_round_ge_bound (s : bool) (m : positive) (e : Z)
      (mB : positive) (eB : Z) :
  valid_binary (S754_finite false mB eB) = true ->
  ple (Zpos mB) eB (Zpos m) e ->
  match binary_round prec emax s m e with
  | S754_infinity s' => s' = s
  | S754_finite s' m' e' => s' = s /\ ple (Zpos mB) eB (Zpos m') e'
  | _ => False
  end.
Proof.
  intros VB Hple. unfold binary_round.
  destruct (shl_align m e _) as [mz ez] eqn:E.
  destruct (shl_align_value m e mz ez E) as (Hez & Hmz & Hd).
  apply round_ge_bound; try assumption; [lia|].
  apply (ple_trans _ _ (Zpos m) e); [exact Hple|].
  assert (Hc1 : (ez <= ez)%Z) by lia.
  apply (proj2 (ple_base ez _ _ _ _ Hez Hc1)).
  rewrite Z.sub_diag, Z.pow_0_r. lia.
Qed.

(** ** Order of valid floats *)

Lemma valid_ple_compare (m : positive) (e : Z) (m' : positive) (e' : Z) :
  valid_binary (S754_finite false m e) = true ->
  valid_binary (S754_finite false m' e') = true ->
  ple (Zpos m) e (Zpos m') e' ->
  (e < e')%Z \/ (e = e' /\ (Zpos m <= Zpos m')%Z).
Proof.
  intros V V' H.
  assert (Hprec : prec = 53%Z) by reflexivity.
  destruct (Z.lt_trichotomy e e') as [Hlt|[Heq|Hgt]]; [now left| |].
  - right. split; [exact Heq|]. subst e'. unfold ple in H.
    rewrite Z.min_id, Z.sub_diag, Z.pow_0_r in H. lia.
  - exfalso.
    pose proof (valid_exponent _ _ _ V') as He'.
    pose proof (valid_normal _ _ _ V ltac:(lia)) as Hd.
    destruct (valid_digits _ _ _ V') as [Hd' _].
    pose proof (ple_magnitude (Zpos m) e (Zpos m') e' ltac:(lia) ltac:(lia) H). lia.
Qed.

(** For two negative floats the order is that of the magnitudes, reversed. *)
Lemma mag_le_leb_neg (x y : spec_float) :
  valid_binary x = true -> valid_binary y = true ->
  finite_signed true x -> finite_signed true y ->
  mag_le x y -> SFleb y x = true.
Proof.
  destruct x as [sx|sx| |sx m e], y as [sy|sy| |sy m' e'];
    simpl; intros Vx Vy Sx Sy H; try contradiction; subst; try reflexivity.
  destruct (valid_ple_compare m e m' e' Vx Vy H) as [Hlt|[-> Hle]];
    unfold SFleb, SFcompare.
  - now rewrite (proj2 (Z.compare_gt_iff e' e) Hlt).
  - rewrite Z.compare_refl.
    change (Pos.compare_cont Eq m' m) with (Pos.compare m' m).
    destruct (Pos.compare_spec m' m); try reflexivity. lia.
Qed.

(** ** The difference of two floats against the sum of their magnitudes *)

Lemma SFabs_assemble (s : bool) (m e : Z) :
  (0 <= m)%Z -> SFabs (assemble s m e) = assemble false m e.
Proof.
  intros H. unfold assemble. destruct m as [|p|p]; try lia; [reflexivity|].
  destruct (e <=? emax - prec)%Z; reflexivity.
Qed.

Lemma SFabs_binary_round_aux (s : bool) (mx ex : Z) (lx : location) :
  (0 <= mx)%Z ->
  SFabs (binary_round_aux prec emax s mx ex lx)
  = binary_round_aux prec emax false mx ex lx.
Proof.
  intros H. rewrite !binary_round_aux_steps by assumption.
  apply SFabs_assemble.
  apply Z.div_pos; [|apply pow2_pos, shift_amount_nonneg].
  pose proof (rounded_mantissa_bounds mx ex lx H) as [[Hlo _] _].
  assert (0 <= mx / 2 ^ shift_amount mx ex)%Z
    by (apply Z.div_pos; [lia|apply pow2_pos, shift_amount_nonneg]).
  lia.
Qed.

Lemma SFabs_binary_normalize (m e : Z) (sz : bool) :
  SFabs (binary_normalize prec emax m e sz)
  = binary_normalize prec emax (Z.abs m) e false.
Proof.
  destruct m as [|p|p]; simpl; try reflexivity;
    unfold binary_round; destruct (shl_align p e _) as [mz ez];
    apply SFabs_binary_round_aux; lia.
Qed.

(** The aligned mantissa of an operand of an addition. *)
Lemma aligned_value (m : positive) (e ez : Z) :
  (ez <= e)%Z ->
  Zpos (fst (shl_align m e ez)) = (Zpos m * 2 ^ (e - ez))%Z.
Proof.
  intros H. pose proof (shl_align_spec m e ez) as Hs.
  destruct (shl_align m e ez) as [mz ez']. destruct Hs as [Hez Hmz].
  cbn [fst]. rewrite Hmz, Hez, Z.min_r by lia. reflexivity.
Qed.

Lemma ple_aligned (m e ez : Z) :
  (ez <= e)%Z -> ple (m * 2 ^ (e - ez)) ez m e /\ ple m e (m * 2 ^ (e - ez)) ez.
Proof.
  intros H. assert (Hc : (ez <= ez)%Z) by lia. split.
  - apply (proj2 (ple_base ez _ _ _ _ Hc H)). rewrite Z.sub_diag, Z.pow_0_r. lia.
  - apply (proj2 (ple_base ez _ _ _ _ H Hc)). rewrite Z.sub_diag, Z.pow_0_r. lia.
Qed.

(** Two roundings with a representable number between the exact values. *)
Lemma normalize_le (m1 m2 ez : Z) (mB : positive) (eB : Z) :
  (0 <= m1)%Z -> (0 < m2)%Z ->
  valid_binary (S754_finite false mB eB) = true ->
  ple m1 ez (Zpos mB) eB -> ple (Zpos mB) eB m2 ez ->
  let n := binary_normalize prec emax m1 ez false in
  let d := binary_normalize prec emax m2 ez false in
  SFfinite d -> finite_signed false n /\ mag_le n d.
Proof.
  intros H1 H2 VB Hn Hd n d Fd.
  destruct m2 as [|p2|p2]; try lia.
  pose proof (binary_round_ge_bound false p2 ez mB eB VB Hd) as Gd.
  unfold d, binary_normalize in *.
  destruct (binary_round prec emax false p2 ez) as [| | |sd md ed];
    try contradiction.
  destruct Gd as [-> Gd].
  destruct m1 as [|p1|p1]; try lia.
  - unfold n. simpl. auto.
  - pose proof (binary_round_le_bound false p1 ez mB eB VB Hn) as Gn.
    unfold n, binary_normalize.
    destruct (binary_round prec emax false p1 ez) as [sn| | |sn mn en];
      try contradiction.
    + simpl. auto.
    + destruct Gn as [-> Gn]. simpl. split; [reflexivity|].
      now apply (ple_trans _ _ (Zpos mB) eB).
Qed.

Lemma diff_le_sum (a b : spec_float) :
  valid_binary a = true -> valid_binary b = true ->
  SFfinite a -> SFfinite b -> ~ (SFzero a /\ SFzero b) ->
  let n := SFabs (SF64sub a b) in
  let d := SF64add (SFabs a) (SFabs b) in
  nonzero_number false d /\ (SFfinite d -> finite_signed false n /\ mag_le n d).
Proof.
  intros Va Vb Fa Fb Hnz n d.
  destruct a as [sa|sa| |sa ma ea], b as [sb|sb| |sb mb eb];
    try contradiction.
  - exfalso. apply Hnz. split; exact I.
  - unfold n, d. simpl. repeat split; apply ple_refl.
  - unfold n, d. simpl. repeat split; apply ple_refl.
  - pose proof (valid_exponent _ _ _ Va) as Hea.
    pose proof (valid_exponent _ _ _ Vb) as Heb.
    set (ez := Z.min ea eb).
    assert (HA : Zpos (fst (shl_align ma ea ez)) = (Zpos ma * 2 ^ (ea - ez))%Z)
      by (apply aligned_value; lia).
    assert (HB : Zpos (fst (shl_align mb eb ez)) = (Zpos mb * 2 ^ (eb - ez))%Z)
      by (apply aligned_value; lia).
    assert (Hn : n = binary_normalize prec emax
                       (Z.abs (cond_Zopp sa (Zpos (fst (shl_align ma ea ez)))
                               - cond_Zopp sb (Zpos (fst (shl_align mb eb ez)))))
                       ez false)
      by (unfold n, SF64sub, SFsub; fold ez; apply SFabs_binary_normalize).
    assert (Hd : d = binary_normalize prec emax
                       (Zpos (fst (shl_align ma ea ez)) + Zpos (fst (shl_align mb eb ez)))
                       ez false)
      by reflexivity.
    rewrite Hn, Hd. clear Hn Hd n d.
    set (A := Zpos (fst (shl_align ma ea ez))) in *.
    set (B := Zpos (fst (shl_align mb eb ez))) in *.
    assert (HApos : (0 < A)%Z) by (unfold A; lia).
    assert (HBpos : (0 < B)%Z) by (unfold B; lia).
    split.
    + destruct (A + B)%Z as [|p|p] eqn:E; try lia.
      simpl. apply binary_round_nonzero. unfold ez. lia.
    + intros Fd.
      destruct (ple_aligned (Zpos ma) ea ez ltac:(unfold ez; lia)) as [PA1 PA2].
      destruct (ple_aligned (Zpos mb) eb ez ltac:(unfold ez; lia)) as [PB1 PB2].
      rewrite <- HA in PA1, PA2. rewrite <- HB in PB1, PB2.
      assert (Hsame : forall M : Z,
                 (0 <= M)%Z -> (M <= A \/ M <= B)%Z -> (M <= A + B)%Z ->
                 finite_signed false (binary_normalize prec emax M ez false) /\
                 mag_le (binary_normalize prec emax M ez false)
                        (binary_normalize prec emax (A + B) ez false)).
      { intros M HM0 HM HMs.
        assert (Hez1 : (ez <= ea)%Z) by (unfold ez; lia).
        assert (Hez2 : (ez <= eb)%Z) by (unfold ez; lia).
        assert (Hezz : (ez <= ez)%Z) by lia.
        destruct (ple_total (Zpos mb) eb (Zpos ma) ea) as [Hle|Hle].
        - (* |b| <= |a| : the larger magnitude is that of a *)
          assert (HBA : (B <= A)%Z).
          { apply (proj1 (ple_base ez _ _ _ _ Hez2 Hez1)) in Hle.
            rewrite <- HA, <- HB in Hle. exact Hle. }
          apply (normalize_le M (A + B) ez ma ea); try assumption; try lia.
          + apply (ple_trans _ _ A ez); [|exact PA1].
            apply (proj2 (ple_base ez _ _ _ _ Hezz Hezz)). nia.
          + apply (ple_weaken_r _ _ A); [lia|exact PA2].
        - assert (HAB : (A <= B)%Z).
          { apply (proj1 (ple_base ez _ _ _ _ Hez1 Hez2)) in Hle.
            rewrite <- HA, <- HB in Hle. exact Hle. }
          apply (normalize_le M (A + B) ez mb eb); try assumption; try lia.
          + apply (ple_trans _ _ B ez); [|exact PB1].
            apply (proj2 (ple_base ez _ _ _ _ Hezz Hezz)). nia.
          + apply (ple_weaken_r _ _ B); [lia|exact PB2]. }
      assert (Hopp : finite_signed false (binary_normalize prec emax (A + B) ez false) /\
                     mag_le (binary_normalize prec emax (A + B) ez false)
                            (binary_normalize prec emax (A + B) ez false)).
      { destruct (binary_normalize prec emax (A + B) ez false) as [s|s| |s m e] eqn:E;
          try contradiction; simpl.
        - split; [|exact I].
          destruct (A + B)%Z as [|p|p] eqn:E'; try lia.
          pose proof (binary_round_signed false p ez) as Hs.
          simpl in E. rewrite E in Hs. exact Hs.
        - split; [|apply ple_refl].
          destruct (A + B)%Z as [|p|p] eqn:E'; try lia.
          pose proof (binary_round_signed false p ez) as Hs.
          simpl in E. rewrite E in Hs. exact Hs. }
      destruct sa, sb; cbn [cond_Zopp].
      * replace (Z.abs (- A - - B)) with (Z.abs (A - B)) by lia.
        apply Hsame; lia.
      * replace (Z.abs (- A - B)) with (A + B)%Z by lia. exact Hopp.
      * replace (Z.abs (A - - B)) with (A + B)%Z by lia. exact Hopp.
      * apply Hsame; lia.
Qed.

(** ** A quotient of [n <= d] is at most one *)

Lemma SFdiv_core_spec (m1 m2 : positive) (e1 e2 : Z) :
  let '(q, e', l) := SFdiv_core_binary prec emax (Zpos m1) e1 (Zpos m2) e2 in
  exists r,
    (0 <= r < Zpos m2)%Z /\ (0 <= q)%Z /\
    e' = Z.min (fexp prec emax (Zdigits2 (Zpos m1) + e1 - (Zdigits2 (Zpos m2) + e2)))
               (e1 - e2) /\
    (Zpos m1 * 2 ^ (e1 - e2 - e') = Zpos m2 * q + r)%Z /\
    loc_excess l = (if (r =? 0)%Z then 0 else 1)%Z.
Proof.
  unfold SFdiv_core_binary.
  set (e' := Z.min _ _). set (s := (e1 - e2 - e')%Z).
  assert (Hs : (0 <= s)%Z) by (unfold s, e'; lia).
  set (m' := match s with
             | Zpos _ => Z.shiftl (Zpos m1) s
             | Z0 => Zpos m1
             | Zneg _ => 0%Z
             end).
  assert (Hm' : m' = (Zpos m1 * 2 ^ s)%Z).
  { unfold m'. destruct s as [|p|p] eqn:E; try lia.
    apply Z.shiftl_mul_pow2. lia. }
  pose proof (Z_div_mod m' (Zpos m2) ltac:(lia)) as Hdm.
  destruct (Z.div_eucl m' (Zpos m2)) as [q r]. destruct Hdm as [Hq Hr].
  exists r. split; [exact Hr|]. split; [|split; [reflexivity|split]].
  - pose proof (pow2_pos s Hs). nia.
  - fold s. lia.
  - unfold new_location, new_location_even, new_location_odd.
    destruct (Z.even (Zpos m2)); destruct (r =? 0)%Z; reflexivity.
Qed.

Lemma div_le_one (n d : spec_float) :
  valid_binary n = true -> valid_binary d = true ->
  finite_signed false n -> nonzero_number false d -> SFfinite d ->
  mag_le n d ->
  finite_signed false (SF64div n d) /\ mag_le (SF64div n d) SFone64.
Proof.
  intros Vn Vd Sn Sd Fd Hle.
  assert (Hprec : prec = 53%Z) by reflexivity.
  assert (Hemax : emax = 1024%Z) by reflexivity.
  assert (Hemin : emin = (-1074)%Z) by reflexivity.
  destruct d as [sd|sd| |sd md ed]; try contradiction. simpl in Sd. subst sd.
  destruct n as [sn|sn| |sn mn en]; try contradiction; simpl in Sn; subst sn.
  - simpl. auto.
  - simpl in Hle.
    unfold SF64div, SFdiv. cbn [xorb].
    pose proof (SFdiv_core_spec mn md en ed) as Hc.
    destruct (SFdiv_core_binary prec emax (Zpos mn) en (Zpos md) ed) as [[q e'] l].
    destruct Hc as (r & Hr & Hq & He' & Hdiv & Hl).
    set (d1 := Zdigits2 (Zpos mn)) in *. set (d2 := Zdigits2 (Zpos md)) in *.
    pose proof (ple_magnitude _ _ _ _ (Pos2Z.is_pos mn) (Pos2Z.is_pos md) Hle) as Hmag.
    fold d1 d2 in Hmag.
    pose proof (Zdigits2_bounds (Zpos mn) ltac:(lia)) as [Hmnlo Hmnhi].
    pose proof (Zdigits2_bounds (Zpos md) ltac:(lia)) as [Hmdlo Hmdhi].
    fold d1 in Hmnlo, Hmnhi. fold d2 in Hmdlo, Hmdhi.
    pose proof (Zdigits2_pos (Zpos mn) ltac:(lia)) as Hd1. fold d1 in Hd1.
    pose proof (Zdigits2_pos (Zpos md) ltac:(lia)) as Hd2. fold d2 in Hd2.
    set (s := (en - ed - e')%Z) in *.
    assert (Hs : (0 <= s)%Z) by (unfold s; lia).
    assert (He'neg : (e' <= -53)%Z) by (unfold fexp in He'; lia).
    pose proof (pow2_pos s Hs) as Hps.
    (* the quotient has enough digits, or the exponent is the least one *)
    assert (Hdig : (e' <= fexp prec emax (Zdigits2 q + e'))%Z).
    { destruct (Z.le_gt_cases d2 (d1 - 1 + s)) as [Ht|Ht].
      - set (t := (d1 - 1 + s - d2)%Z).
        assert (Hq2 : (2 ^ t <= q)%Z).
        { pose proof (pow2_pos t ltac:(unfold t; lia)) as Hpt.
          assert (H1 : (2 ^ d2 * 2 ^ t = 2 ^ (d1 - 1) * 2 ^ s)%Z).
          { rewrite <- !Z.pow_add_r by (unfold t; lia). f_equal. unfold t. lia. }
          assert (H2 : (2 ^ (d1 - 1) * 2 ^ s <= Zpos mn * 2 ^ s)%Z)
            by (apply Z.mul_le_mono_nonneg_r; lia).
          assert (H3 : (Zpos md * 2 ^ t < 2 ^ d2 * 2 ^ t)%Z)
            by (apply Z.mul_lt_mono_pos_r; lia).
          nia. }
        pose proof (Zdigits2_gt q t ltac:(unfold t; lia) Hq2) as Hdq.
        assert (Hm2 : (d1 + en - (d2 + ed) <= Zdigits2 q + e')%Z)
          by (unfold t, s in *; lia).
        apply fexp_mono in Hm2. lia.
      - pose proof (fexp_ge_emin (Zdigits2 q + e')).
        unfold fexp in He'. unfold s in Ht. lia. }
    (* the exact quotient is at most one *)
    assert (Hone : ple (q + loc_excess l) e' 4503599627370496 (-52)).
    { assert (Hc1 : (e' <= e')%Z) by lia. assert (Hc2 : (e' <= -52)%Z) by lia.
      apply (proj2 (ple_base e' _ _ _ _ Hc1 Hc2)).
      rewrite Z.sub_diag, Z.pow_0_r, Z.mul_1_r.
      change 4503599627370496%Z with (2 ^ 52)%Z.
      rewrite <- Z.pow_add_r by lia.
      replace (52 + (-52 - e'))%Z with (- e')%Z by lia.
      set (b0 := Z.min en ed).
      assert (Hb1 : (b0 <= en)%Z) by (unfold b0; lia).
      assert (Hb2 : (b0 <= ed)%Z) by (unfold b0; lia).
      apply (proj1 (ple_base b0 _ _ _ _ Hb1 Hb2)) in Hle.
      set (t := (- e' - (ed - b0))%Z).
      assert (Ht : (0 <= t)%Z) by (unfold t, b0, s in *; lia).
      pose proof (pow2_pos t Ht) as Hpt.
      assert (H1 : (2 ^ s = 2 ^ (en - b0) * 2 ^ t)%Z).
      { rewrite <- Z.pow_add_r by (unfold t; lia). f_equal. unfold t, s. lia. }
      assert (H2 : (2 ^ (- e') = 2 ^ (ed - b0) * 2 ^ t)%Z).
      { rewrite <- Z.pow_add_r by (unfold t; lia). f_equal. unfold t. lia. }
      assert (H3 : (Zpos mn * 2 ^ s <= Zpos md * 2 ^ (- e'))%Z).
      { rewrite H1, H2, !Z.mul_assoc. apply Z.mul_le_mono_nonneg_r; lia. }
      pose proof (pow2_pos (- e') ltac:(lia)) as Hpe.
      rewrite Hl. destruct (Z.eqb_spec r 0); nia. }
    pose proof (round_le_bound false q e' l 4503599627370496 (-52) Hq Hdig
                  eq_refl Hone) as G.
    destruct (binary_round_aux prec emax false q e' l) as [sr| | |sr mr er];
      try contradiction.
    + subst sr. simpl. auto.
    + destruct G as [-> G]. simpl. auto.
Qed.

(** ** Integers as floats, and sums of numbers at most one *)

Lemma binary_round_aux_canonical (s : bool) (m : positive) (e : Z) :
  fexp prec emax (Zdigits2 (Zpos m) + e) = e -> (e <= emax - prec)%Z ->
  binary_round_aux prec emax s (Zpos m) e loc_Exact = S754_finite s m e.
Proof.
  intros Hc He.
  rewrite binary_round_aux_steps by lia.
  pose proof (rounded_mantissa_bounds (Zpos m) e loc_Exact ltac:(lia)) as [_ Hex].
  assert (Hsa : shift_amount (Zpos m) e = 0%Z) by (unfold shift_amount; lia).
  rewrite Hsa in *. rewrite Z.pow_0_r, Z.div_1_r in Hex.
  rewrite (Hex eq_refl (Z.mod_1_r _)), Z.add_0_r, Hsa.
  rewrite Z.pow_0_r, Z.div_1_r, Z.add_0_r.
  now apply (assemble_pos s (Zpos m) e).
Qed.

Lemma float_of_nat_value (n : nat) :
  (0 < n)%nat -> (Z.of_nat n < 2 ^ 53)%Z ->
  exists m e,
    Prim2SF (float_of_nat n) = S754_finite false m e /\
    ple (Zpos m) e (Z.of_nat n) 0 /\ ple (Z.of_nat n) 0 (Zpos m) e.
Proof.
  intros Hn Hlt.
  assert (Hprec : prec = 53%Z) by reflexivity.
  assert (Hemax : emax = 1024%Z) by reflexivity.
  assert (Hemin : emin = (-1074)%Z) by reflexivity.
  rewrite float_of_nat_spec by lia.
  destruct (Z.of_nat n) as [|p|p] eqn:E; try lia.
  cbn [binary_normalize]. unfold binary_round.
  destruct (shl_align p 0 _) as [mz ez] eqn:Eal.
  destruct (shl_align_value p 0 mz ez Eal) as (Hez & Hmz & _).
  destruct (shl_align_fexp p 0 mz ez Eal) as [Hez2 Hdig].
  assert (Hdp : (Zdigits2 (Zpos p) <= 53)%Z)
    by (apply Zdigits2_le; lia).
  pose proof (Zdigits2_pos (Zpos p) ltac:(lia)) as Hdpos.
  change (Zpos (digits2_pos p)) with (Zdigits2 (Zpos p)) in *.
  assert (Hfe : fexp prec emax (Zdigits2 (Zpos p) + 0) = (Zdigits2 (Zpos p) - prec)%Z)
    by (unfold fexp; lia).
  rewrite Hfe in Hez2.
  exists mz, ez. split.
  - apply binary_round_aux_canonical; [|lia].
    rewrite Hdig, Hfe. lia.
  - rewrite Hmz. apply ple_aligned. lia.
Qed.

Lemma one_le_succ (j : Z) :
  (0 <= j)%Z -> ple 4503599627370496 (-52) (j + 1) 0.
Proof.
  intros Hj. unfold ple. rewrite Z.min_l by lia.
  change (2 ^ (-52 - -52))%Z with 1%Z.
  change (2 ^ (0 - -52))%Z with 4503599627370496%Z. lia.
Qed.

(** A valid float that is at most an integer below [2^53] has no positive
    exponent. *)
Lemma val_le_exponent (s : bool) (m : positive) (e j : Z) :
  valid_binary (S754_finite s m e) = true ->
  ple (Zpos m) e j 0 -> (j < 2 ^ 53)%Z -> (e <= 0)%Z.
Proof.
  intros V H Hj.
  destruct (Z.le_gt_cases e 0) as [|He]; [assumption|exfalso].
  assert (Hemin : emin = (-1074)%Z) by reflexivity.
  assert (Hprec : prec = 53%Z) by reflexivity.
  pose proof (valid_normal s m e V ltac:(lia)) as Hd.
  pose proof (Zdigits2_bounds (Zpos m) ltac:(lia)) as [Hlo _].
  rewrite Hd, Hprec in Hlo. change (2 ^ (53 - 1))%Z with (2 ^ 52)%Z in Hlo.
  unfold ple in H. rewrite Z.min_r in H by lia.
  rewrite Z.sub_diag, Z.pow_0_r, Z.sub_0_r in H.
  assert (H2 : (2 ^ 1 <= 2 ^ e)%Z) by (apply Z.pow_le_mono_r; lia).
  change (2 ^ 1)%Z with 2%Z in H2.
  change (2 ^ 53)%Z with (2 * 2 ^ 52)%Z in Hj.
  nia.
Qed.

Lemma val_le_nat_positive (s : bool) (m : positive) (e j : Z) :
  ple (Zpos m) e j 0 -> (0 < j)%Z.
Proof.
  unfold ple. intros H.
  destruct (Z.le_gt_cases j 0) as [Hj|]; [exfalso|assumption].
  pose proof (pow2_pos (e - Z.min e 0) ltac:(lia)).
  pose proof (pow2_pos (0 - Z.min e 0) ltac:(lia)).
  nia.
Qed.

Lemma val_le_nat_weaken (x : spec_float) (j j' : Z) :
  (j <= j')%Z -> val_le_nat x j -> val_le_nat x j'.
Proof.
  intros Hj. destruct x as [s|s| |s m e]; simpl; try tauto.
  now apply ple_weaken_r.
Qed.

(** The sum of two non-negative floats that are at most [j] and at most
    [k] is at most [j + k], as long as [j + k] is below [2^53]. *)
Lemma add_le_add (s r : spec_float) (j k : Z) :
  valid_binary s = true -> valid_binary r = true ->
  finite_signed false s -> finite_signed false r ->
  (0 <= j)%Z -> (0 <= k)%Z -> (j + k < 2 ^ 53)%Z ->
  val_le_nat s j -> val_le_nat r k ->
  finite_signed false (SF64add s r) /\ val_le_nat (SF64add s r) (j + k).
Proof.
  intros Vs Vr Ss Sr Hj Hk Hjk Hs Hr.
  destruct s as [ss|ss| |ss ms es], r as [sr|sr| |sr mr er];
    try contradiction; simpl in Ss, Sr; subst.
  - simpl. auto.
  - simpl in *. split; [reflexivity|].
    apply (ple_weaken_r _ _ k); [lia|exact Hr].
  - simpl in *. split; [reflexivity|].
    apply (ple_weaken_r _ _ j); [lia|exact Hs].
  - simpl in Hr, Hs.
    pose proof (val_le_nat_positive false ms es j Hs) as Hj0.
    pose proof (val_le_nat_positive false mr er k Hr) as Hk0.
    destruct (float_of_nat_value (Z.to_nat (j + k)) ltac:(lia) ltac:(lia))
      as (mz & ez' & Hf & Hv1 & Hv2).
    rewrite Z2Nat.id in Hv1, Hv2 by lia.
    pose proof (Prim2SF_valid (float_of_nat (Z.to_nat (j + k)))) as Vf.
    rewrite Hf in Vf.
    pose proof (valid_exponent _ _ _ Vs) as Hes.
    pose proof (valid_exponent _ _ _ Vr) as Her.
    pose proof (val_le_exponent false ms es j Vs Hs ltac:(lia)) as Hes0.
    pose proof (val_le_exponent false mr er k Vr Hr ltac:(lia)) as Her0.
    unfold SF64add, SFadd; cbn [cond_Zopp].
    set (ez := Z.min es er).
    rewrite !aligned_value by (unfold ez; lia).
    set (A := (Zpos ms * 2 ^ (es - ez))%Z).
    set (B := (Zpos mr * 2 ^ (er - ez))%Z).
    assert (Hez1 : (ez <= es)%Z) by (unfold ez; lia).
    assert (Hez2 : (ez <= er)%Z) by (unfold ez; lia).
    assert (Hez0 : (ez <= 0)%Z) by (unfold ez; lia).
    assert (Hezz : (ez <= ez)%Z) by lia.
    pose proof (pow2_pos (es - ez) ltac:(lia)) as HpA.
    pose proof (pow2_pos (er - ez) ltac:(lia)) as HpB.
    assert (HA : (A <= j * 2 ^ (0 - ez))%Z)
      by (apply (proj1 (ple_base ez _ _ _ _ Hez1 Hez0)) in Hs; exact Hs).
    assert (HB : (B <= k * 2 ^ (0 - ez))%Z)
      by (apply (proj1 (ple_base ez _ _ _ _ Hez2 Hez0)) in Hr; exact Hr).
    assert (Hsum : ple (A + B) ez (Zpos mz) ez').
    { apply (ple_trans _ _ (j + k) 0); [|exact Hv2].
      apply (proj2 (ple_base ez _ _ _ _ Hezz Hez0)).
      rewrite Z.sub_diag, Z.pow_0_r. lia. }
    destruct (A + B)%Z as [|p|p] eqn:E; try (unfold A, B in E; lia).
    cbn [binary_normalize].
    pose proof (binary_round_le_bound false p ez mz ez' Vf Hsum) as G.
    destruct (binary_round prec emax false p ez) as [sq| | |sq mq eq];
      try contradiction.
    + subst sq; simpl; auto.
    + destruct G as [-> G]; simpl; split; [reflexivity|].
      now apply (ple_trans _ _ (Zpos mz) ez').
Qed.

(** ** The last product, [-2 * mean] *)

Lemma mul_neg2_bounds (m : spec_float) :
  valid_binary m = true -> finite_signed false m -> mag_le m SFone64 ->
  finite_signed true (SF64mul SFminus_two m) /\
  mag_le (SF64mul SFminus_two m) SFminus_two.
Proof.
  intros Vm Sm Hm.
  assert (Hprec : prec = 53%Z) by reflexivity.
  destruct m as [s|s| |s mm em]; try contradiction; simpl in Sm; subst s.
  - simpl. auto.
  - simpl in Hm.
    assert (Hem : (em <= -52)%Z)
      by (destruct (valid_ple_compare mm em 4503599627370496 (-52) Vm eq_refl Hm)
           as [Hem|[Hem _]]; lia).
    destruct (valid_canonical _ _ _ Vm) as [Hc _].
    unfold SF64mul, SFminus_two, SFmul; cbn [xorb].
    set (mx := Zpos (4503599627370496 * mm)).
    assert (Hmx : mx = (Zpos mm * 2 ^ 52)%Z) by (unfold mx; lia).
    assert (Hdx : Zdigits2 mx = (Zdigits2 (Zpos mm) + 52)%Z)
      by (rewrite Hmx; apply Zdigits2_mul_pow2; lia).
    assert (Hd : (-51 + em <= fexp prec emax (Zdigits2 mx + (-51 + em)))%Z)
      by (rewrite Hdx; unfold fexp in *; lia).
    assert (Hple : ple (mx + loc_excess loc_Exact) (-51 + em) 4503599627370496 (-51)).
    { simpl loc_excess. rewrite Z.add_0_r.
      assert (Hc1 : (-51 + em <= -51 + em)%Z) by lia.
      assert (Hc2 : (-51 + em <= -51)%Z) by lia.
      apply (proj2 (ple_base (-51 + em) _ _ _ _ Hc1 Hc2)).
      assert (Hc3 : (em <= em)%Z) by lia.
      apply (proj1 (ple_base em _ _ _ _ Hc3 Hem)) in Hm.
      rewrite Z.sub_diag, Z.pow_0_r, Z.mul_1_r in *.
      replace (-51 - (-51 + em))%Z with (52 + (-52 - em))%Z by lia.
      rewrite Z.pow_add_r by lia.
      rewrite Hmx. change (2 ^ 52)%Z with 4503599627370496%Z. lia. }
    pose proof (round_le_bound true mx (-51 + em) loc_Exact 4503599627370496 (-51)
                  ltac:(unfold mx; lia) Hd eq_refl Hple) as G.
    destruct (binary_round_aux prec emax true mx (-51 + em) loc_Exact)
      as [sr| | |sr mr er]; try contradiction.
    + subst sr. simpl. auto.
    + destruct G as [-> G]. simpl. auto.
Qed.

Lemma leb_zero_of_negative (r : spec_float) :
  finite_signed true r -> SFleb r (S754_zero false) = true.
Proof.
  destruct r as [s|s| |s m e]; simpl; intros H; try contradiction;
    subst; reflexivity.
Qed.

(** ** Every ratio lies between zero and one, or is NaN *)

Lemma finite_SF (x : float) :
  PrimFloat.is_finite x = true -> SFfinite (Prim2SF x).
Proof.
  intros H. apply is_finite_spec in H as [[s ->]|(s & m & e & ->)]; exact I.
Qed.

Lemma finite_signed_not_nan (x : float) (s : bool) :
  finite_signed s (Prim2SF x) -> PrimFloat.is_nan x = false.
Proof.
  intros H. destruct (PrimFloat.is_nan x) eqn:E; [|reflexivity].
  apply is_nan_spec in E. rewrite E in H. contradiction.
Qed.

Lemma smape_ratio_bounded (t p : float) :
  PrimFloat.is_finite t = true -> PrimFloat.is_finite p = true ->
  ~ both_zero (t, p) ->
  ratio_ok (smape_ratio t p) /\
  (PrimFloat.is_finite (t - p) = true ->
   PrimFloat.is_nan (smape_ratio t p) = false).
Proof.
  intros Ht Hp Hnz.
  pose proof (diff_le_sum (Prim2SF t) (Prim2SF p) (Prim2SF_valid t) (Prim2SF_valid p)
                (finite_SF t Ht) (finite_SF p Hp)) as H.
  assert (Hnz' : ~ (SFzero (Prim2SF t) /\ SFzero (Prim2SF p))).
  { intros [Zt Zp]. apply Hnz. split; cbn [fst snd]; apply is_zero_spec.
    - destruct (Prim2SF t) as [s| | |]; try contradiction. now exists s.
    - destruct (Prim2SF p) as [s| | |]; try contradiction. now exists s. }
  specialize (H Hnz'). cbv zeta in H. destruct H as [Hd Hnd].
  pose proof (Prim2SF_valid (PrimFloat.abs (t - p))) as Vn.
  pose proof (Prim2SF_valid (PrimFloat.abs t + PrimFloat.abs p)) as Vd.
  rewrite abs_spec, sub_spec in Vn. rewrite add_spec, !abs_spec in Vd.
  assert (Hx : Prim2SF (smape_ratio t p)
               = SF64div (SFabs (SF64sub (Prim2SF t) (Prim2SF p)))
                         (SF64add (SFabs (Prim2SF t)) (SFabs (Prim2SF p)))).
  { unfold smape_ratio. now rewrite div_spec, add_spec, !abs_spec, sub_spec. }
  assert (Hfin : PrimFloat.is_finite (t - p) = true ->
                 SFfinite (SF64sub (Prim2SF t) (Prim2SF p))).
  { intros F. apply finite_SF in F. now rewrite sub_spec in F. }
  set (y := SF64sub (Prim2SF t) (Prim2SF p)) in *.
  set (d := SF64add (SFabs (Prim2SF t)) (SFabs (Prim2SF p))) in *.
  destruct d as [sd|sd| |sd md ed] eqn:Ed; try contradiction.
  - (* the sum of the magnitudes overflowed *)
    simpl in Hd. subst sd.
    destruct y as [sy|sy| |sy my ey] eqn:Ey.
    + split.
      * right. rewrite Hx. simpl. auto.
      * intros _. apply (finite_signed_not_nan _ false). rewrite Hx. reflexivity.
    + split.
      * left. apply is_nan_spec. rewrite Hx. reflexivity.
      * intros F. specialize (Hfin F). contradiction.
    + split.
      * left. apply is_nan_spec. rewrite Hx. reflexivity.
      * intros F. specialize (Hfin F). contradiction.
    + split.
      * right. rewrite Hx. simpl. auto.
      * intros _. apply (finite_signed_not_nan _ false). rewrite Hx. reflexivity.
  - destruct (Hnd I) as [Sn Hle].
    pose proof (div_le_one (SFabs y) (S754_finite sd md ed) Vn Vd Sn Hd I Hle)
      as [Sq Hq].
    rewrite <- Hx in Sq, Hq. split.
    + right. split; assumption.
    + intros _. now apply (finite_signed_not_nan _ false).
Qed.

Lemma smape_ratios_bounded (y_true y_pred : Series) :
  all_finite y_true -> all_finite y_pred ->
  Forall (fun tp => ~ both_zero tp) (points y_true y_pred) ->
  Forall ratio_ok (smape_ratios y_true y_pred) /\
  (Exists (fun tp => PrimFloat.is_finite (fst tp - snd tp) = true)
          (points y_true y_pred) ->
   Exists (fun x => PrimFloat.is_nan x = false) (smape_ratios y_true y_pred)).
Proof.
  unfold all_finite, points, smape_ratios.
  generalize (values y_true) (values y_pred).
  intros a b Ha. revert b.
  induction Ha as [|t a Ht Ha IH]; intros b Hb Hnz; cbn [combine map].
  - split; [constructor|]. intros H. inversion H.
  - destruct Hb as [|p b Hp Hb]; cbn [combine map].
    + split; [constructor|]. intros H. inversion H.
    + inversion Hnz as [|tp l Hh Hl]; subst.
      destruct (smape_ratio_bounded t p Ht Hp Hh) as [Hok Hnn].
      destruct (IH b Hb Hl) as [IH1 IH2]. cbn [fst snd]. split.
      * constructor; assumption.
      * intros H. inversion H as [tp l Hf|tp l Hf]; subst.
        -- left. now apply Hnn.
        -- right. now apply IH2.
Qed.

(** ** The mean of ratios between zero and one *)

Lemma series_mean_unfold (a : list float) :
  series_mean a
  = match kept a with
    | [] => nan
    | _ :: _ => np_sum (filled a) / float_of_nat (length (kept a))
    end.
Proof. reflexivity. Qed.

(** The weight of a filled entry: zero for a zero, one for anything
    else. *)
Lemma filled_weight (a : list float) :
  (weight (fun x => if PrimFloat.is_zero x then 0 else 1)%nat (filled a)
   <= length (kept a))%nat.
Proof.
  unfold weight, filled, kept.
  induction a as [|x a IH]; cbn [map filter list_sum fold_right length];
    [lia|].
  destruct (PrimFloat.is_nan x); cbn [negb length].
  - change (PrimFloat.is_zero 0) with true. cbv iota.
    unfold list_sum in IH. lia.
  - unfold list_sum in IH.
    destruct (PrimFloat.is_zero x); lia.
Qed.

(** The sum of the filled ratios is at most the number of ratios that are
    not NaN, in whatever order the elements are added. *)
Lemma np_sum_filled_bound (a : list float) :
  Forall ratio_ok a ->
  (Z.of_nat (length (kept a)) < 2 ^ 53)%Z ->
  finite_signed false (Prim2SF (np_sum (filled a))) /\
  val_le_nat (Prim2SF (np_sum (filled a))) (Z.of_nat (length (kept a))).
Proof.
  intros Hall Hlen.
  set (w := fun x : float => (if PrimFloat.is_zero x then 0 else 1)%nat).
  pose proof (filled_weight a) as Hw. fold w in Hw.
  destruct (np_sum_weighted
              (fun j x => finite_signed false (Prim2SF x) /\
                          val_le_nat (Prim2SF x) (Z.of_nat j))
              w (length (kept a))) with (a := filled a) as [S V].
  - split; [reflexivity|exact I].
  - intros j k x y Hjk [Sx Vx] [Sy Vy].
    rewrite add_spec, Nat2Z.inj_add.
    apply add_le_add; try assumption; try apply Prim2SF_valid; lia.
  - unfold filled. apply Forall_map.
    apply (Forall_impl _ (P := ratio_ok)); [|exact Hall].
    intros x Hx. destruct (PrimFloat.is_nan x) eqn:En.
    + split; [reflexivity|exact I].
    + destruct Hx as [Hx|[Sx Hx1]]; [congruence|].
      split; [exact Sx|]. unfold w.
      destruct (Prim2SF x) as [sx|sx| |sx mx ex] eqn:E; try contradiction.
      * exact I.
      * assert (Hz : PrimFloat.is_zero x = false).
        { destruct (PrimFloat.is_zero x) eqn:F; [|reflexivity].
          apply is_zero_spec in F as [s' F]. congruence. }
        rewrite Hz. simpl in Hx1 |- *.
        apply (ple_trans _ _ 4503599627370496 (-52)); [exact Hx1|].
        apply (one_le_succ 0). lia.
  - exact Hw.
  - split; [exact S|].
    apply (val_le_nat_weaken _ (Z.of_nat (weight w (filled a)))); [lia|exact V].
Qed.

Lemma series_mean_bounded (a : list float) :
  Forall ratio_ok a ->
  Exists (fun x => PrimFloat.is_nan x = false) a ->
  (Z.of_nat (length a) < 2 ^ 53)%Z ->
  finite_signed false (Prim2SF (series_mean a)) /\
  mag_le (Prim2SF (series_mean a)) SFone64.
Proof.
  intros Hall Hex Hlen.
  pose proof (filter_length_le (fun x => negb (PrimFloat.is_nan x)) a) as Hk.
  fold (kept a) in Hk.
  assert (Hne : kept a <> []).
  { clear Hall Hlen Hk. unfold kept.
    induction Hex as [x a Hx|x a Hex IH]; cbn [filter].
    - rewrite Hx. discriminate.
    - destruct (negb (PrimFloat.is_nan x)); [discriminate|exact IH]. }
  pose proof (np_sum_filled_bound a Hall ltac:(lia)) as [Ssum Vsum].
  rewrite series_mean_unfold.
  destruct (kept a) as [|k ks] eqn:Ek; [congruence|].
  set (c := length (k :: ks)) in *.
  assert (Hc : (0 < c)%nat) by (unfold c; simpl; lia).
  destruct (float_of_nat_value c Hc ltac:(lia)) as (mz & ez & Hf & Hv1 & Hv2).
  pose proof (Prim2SF_valid (float_of_nat c)) as Vc.
  pose proof (Prim2SF_valid (np_sum (filled a))) as Vs.
  rewrite div_spec. rewrite Hf in *.
  apply div_le_one; try assumption; try exact I; try reflexivity.
  destruct (Prim2SF (np_sum (filled a))) as [s|s| |s m e]; try contradiction.
  - exact I.
  - simpl in *. now apply (ple_trans _ _ (Z.of_nat c) 0).
Qed.

Lemma smape_ratios_length (y_true y_pred : Series) :
  index y_true = index y_pred ->
  length (smape_ratios y_true y_pred) = length y_true.
Proof.
  intros Hidx. unfold smape_ratios. rewrite length_map, length_combine.
  pose proof (index_length y_true) as H1.
  pose proof (index_length y_pred) as H2.
  rewrite Hidx in H1.
  assert (length (values y_true) = length y_true)
    by (unfold values; apply length_map).
  lia.
Qed.

(** * The contract of the two scores *)

(** ** MASE *)

(** C1.  For a training series of [n_obs >= sp + 1] finite observations
    ([sp >= 1]) and finite, index-consistent [y_true] and [y_pred] that pass
    the horizon validation and the temporal-ordering check, [mase_score]
    returns [-mean(|y_true - y_pred|) / mean(|y_train[i] - y_train[i - sp]|)],
    the naive errors ranging over the positions [sp .. n_obs - 1], which are
    exactly [n_obs - sp] terms. *)
Theorem mase_score_formula (y_true y_pred y_train : Series) (sp : Z) :
  (1 <= sp)%Z ->
  (sp + 1 <= Z.of_nat (length y_train))%Z ->
  indices_valid y_true y_pred y_train ->
  train_before_pred y_train y_pred ->
  all_finite y_true -> all_finite y_pred ->
  mase_score y_true y_pred y_train sp =
    Ok (- np_mean (abs_errors y_true y_pred)
        / np_mean (naive_abs_errors (values y_train) (Z.to_nat sp)))
  /\ length (naive_abs_errors (values y_train) (Z.to_nat sp))
     = (length y_train - Z.to_nat sp)%nat.
Proof.
  intros Hsp Hn Hvalid Hord Ht Hp. split.
  - rewrite mase_score_quotient by assumption.
    unfold mae_pred, mae_naive.
    now rewrite series_mean_no_nan by now apply abs_errors_no_nan.
  - assert (Hlen : length (values y_train) = length y_train)
      by (unfold values; apply length_map).
    unfold naive_abs_errors. rewrite length_map, length_seq. lia.
Qed.

Lemma mase_score_formula_witness :
  mase_score (series_from 5 [20; 22]) (series_from 5 [21; 21])
             (series_from 0 [10; 12; 14; 16; 18]) 1 = Ok (-0.5)
  /\ mase_score (series_from 5 [0x1p53; 1; 1; 1; 1; 1; 1; 1])
                (series_from 5 [0; 0; 0; 0; 0; 0; 0; 0])
                (series_from 0 [10; 12; 14]) 1
     = Ok (-0x1.0000000000003p+49).
Proof.
  split.
  - apply (proj1 (mase_score_formula (series_from 5 [20; 22]) (series_from 5 [21; 21])
                    (series_from 0 [10; 12; 14; 16; 18]) 1
                    ltac:(lia) ltac:(simpl; lia)
                    ltac:(repeat split)
                    (proj1 (ge_extrema_false (series_from 0 [10; 12; 14; 16; 18])
                                             (series_from 5 [21; 21])) eq_refl)
                    ltac:(repeat constructor) ltac:(repeat constructor))).
  - apply (proj1 (mase_score_formula
                    (series_from 5 [0x1p53; 1; 1; 1; 1; 1; 1; 1])
                    (series_from 5 [0; 0; 0; 0; 0; 0; 0; 0])
                    (series_from 0 [10; 12; 14]) 1
                    ltac:(lia) ltac:(simpl; lia)
                    ltac:(repeat split)
                    (proj1 (ge_extrema_false
                              (series_from 0 [10; 12; 14])
                              (series_from 5 [0; 0; 0; 0; 0; 0; 0; 0])) eq_refl)
                    ltac:(repeat constructor) ltac:(repeat constructor))).
Defined.

(** C10.  When [y_train] has [n_obs <= sp] observations and every index
    validation passes, no error is raised: both slices are empty, the mean
    of the empty array of naive errors is NaN, and the score is NaN. *)
Theorem mase_score_short_train (y_true y_pred y_train : Series) (sp : Z) :
  (Z.of_nat (length y_train) <= sp)%Z ->
  indices_valid y_true y_pred y_train ->
  train_before_pred y_train y_pred ->
  slice_from (values y_train) sp = [] /\
  slice_to (values y_train) (- sp) = [] /\
  np_mean (np_abs []) = nan /\
  mase_score y_true y_pred y_train sp = Ok nan.
Proof.
  intros Hn Hvalid Hord.
  assert (Hlen : length (values y_train) = length y_train)
    by (unfold values; apply length_map).
  assert (Hfrom : slice_from (values y_train) sp = []).
  { unfold slice_from, clamp_bound. rewrite Hlen.
    destruct (Z.ltb_spec sp 0); [lia|].
    rewrite Z.min_r, Nat2Z.id by lia.
    rewrite <- Hlen. apply skipn_all. }
  assert (Hto : slice_to (values y_train) (- sp) = []).
  { unfold slice_to, clamp_bound. rewrite Hlen.
    destruct (Z.ltb_spec (- sp) 0).
    - rewrite Z.max_l by lia. reflexivity.
    - rewrite Z.min_l by lia. replace (- sp)%Z with 0%Z by lia. reflexivity. }
  repeat split; try assumption.
  rewrite mase_score_validated, Hfrom, Hto by assumption.
  simpl. f_equal. apply div_nan_r.
Qed.

Lemma mase_score_short_train_witness :
  mase_score (series_from 5 [20; 22]) (series_from 5 [21; 21])
             (series_from 0 [10; 12]) 2 = Ok nan.
Proof.
  apply (mase_score_short_train (series_from 5 [20; 22]) (series_from 5 [21; 21])
           (series_from 0 [10; 12]) 2
           ltac:(simpl; lia) ltac:(repeat split)
           (proj1 (ge_extrema_false (series_from 0 [10; 12])
                                    (series_from 5 [21; 21])) eq_refl)).
Defined.

(** C9, as stated, fails: with a training series whose naive error is [1],
    a forecast error that overflows binary64 makes the score [-infinity],
    though [mae_naive] is not zero. *)
Lemma overflow_gives_infinite_score :
  ~ (forall (y_true y_pred y_train : Series) (sp : Z),
        (1 <= sp)%Z ->
        (sp + 1 <= Z.of_nat (length y_train))%Z ->
        indices_valid y_true y_pred y_train ->
        train_before_pred y_train y_pred ->
        all_finite y_true -> all_finite y_pred -> all_finite y_train ->
        PrimFloat.is_zero (mae_naive y_train sp) = false ->
        returns_finite (mase_score y_true y_pred y_train sp) = true).
Proof.
  intros H.
  specialize (H (series_from 2 [0x1.ep1023]) (series_from 2 [-0x1.ep1023])
                (series_from 0 [0; 1]) 1%Z
                ltac:(lia) ltac:(simpl; lia) ltac:(repeat split)
                (proj1 (ge_extrema_false (series_from 0 [0; 1])
                                         (series_from 2 [-0x1.ep1023])) eq_refl)
                ltac:(repeat constructor) ltac:(repeat constructor)
                ltac:(repeat constructor) eq_refl).
  vm_compute in H. discriminate H.
Qed.

(** C9, amended.  For every valid input ([sp >= 1], [n_obs >= sp + 1],
    validations passed) no error is raised and the score is the single float
    [-mae_pred / mae_naive].  When [mae_naive] equals [0] the score is what
    the division by zero yields, an infinity or NaN.  When [mae_naive] is
    finite and not zero and [mae_pred] is finite, the score is never NaN: it
    is finite, or an infinity when the quotient overflows. *)
Theorem mase_score_degenerate (y_true y_pred y_train : Series) (sp : Z) :
  (1 <= sp)%Z ->
  (sp + 1 <= Z.of_nat (length y_train))%Z ->
  indices_valid y_true y_pred y_train ->
  train_before_pred y_train y_pred ->
  let score := - mae_pred y_true y_pred / mae_naive y_train sp in
  mase_score y_true y_pred y_train sp = Ok score /\
  (PrimFloat.is_zero (mae_naive y_train sp) = true ->
   PrimFloat.is_infinity score = true \/ score = nan) /\
  (PrimFloat.is_finite (mae_pred y_true y_pred) = true ->
   PrimFloat.is_finite (mae_naive y_train sp) = true ->
   PrimFloat.is_zero (mae_naive y_train sp) = false ->
   PrimFloat.is_nan score = false).
Proof.
  intros Hsp Hn Hvalid Hord score. repeat split.
  - now apply mase_score_quotient.
  - intros Hz. now apply div_by_zero.
  - intros Hp Hf Hz. apply div_finite_not_nan; auto using opp_finite.
Qed.

Lemma mase_score_degenerate_witness :
  mase_score (series_from 5 [20; 22]) (series_from 5 [21; 21])
             (series_from 0 [10; 10; 10]) 1 = Ok neg_infinity
  /\ mase_score (series_from 5 [21; 21]) (series_from 5 [21; 21])
                (series_from 0 [10; 10; 10]) 1 = Ok nan.
Proof.
  split.
  - apply (mase_score_degenerate (series_from 5 [20; 22]) (series_from 5 [21; 21])
             (series_from 0 [10; 10; 10]) 1
             ltac:(lia) ltac:(simpl; lia) ltac:(repeat split)
             (proj1 (ge_extrema_false (series_from 0 [10; 10; 10])
                                      (series_from 5 [21; 21])) eq_refl)).
  - apply (mase_score_degenerate (series_from 5 [21; 21]) (series_from 5 [21; 21])
             (series_from 0 [10; 10; 10]) 1
             ltac:(lia) ltac:(simpl; lia) ltac:(repeat split)
             (proj1 (ge_extrema_false (series_from 0 [10; 10; 10])
                                      (series_from 5 [21; 21])) eq_refl)).
Defined.

(** ** Validation errors *)

(** C4.  When the time indices of [y_true] and [y_pred] differ (in length,
    in a timestamp or in order), both scores raise
    [InconsistentIndexError]: the call ends with the error and yields no
    value. *)
Theorem index_mismatch_raises (y_true y_pred y_train : Series) (sp : Z) :
  index y_true <> index y_pred ->
  mase_score y_true y_pred y_train sp = Raise InconsistentIndexError /\
  smape_score y_true y_pred = Raise InconsistentIndexError.
Proof.
  intros H. unfold mase_score, smape_score.
  rewrite (check_consistent_raise _ _ H). split; reflexivity.
Qed.

Lemma index_mismatch_raises_witness :
  mase_score (series_from 5 [20; 22]) (series_from 6 [21; 21])
             (series_from 0 [10; 12]) 1 = Raise InconsistentIndexError /\
  smape_score (series_from 5 [20; 22]) (series_from 6 [21; 21])
  = Raise InconsistentIndexError.
Proof.
  apply (index_mismatch_raises (series_from 5 [20; 22]) (series_from 6 [21; 21])
           (series_from 0 [10; 12]) 1).
  simpl. discriminate.
Defined.

(** C3, as stated, fails: a call whose [y_true] and [y_pred] indices differ
    ends with [InconsistentIndexError] even though the training index does
    not end before the forecast index, because the consistency check comes
    first. *)
Lemma ordering_error_not_for_every_call :
  ~ (forall (y_true y_pred y_train : Series) (sp tmax pmin : Z),
        index_max (index y_train) = Some tmax ->
        index_min (index y_pred) = Some pmin ->
        (pmin <= tmax)%Z ->
        mase_score y_true y_pred y_train sp = Raise (ValueError not_before_error)).
Proof.
  intros H.
  specialize (H (series_from 0 [1]) (series_from 1 [1]) (series_from 5 [1; 2]) 1%Z
                6%Z 1%Z eq_refl eq_refl ltac:(lia)).
  discriminate H.
Qed.

(** C3, amended.  When the consistency check and both horizon validations
    pass and the greatest timestamp of [y_train] is greater than or equal to
    the least timestamp of [y_pred], [mase_score] raises the [ValueError]
    whose message says that [y_train] is not before [y_pred], and returns no
    value; when the greatest training timestamp is strictly less than the
    least forecast timestamp, that error is not raised, whatever else the
    call does. *)
Theorem mase_score_ordering_error
    (y_true y_pred y_train : Series) (sp tmax pmin : Z) :
  index_max (index y_train) = Some tmax ->
  index_min (index y_pred) = Some pmin ->
  (indices_valid y_true y_pred y_train -> (pmin <= tmax)%Z ->
   mase_score y_true y_pred y_train sp = Raise (ValueError not_before_error)) /\
  ((tmax < pmin)%Z ->
   mase_score y_true y_pred y_train sp <> Raise (ValueError not_before_error)).
Proof.
  intros Hmax Hmin. split.
  - intros (Hidx & Ht & Hp) Hge. unfold mase_score.
    rewrite check_consistent_ok by assumption. simpl.
    unfold validate_obs_horizon. rewrite Ht, Hp. simpl.
    rewrite Hmax, Hmin. simpl.
    now rewrite (proj2 (Z.leb_le pmin tmax) Hge).
  - intros Hlt. unfold mase_score, check_consistent_time_indices.
    destruct (index_eqb (index y_true) (index y_pred)); simpl; [|discriminate].
    unfold validate_obs_horizon.
    destruct (is_monotonic (index y_train)); simpl; [|discriminate].
    destruct (is_monotonic (index y_pred)); simpl; [|discriminate].
    rewrite Hmax, Hmin. simpl.
    rewrite (proj2 (Z.leb_gt pmin tmax) Hlt).
    destruct (np_sub _ _) as [diffs|e] eqn:E; simpl; [discriminate|].
    unfold np_sub in E.
    destruct (Nat.eqb _ _); [discriminate|].
    destruct (slice_from _ _) as [|x [|x' a]], (slice_to _ _) as [|y [|y' b]];
      try discriminate; injection E as <-; discriminate.
Qed.

Lemma mase_score_ordering_error_witness :
  mase_score (series_from 5 [20; 22]) (series_from 5 [21; 21])
             (series_from 4 [10; 12]) 1 = Raise (ValueError not_before_error)
  /\ mase_score (series_from 5 [20; 22]) (series_from 5 [21; 21])
                (series_from 3 [10; 12]) 1 <> Raise (ValueError not_before_error).
Proof.
  split.
  - apply (proj1 (mase_score_ordering_error (series_from 5 [20; 22])
                    (series_from 5 [21; 21]) (series_from 4 [10; 12]) 1 5 5
                    eq_refl eq_refl));
      [repeat split | lia].
  - apply (proj2 (mase_score_ordering_error (series_from 5 [20; 22])
                    (series_from 5 [21; 21]) (series_from 3 [10; 12]) 1 4 5
                    eq_refl eq_refl)).
    lia.
Defined.

(** ** SMAPE *)

(** C2, as stated, fails: at a point where both values are zero the ratio is
    NaN and the mean of the Series leaves it out, so the score is not
    [-2] times the mean over all points (which would be NaN). *)
Lemma smape_not_mean_over_all_points :
  ~ (forall y_true y_pred : Series,
        index y_true = index y_pred ->
        smape_score y_true y_pred
        = Ok (-2 * np_mean (smape_ratios y_true y_pred))).
Proof.
  intros H.
  specialize (H (series_from 0 [0; 1]) (series_from 0 [0; 2]) eq_refl).
  apply (f_equal (fun r => match r with
                           | Ok v => PrimFloat.is_nan v
                           | Raise _ => false
                           end)) in H.
  vm_compute in H. discriminate H.
Qed.

(** C2, amended.  For index-consistent [y_true] and [y_pred], [smape_score]
    returns [-2] times the Series mean of the per-point ratios
    [|y_true_i - y_pred_i| / (|y_true_i| + |y_pred_i|)]: their sum, a NaN
    ratio counting as [0.0], divided by the number of ratios that are not
    NaN (and NaN when there is none); when no ratio is NaN this is the mean
    over all [fh] points. *)
Theorem smape_score_formula (y_true y_pred : Series) :
  index y_true = index y_pred ->
  smape_score y_true y_pred = Ok (-2 * series_mean (smape_ratios y_true y_pred))
  /\ length (smape_ratios y_true y_pred) = length y_true
  /\ (no_nan (smape_ratios y_true y_pred) ->
      smape_score y_true y_pred = Ok (-2 * np_mean (smape_ratios y_true y_pred))).
Proof.
  intros Hidx. repeat split.
  - now apply smape_score_validated.
  - now apply smape_ratios_length.
  - intros Hnan. rewrite smape_score_validated by assumption.
    now rewrite series_mean_no_nan.
Qed.

Lemma smape_score_formula_witness :
  smape_score (series_from 0 [10; 0]) (series_from 0 [10; 2]) = Ok (-1)
  /\ smape_score (series_from 0 [1; 2; 3; 4; 5; 6; 7; 8; 9; 10])
                 (series_from 0 [2; 3; 4; 5; 6; 7; 8; 9; 10; 11])
     = Ok (-0x1.e3afac93943cap-3).
Proof.
  split.
  - apply (proj1 (smape_score_formula (series_from 0 [10; 0])
                    (series_from 0 [10; 2]) eq_refl)).
  - apply (proj1 (smape_score_formula
                    (series_from 0 [1; 2; 3; 4; 5; 6; 7; 8; 9; 10])
                    (series_from 0 [2; 3; 4; 5; 6; 7; 8; 9; 10; 11]) eq_refl)).
Defined.

(** C5, as stated, fails: the perfect forecast of the single value [0.0] has
    the ratio [0/0], and the score is NaN, not zero. *)
Lemma perfect_forecast_of_zero_is_nan :
  ~ (forall y : Series,
        exists r, smape_score y y = Ok r /\ (r =? 0)%float = true).
Proof.
  intros H. destruct (H (series_from 0 [0])) as (r & Hr & Hz).
  apply (f_equal returns_nan) in Hr. vm_compute in Hr.
  assert (E : r = nan) by (apply is_nan_eq; now symmetry).
  subst r. vm_compute in Hz. discriminate Hz.
Qed.

(** C5, amended.  When [y_pred] equals [y_true] pointwise and at least one
    value is finite and nonzero, [smape_score] returns a zero: the float
    [-0.0], which compares equal to [0.0].  (The series has fewer than
    [2^63] points, as every array has.) *)
Theorem smape_score_perfect_forecast (y : Series) :
  Exists (fun v => PrimFloat.is_finite v = true /\ PrimFloat.is_zero v = false)
         (values y) ->
  (Z.of_nat (length y) < 2 ^ 63)%Z ->
  smape_score y y = Ok neg_zero /\ (neg_zero =? 0)%float = true.
Proof.
  intros Hex Hlen. split; [|reflexivity].
  rewrite smape_score_validated by reflexivity.
  assert (Hr : smape_ratios y y
               = map (fun v => if PrimFloat.is_finite v && negb (PrimFloat.is_zero v)
                               then 0 else nan) (values y)).
  { unfold smape_ratios. clear Hex Hlen.
    induction (values y) as [|v a IH]; cbn [combine map fst snd]; [reflexivity|].
    now rewrite IH, smape_ratio_self. }
  rewrite Hr, series_mean_zero_or_nan; [reflexivity| | |].
  - apply Forall_map, Forall_forall. intros v _.
    destruct (_ && _); auto.
  - apply Exists_map. revert Hex. apply Exists_impl.
    intros v [Hf Hz]. now rewrite Hf, Hz.
  - rewrite length_map. unfold values. now rewrite length_map.
Qed.

Lemma smape_score_perfect_forecast_witness :
  smape_score (series_from 0 [0; 3; 5]) (series_from 0 [0; 3; 5]) = Ok neg_zero.
Proof.
  apply (smape_score_perfect_forecast (series_from 0 [0; 3; 5])).
  - right. left. split; reflexivity.
  - simpl. lia.
Defined.

(** C6, as stated, fails: a point where both values are zero does not make
    the score NaN when another point has a defined ratio, because the mean
    of the Series leaves the NaN ratio out. *)
Lemma zero_over_zero_point_is_skipped :
  ~ (forall y_true y_pred : Series,
        index y_true = index y_pred ->
        Exists both_zero (points y_true y_pred) ->
        smape_score y_true y_pred = Ok nan).
Proof.
  intros H.
  assert (Hz : Exists both_zero (points (series_from 0 [0; 1]) (series_from 0 [0; 2])))
    by (left; split; reflexivity).
  specialize (H (series_from 0 [0; 1]) (series_from 0 [0; 2]) eq_refl Hz).
  apply (f_equal returns_nan) in H. vm_compute in H. discriminate H.
Qed.

(** C6, amended.  For [y_true = [0]] and [y_pred = [0]] the score is NaN;
    more generally, whenever [y_true_i] and [y_pred_i] are both zero at every
    point, every ratio is the NaN of [0/0], the score is NaN and no error is
    raised. *)
Theorem smape_score_zero_over_zero (y_true y_pred : Series) :
  index y_true = index y_pred ->
  Forall both_zero (points y_true y_pred) ->
  Forall (fun r => r = nan) (smape_ratios y_true y_pred) /\
  smape_score y_true y_pred = Ok nan.
Proof.
  intros Hidx Hz.
  assert (Hr : Forall (fun r => r = nan) (smape_ratios y_true y_pred)).
  { unfold smape_ratios. fold (points y_true y_pred).
    induction Hz as [|[t p] a [Ht Hp] Hz IH]; cbn [map]; constructor.
    - now apply both_zero_ratio.
    - exact IH. }
  split; [exact Hr|].
  rewrite smape_score_validated, series_mean_all_nan by assumption.
  reflexivity.
Qed.

Lemma smape_score_zero_over_zero_witness :
  smape_score (series_from 0 [0]) (series_from 0 [0]) = Ok nan.
Proof.
  apply (smape_score_zero_over_zero (series_from 0 [0]) (series_from 0 [0]) eq_refl).
  repeat constructor.
Defined.




(** C7, as stated, fails: for the finite values [y_true = [1.68e308]] and
    [y_pred = [-1.68e308]] the difference and the sum of the magnitudes both
    overflow, the only ratio is [inf / inf], and the score is NaN, outside
    [[-2, 0]]. *)
Lemma overflow_leaves_the_interval :
  ~ (forall y_true y_pred : Series,
        index y_true = index y_pred ->
        all_finite y_true -> all_finite y_pred ->
        Forall (fun tp => ~ both_zero tp) (points y_true y_pred) ->
        exists r, smape_score y_true y_pred = Ok r /\
                  (-2 <=? r) = true /\ (r <=? 0) = true).
Proof.
  intros H.
  destruct (H (series_from 0 [0x1.ep1023]) (series_from 0 [-0x1.ep1023]) eq_refl)
    as (r & Hr & Hlo & _).
  - repeat constructor.
  - repeat constructor.
  - constructor; [|constructor]. intros [Hz _]. vm_compute in Hz. discriminate Hz.
  - apply (f_equal returns_nan) in Hr. vm_compute in Hr.
    assert (E : r = nan) by (apply is_nan_eq; now symmetry).
    subst r. vm_compute in Hlo. discriminate Hlo.
Qed.

(** C7, amended.  For every pair of finite-valued, index-consistent series
    in which no point has both values zero and at least one point has a
    difference [y_true_i - y_pred_i] that does not overflow, [smape_score]
    lies in the closed interval [[-2.0, 0.0]].  (The series has fewer than
    [2^53] points.) *)
Theorem smape_score_bounded (y_true y_pred : Series) :
  index y_true = index y_pred ->
  all_finite y_true -> all_finite y_pred ->
  Forall (fun tp => ~ both_zero tp) (points y_true y_pred) ->
  Exists (fun tp => PrimFloat.is_finite (fst tp - snd tp) = true)
         (points y_true y_pred) ->
  (Z.of_nat (length y_true) < 2 ^ 53)%Z ->
  exists r, smape_score y_true y_pred = Ok r /\
            (-2 <=? r) = true /\ (r <=? 0) = true.
Proof.
  intros Hidx Ht Hp Hnz Hex Hlen.
  destruct (smape_ratios_bounded y_true y_pred Ht Hp Hnz) as [Hok Hnn].
  specialize (Hnn Hex).
  pose proof (smape_ratios_length y_true y_pred Hidx) as Hl.
  destruct (series_mean_bounded (smape_ratios y_true y_pred) Hok Hnn
              ltac:(rewrite Hl; exact Hlen)) as [Sm Hm].
  exists (-2 * series_mean (smape_ratios y_true y_pred)).
  split; [now apply smape_score_validated|].
  pose proof (mul_neg2_bounds _ (Prim2SF_valid _) Sm Hm) as [Sr Hr].
  change SFminus_two with (Prim2SF (-2)) in Sr, Hr at 1.
  rewrite <- mul_spec in Sr, Hr.
  rewrite !leb_spec. split.
  - apply (mag_le_leb_neg _ (Prim2SF (-2)));
      auto using Prim2SF_valid. reflexivity.
  - now apply leb_zero_of_negative.
Qed.

Lemma smape_score_bounded_witness :
  exists r, smape_score (series_from 0 [10; 0; 0x1.ep1023])
                        (series_from 0 [10; 2; -0x1.ep1023]) = Ok r /\
            (-2 <=? r) = true /\ (r <=? 0) = true.
Proof.
  apply (smape_score_bounded (series_from 0 [10; 0; 0x1.ep1023])
           (series_from 0 [10; 2; -0x1.ep1023]) eq_refl).
  - repeat constructor.
  - repeat constructor.
  - repeat constructor; intros [H1 H2]; vm_compute in H1, H2; discriminate.
  - left. reflexivity.
  - simpl. lia.
Defined.

(** * Further properties of the two scores *)

(** ** Exchanging the two series *)

Lemma index_eqb_sym (a b : Index) : index_eqb a b = index_eqb b a.
Proof.
  revert b. induction a as [|x a IH]; intros [|y b]; simpl; try reflexivity.
  now rewrite IH, Z.eqb_sym.
Qed.

Lemma SFadd_comm (x y : spec_float) : SF64add x y = SF64add y x.
Proof.
  unfold SF64add, SFadd.
  destruct x as [sx|sx| |sx mx ex], y as [sy|sy| |sy my ey]; try reflexivity.
  - destruct sx, sy; reflexivity.
  - destruct sx, sy; reflexivity.
  - rewrite (Z.min_comm ey ex). cbv zeta. f_equal. apply Z.add_comm.
Qed.

Lemma SFabs_sub_sym (x y : spec_float) :
  SFabs (SF64sub x y) = SFabs (SF64sub y x).
Proof.
  unfold SF64sub, SFsub.
  destruct x as [sx|sx| |sx mx ex], y as [sy|sy| |sy my ey]; try reflexivity;
    try (destruct sx, sy; reflexivity).
  rewrite (Z.min_comm ey ex). cbv zeta.
  rewrite !SFabs_binary_normalize. f_equal.
  change (IntDef.Z.min ex ey) with (Z.min ex ey). lia.
Qed.

Lemma add_comm_float (x y : float) : x + y = y + x.
Proof. apply Prim2SF_inj. rewrite !add_spec. apply SFadd_comm. Qed.

Lemma abs_sub_sym (t p : float) : PrimFloat.abs (t - p) = PrimFloat.abs (p - t).
Proof. apply Prim2SF_inj. rewrite !abs_spec, !sub_spec. apply SFabs_sub_sym. Qed.

Lemma smape_ratio_sym (t p : float) : smape_ratio t p = smape_ratio p t.
Proof.
  unfold smape_ratio. now rewrite abs_sub_sym, add_comm_float.
Qed.

Lemma map_combine_sym (f : float -> float -> float) (a b : list float) :
  (forall x y, f x y = f y x) ->
  map (fun tp => f (fst tp) (snd tp)) (combine a b)
  = map (fun tp => f (fst tp) (snd tp)) (combine b a).
Proof.
  intros Hf. revert b. induction a as [|x a IH]; intros [|y b]; simpl;
    try reflexivity.
  now rewrite IH, Hf.
Qed.

Lemma abs_errors_sym (y_true y_pred : Series) :
  abs_errors y_true y_pred = abs_errors y_pred y_true.
Proof.
  unfold abs_errors.
  apply (map_combine_sym (fun t p => PrimFloat.abs (t - p))), abs_sub_sym.
Qed.

Lemma smape_ratios_sym (y_true y_pred : Series) :
  smape_ratios y_true y_pred = smape_ratios y_pred y_true.
Proof.
  unfold smape_ratios. apply (map_combine_sym smape_ratio), smape_ratio_sym.
Qed.

Lemma mase_score_consistent (y_true y_pred y_train : Series) (sp : Z) :
  index y_true = index y_pred ->
  mase_score y_true y_pred y_train sp =
  (train_index <- validate_obs_horizon (OfIndex (index y_train)) ;;
   pred_index <- validate_obs_horizon (OfIndex (index y_pred)) ;;
   if ge_extrema (index_max train_index) (index_min pred_index)
   then Raise (ValueError not_before_error)
   else
     diffs <- np_sub (slice_from (values y_train) sp)
                     (slice_to (values y_train) (- sp)) ;;
     Ok (- series_mean (abs_errors y_true y_pred) / np_mean (np_abs diffs))).
Proof.
  intros E. unfold mase_score.
  rewrite (check_consistent_ok _ _ E), abs_errors_eq. reflexivity.
Qed.

(** X1. SMAPE is symmetric in its two arguments: exchanging the true values
    and the forecast gives the same outcome, bit for bit, be it a score or
    the exception of the index check. *)
Theorem smape_score_symmetric (y_true y_pred : Series) :
  smape_score y_true y_pred = smape_score y_pred y_true.
Proof.
  destruct (list_eq_dec Z.eq_dec (index y_true) (index y_pred)) as [E|E].
  - rewrite !smape_score_validated by congruence.
    now rewrite smape_ratios_sym.
  - unfold smape_score.
    rewrite !check_consistent_raise by congruence. reflexivity.
Qed.

(** X2. MASE does not tell the forecast from the true values: exchanging
    [y_true] and [y_pred] gives the same outcome, bit for bit, whatever the
    training series and the period. *)
Theorem mase_score_symmetric (y_true y_pred y_train : Series) (sp : Z) :
  mase_score y_true y_pred y_train sp = mase_score y_pred y_true y_train sp.
Proof.
  destruct (list_eq_dec Z.eq_dec (index y_true) (index y_pred)) as [E|E].
  - rewrite !mase_score_consistent by congruence.
    now rewrite E, abs_errors_sym.
  - unfold mase_score.
    rewrite !check_consistent_raise by congruence. reflexivity.
Qed.

(** ** Negating every series *)

Lemma index_negate (y : Series) : index (negate y) = index y.
Proof.
  unfold index, negate. rewrite map_map. reflexivity.
Qed.

Lemma values_negate (y : Series) :
  values (negate y) = map PrimFloat.opp (values y).
Proof.
  unfold values, negate. rewrite !map_map. reflexivity.
Qed.

Lemma SFabs_opp (x : spec_float) : SFabs (SFopp x) = SFabs x.
Proof. destruct x; reflexivity. Qed.

Lemma SFabs_sub_opp (x y : spec_float) :
  SFabs (SF64sub (SFopp x) (SFopp y)) = SFabs (SF64sub x y).
Proof.
  unfold SF64sub, SFsub.
  destruct x as [sx|sx| |sx mx ex], y as [sy|sy| |sy my ey]; try reflexivity;
    try (destruct sx, sy; reflexivity).
  cbn [SFopp]. cbv zeta.
  rewrite !SFabs_binary_normalize. f_equal.
  destruct sx, sy; cbn [negb cond_Zopp]; lia.
Qed.

Lemma abs_opp (x : float) : PrimFloat.abs (- x) = PrimFloat.abs x.
Proof. apply Prim2SF_inj. rewrite !abs_spec, opp_spec. apply SFabs_opp. Qed.

Lemma abs_sub_opp (t p : float) :
  PrimFloat.abs (- t - - p) = PrimFloat.abs (t - p).
Proof.
  apply Prim2SF_inj. rewrite !abs_spec, !sub_spec, !opp_spec.
  apply SFabs_sub_opp.
Qed.

Lemma smape_ratio_opp (t p : float) : smape_ratio (- t) (- p) = smape_ratio t p.
Proof.
  unfold smape_ratio. now rewrite abs_sub_opp, !abs_opp.
Qed.

Lemma map_combine_opp (f : float -> float -> float) (a b : list float) :
  (forall x y, f (- x) (- y) = f x y) ->
  map (fun tp => f (fst tp) (snd tp))
      (combine (map PrimFloat.opp a) (map PrimFloat.opp b))
  = map (fun tp => f (fst tp) (snd tp)) (combine a b).
Proof.
  intros Hf. revert b. induction a as [|x a IH]; intros [|y b]; simpl;
    try reflexivity.
  now rewrite IH, Hf.
Qed.

Lemma abs_errors_negate (y_true y_pred : Series) :
  abs_errors (negate y_true) (negate y_pred) = abs_errors y_true y_pred.
Proof.
  unfold abs_errors. rewrite !values_negate.
  apply (map_combine_opp (fun t p => PrimFloat.abs (t - p))), abs_sub_opp.
Qed.

Lemma smape_ratios_negate (y_true y_pred : Series) :
  smape_ratios (negate y_true) (negate y_pred) = smape_ratios y_true y_pred.
Proof.
  unfold smape_ratios. rewrite !values_negate.
  apply (map_combine_opp smape_ratio), smape_ratio_opp.
Qed.

Lemma slice_from_map (f : float -> float) (a : list float) (k : Z) :
  slice_from (map f a) k = map f (slice_from a k).
Proof.
  unfold slice_from. now rewrite length_map, skipn_map.
Qed.

Lemma slice_to_map (f : float -> float) (a : list float) (k : Z) :
  slice_to (map f a) k = map f (slice_to a k).
Proof.
  unfold slice_to. now rewrite length_map, firstn_map.
Qed.

Lemma abs_zip_sub_opp (a b : list float) :
  np_abs (zip_with PrimFloat.sub (map PrimFloat.opp a) (map PrimFloat.opp b))
  = np_abs (zip_with PrimFloat.sub a b).
Proof.
  revert b. induction a as [|x a IH]; intros [|y b]; simpl; try reflexivity.
  now rewrite IH, abs_sub_opp.
Qed.

(** The absolute differences numpy computes are those of the negated
    arrays, and the shapes broadcast, or fail to, alike. *)
Lemma abs_stretch_opp_l (x : float) (b : list float) :
  np_abs (map (fun y => - x - y) (map PrimFloat.opp b))
  = np_abs (map (fun y => x - y) b).
Proof.
  unfold np_abs. rewrite !map_map. apply map_ext. intros y. apply abs_sub_opp.
Qed.

Lemma abs_stretch_opp_r (y : float) (a : list float) :
  np_abs (map (fun x => x - - y) (map PrimFloat.opp a))
  = np_abs (map (fun x => x - y) a).
Proof.
  unfold np_abs. rewrite !map_map. apply map_ext. intros x. apply abs_sub_opp.
Qed.

Lemma np_sub_stretch_l (x : float) (b : list float) :
  np_sub [x] b = Ok (map (fun y => x - y) b).
Proof. destruct b as [|y [|y' b]]; reflexivity. Qed.

Lemma np_sub_stretch_r (y : float) (a : list float) :
  np_sub a [y] = Ok (map (fun x => x - y) a).
Proof. destruct a as [|x [|x' a]]; reflexivity. Qed.

Lemma np_sub_same_length (a b : list float) :
  length a = length b -> np_sub a b = Ok (zip_with PrimFloat.sub a b).
Proof. intros H. unfold np_sub. now rewrite H, Nat.eqb_refl. Qed.

Lemma np_sub_raise (a b : list float) :
  length a <> length b -> length a <> 1%nat -> length b <> 1%nat ->
  np_sub a b = Raise (ValueError (broadcast_error (length a) (length b))).
Proof.
  intros H Ha Hb. unfold np_sub.
  destruct (Nat.eqb_spec (length a) (length b)) as [E|_]; [contradiction|].
  destruct a as [|x [|x' a]], b as [|y [|y' b]]; simpl in *;
    congruence || reflexivity.
Qed.

(** The absolute differences numpy computes are those of the negated
    arrays, and the shapes broadcast, or fail to, alike. *)
Lemma np_sub_negate {B : Type} (k : list float -> B) (a b : list float) :
  (diffs <- np_sub (map PrimFloat.opp a) (map PrimFloat.opp b) ;;
   Ok (k (np_abs diffs)))
  = (diffs <- np_sub a b ;; Ok (k (np_abs diffs))).
Proof.
  destruct (Nat.eq_dec (length a) 1) as [Ha|Ha].
  { destruct a as [|x [|x' a]]; try discriminate Ha.
    change (map PrimFloat.opp [x]) with [- x].
    rewrite !np_sub_stretch_l. cbn [bind]. now rewrite abs_stretch_opp_l. }
  destruct (Nat.eq_dec (length b) 1) as [Hb|Hb].
  { destruct b as [|y [|y' b]]; try discriminate Hb.
    change (map PrimFloat.opp [y]) with [- y].
    rewrite !np_sub_stretch_r. cbn [bind]. now rewrite abs_stretch_opp_r. }
  destruct (Nat.eq_dec (length a) (length b)) as [E|E].
  - rewrite !np_sub_same_length by (rewrite ?length_map; exact E).
    cbn [bind]. now rewrite abs_zip_sub_opp.
  - rewrite !np_sub_raise by (rewrite ?length_map; assumption).
    now rewrite !length_map.
Qed.

(** X3. SMAPE of the negated series is SMAPE of the series: changing the
    sign of every true value and every forecast leaves the outcome
    unchanged, bit for bit. *)
Theorem smape_score_negate (y_true y_pred : Series) :
  smape_score (negate y_true) (negate y_pred) = smape_score y_true y_pred.
Proof.
  destruct (list_eq_dec Z.eq_dec (index y_true) (index y_pred)) as [E|E].
  - rewrite !smape_score_validated by (rewrite ?index_negate; exact E).
    now rewrite smape_ratios_negate.
  - unfold smape_score.
    rewrite !check_consistent_raise by (rewrite ?index_negate; exact E).
    reflexivity.
Qed.

(** X4. MASE of the negated series is MASE of the series: changing the sign
    of every value of [y_true], [y_pred] and [y_train] leaves the outcome
    unchanged, bit for bit, for every period. *)
Theorem mase_score_negate (y_true y_pred y_train : Series) (sp : Z) :
  mase_score (negate y_true) (negate y_pred) (negate y_train) sp
  = mase_score y_true y_pred y_train sp.
Proof.
  destruct (list_eq_dec Z.eq_dec (index y_true) (index y_pred)) as [E|E].
  - rewrite !mase_score_consistent by (rewrite ?index_negate; exact E).
    rewrite !index_negate, abs_errors_negate, values_negate.
    rewrite slice_from_map, slice_to_map.
    destruct (validate_obs_horizon (OfIndex (index y_train))) as [ti|e];
      [|reflexivity].
    destruct (validate_obs_horizon (OfIndex (index y_pred))) as [pi|e];
      [|reflexivity].
    cbn [bind]. destruct (ge_extrema (index_max ti) (index_min pi));
      [reflexivity|].
    apply (np_sub_negate
             (fun d => - series_mean (abs_errors y_true y_pred) / np_mean d)).
  - unfold mase_score.
    rewrite !check_consistent_raise by (rewrite ?index_negate; exact E).
    reflexivity.
Qed.

(** ** The period: zero and negative values *)

Lemma slices_same_length (a : list float) (sp : Z) :
  sp <> 0%Z -> length (slice_from a sp) = length (slice_to a (- sp)).
Proof.
  intros H. unfold slice_from, slice_to, clamp_bound.
  rewrite length_skipn, length_firstn.
  destruct (Z.ltb_spec sp 0), (Z.ltb_spec (- sp) 0); lia.
Qed.

Lemma slice_from_zero (a : list float) : slice_from a 0 = a.
Proof. unfold slice_from, clamp_bound. simpl. now rewrite Z.min_l by lia. Qed.

Lemma slice_to_zero (a : list float) : slice_to a 0 = [].
Proof. unfold slice_to, clamp_bound. simpl. now rewrite Z.min_l by lia. Qed.

Lemma slice_from_negative (a : list float) (k : nat) :
  (1 <= k)%nat ->
  slice_from a (- Z.of_nat k) = skipn (length a - Nat.min k (length a)) a.
Proof.
  intros H. unfold slice_from, clamp_bound.
  destruct (Z.ltb_spec (- Z.of_nat k) 0); [|lia].
  f_equal. lia.
Qed.

Lemma slice_to_positive (a : list float) (k : nat) :
  slice_to a (Z.of_nat k) = firstn (Nat.min k (length a)) a.
Proof.
  unfold slice_to, clamp_bound.
  destruct (Z.ltb_spec (Z.of_nat k) 0); [lia|].
  f_equal. lia.
Qed.

Lemma np_mean_nil : np_mean [] = nan.
Proof. reflexivity. Qed.

(** X5. The period is not validated.  Once the index validations pass,
    every nonzero period, negative ones included, gives a score; with
    period zero [y_train[:-0]] is the empty slice, so the call returns NaN
    for a training series of at most one observation and fails for a
    longer one with numpy's broadcasting [ValueError], whose message names
    the shapes [(n_obs,)] and [(0,)]. *)
Theorem mase_score_zero_period (y_true y_pred y_train : Series) (sp : Z) :
  indices_valid y_true y_pred y_train ->
  train_before_pred y_train y_pred ->
  (sp <> 0%Z -> exists r, mase_score y_true y_pred y_train sp = Ok r) /\
  ((length y_train <= 1)%nat -> mase_score y_true y_pred y_train 0 = Ok nan) /\
  ((2 <= length y_train)%nat ->
   mase_score y_true y_pred y_train 0
   = Raise (ValueError (broadcast_error (length y_train) 0))).
Proof.
  intros Hvalid Hord.
  assert (Hlen : length (values y_train) = length y_train)
    by (unfold values; apply length_map).
  repeat split.
  - intros Hsp. rewrite mase_score_validated by assumption.
    rewrite np_sub_same_length by now apply slices_same_length.
    cbn [bind]. eexists. reflexivity.
  - intros Hn. rewrite mase_score_validated by assumption.
    change (- 0)%Z with 0%Z. rewrite slice_from_zero, slice_to_zero.
    destruct (values y_train) as [|x [|x' a]]; simpl in Hlen; try lia.
    + cbn [np_sub length Nat.eqb bind np_abs map zip_with]. rewrite np_mean_nil.
      now rewrite div_nan_r.
    + rewrite np_sub_stretch_l. cbn [bind np_abs map]. rewrite np_mean_nil.
      now rewrite div_nan_r.
  - intros Hn. rewrite mase_score_validated by assumption.
    change (- 0)%Z with 0%Z. rewrite slice_from_zero, slice_to_zero.
    rewrite np_sub_raise by (simpl; lia). now rewrite Hlen.
Qed.

Lemma mase_score_zero_period_witness :
  (exists r, mase_score (series_from 5 [20; 22]) (series_from 5 [21; 21])
                        (series_from 0 [10; 12; 14]) (-1) = Ok r) /\
  mase_score (series_from 5 [20; 22]) (series_from 5 [21; 21])
             (series_from 0 [10; 12; 14]) 0
  = Raise (ValueError
             "operands could not be broadcast together with shapes (3,) (0,) ").
Proof.
  pose proof (mase_score_zero_period
                (series_from 5 [20; 22]) (series_from 5 [21; 21])
                (series_from 0 [10; 12; 14]) (-1)
                ltac:(repeat split)
                (proj1 (ge_extrema_false (series_from 0 [10; 12; 14])
                                         (series_from 5 [21; 21])) eq_refl))
    as (H1 & _ & H3).
  split.
  - apply H1. discriminate.
  - apply H3. simpl. lia.
Defined.

(** X6. A negative period [sp = -k] raises nothing: the in-sample error is
    then the mean absolute difference between the last [min(k, n_obs)] and
    the first [min(k, n_obs)] training values, taken position by
    position. *)
Theorem mase_score_negative_period
    (y_true y_pred y_train : Series) (k : nat) :
  (1 <= k)%nat ->
  indices_valid y_true y_pred y_train ->
  train_before_pred y_train y_pred ->
  let n := length y_train in
  let j := Nat.min k n in
  mase_score y_true y_pred y_train (- Z.of_nat k)
  = Ok (- mae_pred y_true y_pred
        / np_mean (np_abs (zip_with PrimFloat.sub
                             (skipn (n - j) (values y_train))
                             (firstn j (values y_train))))).
Proof.
  intros Hk Hvalid Hord n j.
  assert (Hlen : length (values y_train) = n)
    by (unfold values; apply length_map).
  rewrite mase_score_validated by assumption.
  rewrite Z.opp_involutive, slice_from_negative, slice_to_positive by exact Hk.
  rewrite Hlen. fold j.
  rewrite np_sub_same_length.
  - reflexivity.
  - rewrite length_skipn, length_firstn, Hlen. lia.
Qed.

Lemma mase_score_negative_period_witness :
  mase_score (series_from 5 [20; 22]) (series_from 5 [21; 21])
             (series_from 0 [10; 12; 14; 12]) (- Z.of_nat 1) = Ok (-0.5)
  /\ mase_score (series_from 5 [0x1p53; 1; 1; 1; 1; 1; 1; 1])
                (series_from 5 [0; 0; 0; 0; 0; 0; 0; 0])
                (series_from 0 [10; 12; 14; 12]) (- Z.of_nat 1)
     = Ok (-0x1.0000000000003p+49).
Proof.
  split.
  - rewrite (mase_score_negative_period
               (series_from 5 [20; 22]) (series_from 5 [21; 21])
               (series_from 0 [10; 12; 14; 12]) 1
               ltac:(lia) ltac:(repeat split)
               (proj1 (ge_extrema_false (series_from 0 [10; 12; 14; 12])
                                        (series_from 5 [21; 21])) eq_refl)).
    vm_compute. reflexivity.
  - rewrite (mase_score_negative_period
               (series_from 5 [0x1p53; 1; 1; 1; 1; 1; 1; 1])
               (series_from 5 [0; 0; 0; 0; 0; 0; 0; 0])
               (series_from 0 [10; 12; 14; 12]) 1
               ltac:(lia) ltac:(repeat split)
               (proj1 (ge_extrema_false
                         (series_from 0 [10; 12; 14; 12])
                         (series_from 5 [0; 0; 0; 0; 0; 0; 0; 0])) eq_refl)).
    vm_compute. reflexivity.
Defined.

(** ** A NaN among the training values *)

Lemma add_nan_l (x : float) : nan + x = nan.
Proof.
  apply Prim2SF_inj. rewrite add_spec.
  change (Prim2SF nan) with S754_nan. reflexivity.
Qed.

Lemma add_nan_r (x : float) : x + nan = nan.
Proof. rewrite add_comm_float. apply add_nan_l. Qed.

Lemma div_nan_l (x : float) : nan / x = nan.
Proof.
  apply Prim2SF_inj. rewrite div_spec.
  change (Prim2SF nan) with S754_nan. reflexivity.
Qed.

Lemma abs_sub_nan_l (x : float) : PrimFloat.abs (nan - x) = nan.
Proof.
  apply Prim2SF_inj. rewrite abs_spec, sub_spec.
  change (Prim2SF nan) with S754_nan. reflexivity.
Qed.

Lemma abs_sub_nan_r (x : float) : PrimFloat.abs (x - nan) = nan.
Proof. rewrite abs_sub_sym. apply abs_sub_nan_l. Qed.

(** One NaN among the elements makes the sum NaN, in whatever order the
    elements are added. *)
Lemma np_sum_nan (a : list float) :
  In nan a -> np_sum a = nan.
Proof.
  intros H.
  set (w := fun x : float => (if PrimFloat.is_nan x then 1 else 0)%nat).
  assert (Hw : (1 <= weight w a)%nat).
  { induction a as [|x a IH]; [destruct H|].
    rewrite weight_cons. destruct H as [->|H].
    - assert (E : w nan = 1%nat) by reflexivity. rewrite E. lia.
    - specialize (IH H). lia. }
  apply (np_sum_weighted (fun j x => (1 <= j)%nat -> x = nan) w (weight w a));
    try assumption; try lia.
  - intros j k x y _ Hx Hy Hjk.
    destruct j as [|j].
    + rewrite Hy by lia. apply add_nan_r.
    + rewrite Hx by lia. apply add_nan_l.
  - apply Forall_forall. intros x _. unfold w.
    destruct (PrimFloat.is_nan x) eqn:En; [|lia].
    intros _. now apply is_nan_eq.
Qed.

Lemma np_mean_nan (a : list float) : In nan a -> np_mean a = nan.
Proof.
  intros H. unfold np_mean. rewrite (np_sum_nan a H). apply div_nan_l.
Qed.

(** With [2 * sp <= n_obs] every training value enters a naive error, as
    the value forecast or as the forecast. *)
Lemma naive_abs_errors_nan (a : list float) (sp : nat) :
  (2 * sp <= length a)%nat ->
  In nan a -> In nan (naive_abs_errors a sp).
Proof.
  intros Hn H. apply (In_nth a nan 0) in H as (i & Hi & E).
  unfold naive_abs_errors. apply in_map_iff.
  destruct (Nat.ltb_spec i sp) as [Hlt|Hge].
  - exists (i + sp)%nat. split.
    + replace (i + sp - sp)%nat with i by lia.
      rewrite E. apply abs_sub_nan_r.
    + apply in_seq. lia.
  - exists i. split.
    + rewrite E. apply abs_sub_nan_l.
    + apply in_seq. lia.
Qed.

(** X7. The training series goes through [np.asarray], so its mean skips
    nothing: with [1 <= sp] and [2 * sp <= n_obs], one NaN anywhere in
    [y_train] makes the score NaN, whatever the forecast. *)
Theorem mase_score_nan_in_train
    (y_true y_pred y_train : Series) (sp : Z) :
  (1 <= sp)%Z ->
  (2 * sp <= Z.of_nat (length y_train))%Z ->
  indices_valid y_true y_pred y_train ->
  train_before_pred y_train y_pred ->
  In nan (values y_train) ->
  mae_naive y_train sp = nan /\
  mase_score y_true y_pred y_train sp = Ok nan.
Proof.
  intros Hsp Hn Hvalid Hord Hnan.
  assert (Hlen : length (values y_train) = length y_train)
    by (unfold values; apply length_map).
  assert (E : mae_naive y_train sp = nan).
  { unfold mae_naive. apply np_mean_nan, naive_abs_errors_nan; [lia|exact Hnan]. }
  split; [exact E|].
  rewrite mase_score_quotient by (assumption || lia).
  now rewrite E, div_nan_r.
Qed.

Lemma mase_score_nan_in_train_witness :
  mase_score (series_from 5 [20; 22]) (series_from 5 [21; 21])
             (series_from 0 [10; nan; 14; 16]) 2 = Ok nan.
Proof.
  apply (mase_score_nan_in_train
           (series_from 5 [20; 22]) (series_from 5 [21; 21])
           (series_from 0 [10; nan; 14; 16]) 2
           ltac:(lia) ltac:(simpl; lia) ltac:(repeat split)
           (proj1 (ge_extrema_false (series_from 0 [10; nan; 14; 16])
                                    (series_from 5 [21; 21])) eq_refl)).
  simpl. right. left. reflexivity.
Defined.

(** ** The sign of the scores *)

Lemma SFabs_nan_or_signed (x : spec_float) : nan_or_signed false (SFabs x).
Proof. destruct x; [right|right|left|right]; reflexivity. Qed.

Lemma SFopp_nan_or_signed (s : bool) (x : spec_float) :
  nan_or_signed s x -> nan_or_signed (negb s) (SFopp x).
Proof.
  intros [->|H]; [left; reflexivity|].
  destruct x; simpl in *; try contradiction; right; simpl; now subst.
Qed.

Lemma SFadd_nan_or_signed (x y : spec_float) :
  nan_or_signed false x -> nan_or_signed false y ->
  nan_or_signed false (SF64add x y).
Proof.
  intros [->|Hx]; [left; reflexivity|].
  intros [->|Hy]; [left; now destruct x|].
  right.
  destruct x as [sx|sx| |sx mx ex], y as [sy|sy| |sy my ey]; simpl in Hx, Hy;
    try contradiction; subst; try reflexivity.
  unfold SF64add, SFadd. cbn [cond_Zopp]. rewrite Pos2Z.add_pos_pos.
  cbn [binary_normalize]. apply binary_round_signed.
Qed.

Lemma SFdiv_nan_or_signed (sx sy : bool) (x y : spec_float) :
  nan_or_signed sx x -> nan_or_signed sy y ->
  nan_or_signed (xorb sx sy) (SF64div x y).
Proof.
  intros [->|Hx]; [left; reflexivity|].
  intros [->|Hy]; [left; now destruct x|].
  destruct x as [s1|s1| |s1 m1 e1], y as [s2|s2| |s2 m2 e2]; simpl in Hx, Hy;
    try contradiction; subst;
    try (left; reflexivity); try (right; reflexivity).
  right. apply SFdiv_signed.
Qed.

Lemma SFmul_nan_or_signed (sx sy : bool) (x y : spec_float) :
  nan_or_signed sx x -> nan_or_signed sy y ->
  nan_or_signed (xorb sx sy) (SF64mul x y).
Proof.
  intros [->|Hx]; [left; reflexivity|].
  intros [->|Hy]; [left; now destruct x|].
  destruct x as [s1|s1| |s1 m1 e1], y as [s2|s2| |s2 m2 e2]; simpl in Hx, Hy;
    try contradiction; subst;
    try (left; reflexivity); try (right; reflexivity).
  right. unfold SF64mul, SFmul. apply binary_round_aux_signed. lia.
Qed.

Lemma float_of_nat_signed (n : nat) :
  nan_or_signed false (Prim2SF (float_of_nat n)).
Proof.
  right. unfold float_of_nat. rewrite of_uint63_spec.
  pose proof (Uint63.to_Z_bounded (Uint63.of_Z (Z.of_nat n))) as [H _].
  destruct (Uint63.to_Z (Uint63.of_Z (Z.of_nat n))) as [|p|p];
    cbn [binary_normalize]; [reflexivity|apply binary_round_signed|lia].
Qed.

Lemma np_sum_signed (a : list float) :
  Forall (fun x => nan_or_signed false (Prim2SF x)) a ->
  nan_or_signed false (Prim2SF (np_sum a)).
Proof.
  intros H.
  apply (np_sum_closed (fun x => nan_or_signed false (Prim2SF x)));
    [right; reflexivity| |exact H].
  intros x y Hx Hy. rewrite add_spec. now apply SFadd_nan_or_signed.
Qed.

(** The starting values do not show in the sums of this program, whose
    elements are NaN or have a clear sign bit: adding the pairwise sum to
    the identity [0.0] changes nothing, and neither does starting the short
    loop at [-0.0]. *)
Lemma np_sum_start (a : list float) :
  Forall (fun x => nan_or_signed false (Prim2SF x)) a ->
  np_sum a = pairwise_sum (length a) a.
Proof.
  intros H. unfold np_sum.
  assert (Hs : nan_or_signed false (Prim2SF (pairwise_sum (length a) a))).
  { apply (pairwise_sum_weighted
             (fun _ x => nan_or_signed false (Prim2SF x)) (fun _ => 0%nat)
             (weight (fun _ => 0%nat) a)); try assumption; try lia.
    - right. reflexivity.
    - intros j k x y _ Hx Hy. rewrite add_spec.
      now apply SFadd_nan_or_signed. }
  apply Prim2SF_inj. rewrite add_spec.
  change (Prim2SF 0) with (S754_zero false).
  destruct Hs as [->|Hs]; [reflexivity|].
  destruct (Prim2SF (pairwise_sum (length a) a)) as [s|s| |s m e];
    simpl in Hs; try contradiction; subst; reflexivity.
Qed.

Lemma fold_add_start (a : list float) :
  Forall (fun x => nan_or_signed false (Prim2SF x)) a -> a <> [] ->
  fold_left PrimFloat.add a neg_zero = fold_left PrimFloat.add a 0.
Proof.
  intros H Hne. destruct H as [|x a Hx H]; [congruence|].
  cbn [fold_left]. f_equal.
  apply Prim2SF_inj. rewrite !add_spec.
  change (Prim2SF neg_zero) with (S754_zero true).
  change (Prim2SF 0) with (S754_zero false).
  destruct Hx as [->|Hx]; [reflexivity|].
  destruct (Prim2SF x) as [s|s| |s m e]; simpl in Hx; try contradiction;
    subst; reflexivity.
Qed.

Lemma np_mean_signed (a : list float) :
  Forall (fun x => nan_or_signed false (Prim2SF x)) a ->
  nan_or_signed false (Prim2SF (np_mean a)).
Proof.
  intros H. unfold np_mean. rewrite div_spec.
  apply (SFdiv_nan_or_signed false false).
  - now apply np_sum_signed.
  - apply float_of_nat_signed.
Qed.

Lemma series_mean_signed (a : list float) :
  Forall (fun x => nan_or_signed false (Prim2SF x)) a ->
  nan_or_signed false (Prim2SF (series_mean a)).
Proof.
  intros H. rewrite series_mean_unfold.
  destruct (kept a) as [|k ks]; [left; reflexivity|].
  rewrite div_spec.
  apply (SFdiv_nan_or_signed false false).
  - apply np_sum_signed.
    unfold filled. apply Forall_map.
    apply (Forall_impl _ (P := fun x => nan_or_signed false (Prim2SF x)));
      [|exact H].
    intros x Hx. destruct (PrimFloat.is_nan x); [right; reflexivity|exact Hx].
  - apply float_of_nat_signed.
Qed.

Lemma np_abs_signed (a : list float) :
  Forall (fun x => nan_or_signed false (Prim2SF x)) (np_abs a).
Proof.
  unfold np_abs. apply Forall_map, Forall_forall. intros x _.
  rewrite abs_spec. apply SFabs_nan_or_signed.
Qed.

Lemma abs_errors_signed (y_true y_pred : Series) :
  Forall (fun x => nan_or_signed false (Prim2SF x)) (abs_errors y_true y_pred).
Proof.
  rewrite <- abs_errors_eq. apply np_abs_signed.
Qed.

Lemma smape_ratios_signed (y_true y_pred : Series) :
  Forall (fun x => nan_or_signed false (Prim2SF x)) (smape_ratios y_true y_pred).
Proof.
  unfold smape_ratios. apply Forall_map, Forall_forall. intros tp _.
  unfold smape_ratio. rewrite div_spec, add_spec, !abs_spec.
  apply (SFdiv_nan_or_signed false false).
  - apply SFabs_nan_or_signed.
  - apply SFadd_nan_or_signed; apply SFabs_nan_or_signed.
Qed.

Lemma negative_not_positive (v : float) :
  nan_or_signed true (Prim2SF v) -> not_positive v.
Proof.
  intros [H|H].
  - left. now apply is_nan_spec.
  - right. rewrite leb_spec. change (Prim2SF 0) with (S754_zero false).
    destruct (Prim2SF v) as [s|s| |s m e]; simpl in H; try contradiction;
      subst; reflexivity.
Qed.

(** X8. SMAPE is never positive: whatever the values of the two series
    (infinite and NaN values included), a call that passes the index check
    returns NaN or a score at most zero. *)
Theorem smape_score_not_positive (y_true y_pred : Series) :
  index y_true = index y_pred ->
  exists r, smape_score y_true y_pred = Ok r /\ not_positive r.
Proof.
  intros E. rewrite smape_score_validated by exact E.
  eexists. split; [reflexivity|].
  apply negative_not_positive. rewrite mul_spec.
  change (Prim2SF (-2)) with SFminus_two.
  apply (SFmul_nan_or_signed true false).
  - right. reflexivity.
  - apply series_mean_signed, smape_ratios_signed.
Qed.

Lemma smape_score_not_positive_witness :
  exists r, smape_score (series_from 0 [10; infinity; 0])
                        (series_from 0 [12; 3; nan]) = Ok r /\ not_positive r.
Proof.
  apply (smape_score_not_positive (series_from 0 [10; infinity; 0])
           (series_from 0 [12; 3; nan]) eq_refl).
Defined.

(** X9. MASE is never positive: once the index validations pass, every
    nonzero period gives NaN or a score at most zero, whatever the values
    of the three series. *)
Theorem mase_score_not_positive
    (y_true y_pred y_train : Series) (sp : Z) :
  sp <> 0%Z ->
  indices_valid y_true y_pred y_train ->
  train_before_pred y_train y_pred ->
  exists r, mase_score y_true y_pred y_train sp = Ok r /\ not_positive r.
Proof.
  intros Hsp Hvalid Hord.
  rewrite mase_score_validated by assumption.
  rewrite np_sub_same_length by now apply slices_same_length.
  cbn [bind]. eexists. split; [reflexivity|].
  apply negative_not_positive. rewrite div_spec, opp_spec.
  apply (SFdiv_nan_or_signed true false).
  - apply (SFopp_nan_or_signed false), series_mean_signed, abs_errors_signed.
  - apply np_mean_signed, np_abs_signed.
Qed.

Lemma mase_score_not_positive_witness :
  exists r, mase_score (series_from 5 [20; 22]) (series_from 5 [21; 21])
                       (series_from 0 [10; 12; 14]) (-2) = Ok r /\
            not_positive r.
Proof.
  apply (mase_score_not_positive
           (series_from 5 [20; 22]) (series_from 5 [21; 21])
           (series_from 0 [10; 12; 14]) (-2)
           ltac:(discriminate) ltac:(repeat split)
           (proj1 (ge_extrema_false (series_from 0 [10; 12; 14])
                                    (series_from 5 [21; 21])) eq_refl)).
Defined.

(** ** A perfect forecast under MASE *)

Lemma abs_sub_self (x : float) :
  PrimFloat.abs (x - x) = if PrimFloat.is_finite x then 0 else nan.
Proof.
  destruct (PrimFloat.is_finite x) eqn:F.
  - apply is_finite_spec in F as [[s E]|(s & m & e & E)].
    + apply Prim2SF_inj. rewrite abs_spec, sub_spec, E.
      destruct s; reflexivity.
    + now rewrite (sub_self_finite x s m e E).
  - apply Prim2SF_inj. rewrite abs_spec, sub_spec.
    destruct (Prim2SF x) as [s|s| |s m e] eqn:E.
    + assert (PrimFloat.is_finite x = true)
        by (apply is_finite_spec; left; now exists s).
      congruence.
    + destruct s; reflexivity.
    + reflexivity.
    + assert (PrimFloat.is_finite x = true)
        by (apply is_finite_spec; right; now exists s, m, e).
      congruence.
Qed.

Lemma abs_errors_self (y : Series) :
  abs_errors y y
  = map (fun v => if PrimFloat.is_finite v then 0 else nan) (values y).
Proof.
  unfold abs_errors. induction (values y) as [|v vs IH]; [reflexivity|].
  cbn [combine map fst snd]. now rewrite IH, abs_sub_self.
Qed.

Lemma mae_pred_self (y : Series) :
  Exists (fun v => PrimFloat.is_finite v = true) (values y) ->
  (Z.of_nat (length y) < 2 ^ 63)%Z ->
  mae_pred y y = 0.
Proof.
  intros Hex Hlen. unfold mae_pred. rewrite abs_errors_self.
  apply series_mean_zero_or_nan.
  - apply Forall_map, Forall_forall. intros v _.
    destruct (PrimFloat.is_finite v); auto.
  - apply Exists_exists in Hex as (v & Hin & Hv).
    apply Exists_exists. exists 0. split; [|reflexivity].
    apply in_map_iff. exists v. now rewrite Hv.
  - rewrite length_map. unfold values. now rewrite length_map.
Qed.

Lemma neg_zero_div_positive (x : float) :
  nonzero_number false (Prim2SF x) -> - 0 / x = neg_zero.
Proof.
  intros H. apply Prim2SF_inj. rewrite div_spec.
  change (Prim2SF (- 0)) with (S754_zero true).
  change (Prim2SF neg_zero) with (S754_zero true).
  destruct (Prim2SF x) as [s|s| |s m e]; simpl in H; try contradiction;
    subst s; reflexivity.
Qed.

Lemma mae_naive_signed (y_train : Series) (sp : Z) :
  nan_or_signed false (Prim2SF (mae_naive y_train sp)).
Proof.
  unfold mae_naive, naive_abs_errors. apply np_mean_signed.
  apply Forall_map, Forall_forall. intros i _.
  rewrite abs_spec. apply SFabs_nan_or_signed.
Qed.

(** X10. A perfect forecast has MASE zero: with [y_pred] equal to [y_true],
    at least one finite value among them and an in-sample error that is
    neither zero nor NaN, the score is [-0.0], which compares equal to
    zero. *)
Theorem mase_score_perfect_forecast (y y_train : Series) (sp : Z) :
  (1 <= sp)%Z ->
  (sp + 1 <= Z.of_nat (length y_train))%Z ->
  indices_valid y y y_train ->
  train_before_pred y_train y ->
  Exists (fun v => PrimFloat.is_finite v = true) (values y) ->
  (Z.of_nat (length y) < 2 ^ 63)%Z ->
  PrimFloat.is_nan (mae_naive y_train sp) = false ->
  PrimFloat.is_zero (mae_naive y_train sp) = false ->
  mase_score y y y_train sp = Ok neg_zero /\ (neg_zero =? 0) = true.
Proof.
  intros Hsp Hn Hvalid Hord Hex Hlen Hnan Hzero.
  split; [|reflexivity].
  rewrite mase_score_quotient by assumption.
  rewrite mae_pred_self by assumption.
  f_equal. apply neg_zero_div_positive.
  destruct (mae_naive_signed y_train sp) as [H|H].
  - apply is_nan_spec in H. congruence.
  - destruct (Prim2SF (mae_naive y_train sp)) as [s|s| |s m e] eqn:E;
      simpl in H |- *; try assumption.
    assert (PrimFloat.is_zero (mae_naive y_train sp) = true)
      by (apply is_zero_spec; now exists s).
    congruence.
Qed.

Lemma mase_score_perfect_forecast_witness :
  mase_score (series_from 5 [21; 23]) (series_from 5 [21; 23])
             (series_from 0 [10; 12; 13]) 1 = Ok neg_zero.
Proof.
  apply (mase_score_perfect_forecast (series_from 5 [21; 23])
           (series_from 0 [10; 12; 13]) 1
           ltac:(lia) ltac:(simpl; lia) ltac:(repeat split)
           (proj1 (ge_extrema_false (series_from 0 [10; 12; 13])
                                    (series_from 5 [21; 23])) eq_refl)).
  - left. reflexivity.
  - simpl. lia.
  - reflexivity.
  - reflexivity.
Defined.

(** ** Values on opposite sides of zero *)

Lemma SFdiv_self (s : bool) (m : positive) (e : Z) :
  SF64div (S754_finite s m e) (S754_finite s m e) = SFone64.
Proof.
  unfold SF64div, SFdiv.
  pose proof (SFdiv_core_spec m m e e) as H.
  destruct (SFdiv_core_binary prec emax (Zpos m) e (Zpos m) e) as [[q e'] l].
  destruct H as (r & Hr & Hq & He & Hdiv & Hl).
  replace (Zdigits2 (Zpos m) + e - (Zdigits2 (Zpos m) + e))%Z with 0%Z in He
    by lia.
  rewrite Z.sub_diag in He, Hdiv.
  change (Z.min (fexp prec emax 0) 0) with (-53)%Z in He. subst e'.
  change (2 ^ (0 - -53))%Z with 9007199254740992%Z in Hdiv.
  assert (Hq2 : q = 9007199254740992%Z) by nia.
  assert (Hr0 : r = 0%Z) by nia.
  subst q r. rewrite xorb_nilpotent.
  destruct l; simpl in Hl; [reflexivity|discriminate].
Qed.

Lemma valid_same_value (m : positive) (e : Z) (m' : positive) (e' : Z) :
  valid_binary (S754_finite false m e) = true ->
  valid_binary (S754_finite false m' e') = true ->
  ple (Zpos m) e (Zpos m') e' -> ple (Zpos m') e' (Zpos m) e ->
  S754_finite false m e = S754_finite false m' e'.
Proof.
  intros V V' H H'.
  destruct (valid_ple_compare m e m' e' V V' H) as [H1|[H1 H2]];
    destruct (valid_ple_compare m' e' m e V' V H') as [H3|[H3 H4]];
    try lia.
  subst e'. f_equal. lia.
Qed.

(** Adding two counts is exact below [2^53]. *)
Lemma float_of_nat_add (j k : nat) :
  (Z.of_nat (j + k) < 2 ^ 53)%Z ->
  float_of_nat j + float_of_nat k = float_of_nat (j + k).
Proof.
  intros Hjk.
  destruct j as [|j].
  { change (float_of_nat 0) with 0. cbn [Nat.add].
    destruct k as [|k]; [reflexivity|].
    destruct (float_of_nat_value (S k) ltac:(lia) ltac:(lia))
      as (m & e & Hf & _).
    apply Prim2SF_inj. rewrite add_spec, Hf. reflexivity. }
  destruct k as [|k].
  { change (float_of_nat 0) with 0. rewrite Nat.add_0_r.
    destruct (float_of_nat_value (S j) ltac:(lia) ltac:(lia))
      as (m & e & Hf & _).
    apply Prim2SF_inj. rewrite add_spec, Hf. reflexivity. }
  apply Prim2SF_inj.
  pose proof (Prim2SF_valid (float_of_nat (S j) + float_of_nat (S k))) as Vl.
  rewrite add_spec in Vl |- *.
  destruct (float_of_nat_value (S j) ltac:(lia) ltac:(lia))
    as (ms & es & Hfs & Hs1 & Hs2).
  destruct (float_of_nat_value (S k) ltac:(lia) ltac:(lia))
    as (mr & er & Hfr & Hr1 & Hr2).
  destruct (float_of_nat_value (S j + S k) ltac:(lia) ltac:(lia))
    as (mz & ez' & Hf' & Hv1 & Hv2).
  pose proof (Prim2SF_valid (float_of_nat (S j))) as Vs.
  pose proof (Prim2SF_valid (float_of_nat (S k))) as Vr.
  pose proof (Prim2SF_valid (float_of_nat (S j + S k))) as Vf.
  rewrite Hfs in Vs, Vl |- *. rewrite Hfr in Vr, Vl |- *.
  rewrite Hf' in Vf |- *.
  pose proof (valid_exponent _ _ _ Vs) as Hes.
  pose proof (valid_exponent _ _ _ Vr) as Her.
  pose proof (val_le_exponent false ms es _ Vs Hs1 ltac:(lia)) as Hes0.
  pose proof (val_le_exponent false mr er _ Vr Hr1 ltac:(lia)) as Her0.
  revert Vl. unfold SF64add, SFadd. cbn [cond_Zopp].
  set (ez := Z.min es er).
  rewrite !aligned_value by (unfold ez; lia).
  set (A := (Zpos ms * 2 ^ (es - ez))%Z).
  set (B := (Zpos mr * 2 ^ (er - ez))%Z).
  assert (Hez1 : (ez <= es)%Z) by (unfold ez; lia).
  assert (Hez2 : (ez <= er)%Z) by (unfold ez; lia).
  assert (Hez0 : (ez <= 0)%Z) by (unfold ez; lia).
  assert (Hezz : (ez <= ez)%Z) by lia.
  pose proof (pow2_pos (0 - ez) ltac:(lia)) as Hp0.
  assert (HA1 : (A <= Z.of_nat (S j) * 2 ^ (0 - ez))%Z)
    by (apply (proj1 (ple_base ez _ _ _ _ Hez1 Hez0)) in Hs1; exact Hs1).
  assert (HA2 : (Z.of_nat (S j) * 2 ^ (0 - ez) <= A)%Z)
    by (apply (proj1 (ple_base ez _ _ _ _ Hez0 Hez1)) in Hs2; exact Hs2).
  assert (HB1 : (B <= Z.of_nat (S k) * 2 ^ (0 - ez))%Z)
    by (apply (proj1 (ple_base ez _ _ _ _ Hez2 Hez0)) in Hr1; exact Hr1).
  assert (HB2 : (Z.of_nat (S k) * 2 ^ (0 - ez) <= B)%Z)
    by (apply (proj1 (ple_base ez _ _ _ _ Hez0 Hez2)) in Hr2; exact Hr2).
  assert (Hsum : (A + B = Z.of_nat (S j + S k) * 2 ^ (0 - ez))%Z)
    by (rewrite Nat2Z.inj_add; lia).
  assert (Hle : ple (A + B) ez (Zpos mz) ez').
  { apply (ple_trans _ _ (Z.of_nat (S j + S k)) 0); [|exact Hv2].
    apply (proj2 (ple_base ez _ _ _ _ Hezz Hez0)).
    rewrite Z.sub_diag, Z.pow_0_r. lia. }
  assert (Hge : ple (Zpos mz) ez' (A + B) ez).
  { apply (ple_trans _ _ (Z.of_nat (S j + S k)) 0); [exact Hv1|].
    apply (proj2 (ple_base ez _ _ _ _ Hez0 Hezz)).
    rewrite Z.sub_diag, Z.pow_0_r. lia. }
  destruct (A + B)%Z as [|p|p] eqn:E; try lia.
  cbn [binary_normalize].
  pose proof (binary_round_le_bound false p ez mz ez' Vf Hle) as G1.
  pose proof (binary_round_ge_bound false p ez mz ez' Vf Hge) as G2.
  destruct (binary_round prec emax false p ez) as [sq|sq| |sq mq eq];
    try contradiction.
  destruct G1 as [-> G1]. destruct G2 as [_ G2].
  intros Vl. now apply valid_same_value.
Qed.

Lemma weight_ones (a : list float) : weight (fun _ => 1%nat) a = length a.
Proof.
  induction a as [|x a IH]; [reflexivity|].
  rewrite weight_cons, IH. reflexivity.
Qed.

(** Ones add up to their count, in whatever order they are added. *)
Lemma np_sum_ones (a : list float) :
  Forall (fun x => x = 1) a ->
  (Z.of_nat (length a) < 2 ^ 53)%Z ->
  np_sum a = float_of_nat (length a).
Proof.
  intros H Hlen.
  rewrite <- (weight_ones a).
  apply (np_sum_weighted (fun j x => x = float_of_nat j) (fun _ => 1%nat)
           (length a)).
  - reflexivity.
  - intros j k x y Hjk -> ->. apply float_of_nat_add. lia.
  - exact H.
  - rewrite weight_ones. lia.
Qed.

Lemma div_self_count (n : nat) :
  (0 < n)%nat -> (Z.of_nat n < 2 ^ 53)%Z ->
  float_of_nat n / float_of_nat n = 1.
Proof.
  intros Hn Hlt.
  destruct (float_of_nat_value n Hn Hlt) as (m & e & Hf & _).
  apply Prim2SF_inj. rewrite div_spec, Hf.
  apply SFdiv_self.
Qed.

Lemma series_mean_ones (a : list float) :
  Forall (fun x => x = 1) a -> a <> [] ->
  (Z.of_nat (length a) < 2 ^ 53)%Z ->
  series_mean a = 1.
Proof.
  intros H Hne Hlen.
  rewrite series_mean_no_nan.
  - unfold np_mean. rewrite (np_sum_ones a H Hlen).
    apply div_self_count; [|lia].
    destruct a; [congruence|simpl; lia].
  - unfold no_nan. apply (Forall_impl _ (P := fun x => x = 1)); [|exact H].
    now intros x ->.
Qed.

(** For [t <= 0 <= p] the difference and the sum of the magnitudes are one
    computation, so their quotient is one. *)
Lemma SFabs_sub_opposite (x y : spec_float) :
  SFleb x (S754_zero false) = true -> SFleb (S754_zero false) y = true ->
  SFabs (SF64sub x y) = SF64add (SFabs x) (SFabs y).
Proof.
  destruct x as [sx|sx| |sx mx ex], y as [sy|sy| |sy my ey];
    try destruct sx; try destruct sy; try discriminate; try reflexivity.
  intros _ _. unfold SF64sub, SFsub, SF64add, SFadd. cbn [SFabs cond_Zopp].
  rewrite SFabs_binary_normalize. f_equal; lia.
Qed.

Lemma finite_sum_finite (x y : spec_float) :
  SFfinite (SF64add (SFabs x) (SFabs y)) -> SFfinite x /\ SFfinite y.
Proof.
  destruct x as [sx|sx| |sx mx ex], y as [sy|sy| |sy my ey]; simpl; tauto.
Qed.

Lemma smape_ratio_opposite (t p : float) :
  (t <=? 0) = true -> (0 <=? p) = true ->
  ~ both_zero (t, p) ->
  PrimFloat.is_finite (PrimFloat.abs t + PrimFloat.abs p) = true ->
  smape_ratio t p = 1.
Proof.
  intros Ht Hp Hnz Hfin.
  rewrite leb_spec in Ht, Hp. change (Prim2SF 0) with (S754_zero false) in Ht, Hp.
  apply finite_SF in Hfin. rewrite add_spec, !abs_spec in Hfin.
  destruct (finite_sum_finite _ _ Hfin) as [Fx Fy].
  assert (Hn0 : ~ (SFzero (Prim2SF t) /\ SFzero (Prim2SF p))).
  { intros [Zt Zp]. apply Hnz. split; apply is_zero_spec; simpl.
    - destruct (Prim2SF t) as [s| | |]; try contradiction. now exists s.
    - destruct (Prim2SF p) as [s| | |]; try contradiction. now exists s. }
  destruct (diff_le_sum (Prim2SF t) (Prim2SF p)
              (Prim2SF_valid t) (Prim2SF_valid p) Fx Fy Hn0) as [Hd _].
  unfold smape_ratio. apply Prim2SF_inj.
  rewrite div_spec, add_spec, !abs_spec, sub_spec.
  rewrite SFabs_sub_opposite by assumption.
  destruct (SF64add (SFabs (Prim2SF t)) (SFabs (Prim2SF p))) as [s|s| |s m e];
    simpl in Hd, Hfin; try contradiction.
  apply SFdiv_self.
Qed.

Lemma smape_ratio_opposite_sides (t p : float) :
  opposite_sides (t, p) = true ->
  ~ both_zero (t, p) ->
  PrimFloat.is_finite (PrimFloat.abs t + PrimFloat.abs p) = true ->
  smape_ratio t p = 1.
Proof.
  unfold opposite_sides. cbn [fst snd]. intros H Hnz Hfin.
  apply orb_true_iff in H as [H|H]; apply andb_true_iff in H as [H1 H2].
  - now apply smape_ratio_opposite.
  - rewrite smape_ratio_sym. apply smape_ratio_opposite; try assumption.
    + intros [Z1 Z2]. apply Hnz. now split.
    + now rewrite add_comm_float.
Qed.

(** X11. SMAPE saturates: when at every point the true value and the
    forecast lie on opposite sides of zero (a zero true value against any
    nonzero forecast is such a point), are not both zero, and the sum of
    their magnitudes is finite, the score is exactly [-2], whatever the
    magnitudes. *)
Theorem smape_score_opposite_sides (y_true y_pred : Series) :
  index y_true = index y_pred ->
  y_true <> [] ->
  (Z.of_nat (length y_true) < 2 ^ 53)%Z ->
  Forall (fun tp => opposite_sides tp = true /\ ~ both_zero tp /\
                    PrimFloat.is_finite
                      (PrimFloat.abs (fst tp) + PrimFloat.abs (snd tp)) = true)
         (points y_true y_pred) ->
  smape_score y_true y_pred = Ok (-2).
Proof.
  intros E Hne Hlen Hall.
  rewrite smape_score_validated by exact E.
  assert (Hones : Forall (fun x => x = 1) (smape_ratios y_true y_pred)).
  { unfold smape_ratios. apply Forall_map.
    apply (Forall_impl _ (P := fun tp => opposite_sides tp = true /\ ~ both_zero tp /\
                    PrimFloat.is_finite
                      (PrimFloat.abs (fst tp) + PrimFloat.abs (snd tp)) = true));
      [|exact Hall].
    intros [t p] (H1 & H2 & H3). now apply smape_ratio_opposite_sides. }
  pose proof (smape_ratios_length y_true y_pred E) as Hl.
  rewrite series_mean_ones; [reflexivity|exact Hones| |lia].
  intros Hnil. rewrite Hnil in Hl. destruct y_true; [congruence|discriminate].
Qed.

Lemma smape_score_opposite_sides_witness :
  smape_score (series_from 0 [0; -3; 0x1p-1000])
              (series_from 0 [7; 0x1p600; -5]) = Ok (-2).
Proof.
  apply (smape_score_opposite_sides (series_from 0 [0; -3; 0x1p-1000])
           (series_from 0 [7; 0x1p600; -5]) eq_refl).
  - discriminate.
  - simpl. lia.
  - repeat constructor; intros [H1 H2]; vm_compute in H1, H2; discriminate.
Defined.

(** ** A negative period that reaches past the training series *)

Lemma abs_zip_sub_self (a : list float) :
  Forall (fun v => PrimFloat.is_finite v = true) a ->
  Forall (fun x => x = 0) (np_abs (zip_with PrimFloat.sub a a)).
Proof.
  intros H. induction H as [|v a Hv H IH]; simpl; constructor.
  - now rewrite abs_sub_self, Hv.
  - exact IH.
Qed.

Lemma np_mean_zeros (a : list float) :
  Forall (fun x => x = 0) a -> a <> [] ->
  (Z.of_nat (length a) < 2 ^ 63)%Z ->
  np_mean a = 0.
Proof.
  intros H Hne Hlen. unfold np_mean. rewrite (np_sum_zeros a H).
  apply zero_div_nonzero, float_of_nat_nonzero; [|exact Hlen].
  destruct a; [congruence|simpl; lia].
Qed.

(** X12. A period [sp = -k] with [k >= n_obs] compares the training series
    with itself: for finite training values the in-sample error is zero,
    and the score, a division by zero, is infinite or NaN. *)
Theorem mase_score_period_past_length
    (y_true y_pred y_train : Series) (k : nat) :
  (1 <= length y_train <= k)%nat ->
  (Z.of_nat (length y_train) < 2 ^ 63)%Z ->
  indices_valid y_true y_pred y_train ->
  train_before_pred y_train y_pred ->
  all_finite y_train ->
  exists r,
    mase_score y_true y_pred y_train (- Z.of_nat k) = Ok r /\
    (PrimFloat.is_infinity r = true \/ r = nan).
Proof.
  intros Hk Hlen Hvalid Hord Hfin.
  assert (Hl : length (values y_train) = length y_train)
    by (unfold values; apply length_map).
  rewrite mase_score_validated by assumption.
  rewrite Z.opp_involutive, slice_from_negative, slice_to_positive by lia.
  rewrite Hl, Nat.min_r, Nat.sub_diag by lia.
  rewrite <- Hl, firstn_all. cbn [skipn].
  rewrite np_sub_same_length by reflexivity.
  cbn [bind]. eexists. split; [reflexivity|].
  apply div_by_zero.
  rewrite np_mean_zeros; [reflexivity|now apply abs_zip_sub_self| |].
  - intros E. apply (f_equal (@length float)) in E.
    unfold np_abs in E.
    rewrite length_map, zip_with_length in E by reflexivity.
    simpl in E. lia.
  - unfold np_abs. rewrite length_map, zip_with_length by reflexivity. lia.
Qed.

Lemma mase_score_period_past_length_witness :
  exists r,
    mase_score (series_from 5 [20; 22]) (series_from 5 [21; 21])
               (series_from 0 [10; 12; 14]) (- Z.of_nat 3) = Ok r /\
    (PrimFloat.is_infinity r = true \/ r = nan).
Proof.
  apply (mase_score_period_past_length
           (series_from 5 [20; 22]) (series_from 5 [21; 21])
           (series_from 0 [10; 12; 14]) 3
           ltac:(simpl; lia) ltac:(simpl; lia) ltac:(repeat split)
           (proj1 (ge_extrema_false (series_from 0 [10; 12; 14])
                                    (series_from 5 [21; 21])) eq_refl)).
  repeat constructor.
Defined.

(** ** The mean that skips NaN *)

Lemma SFadd_signed (x y : spec_float) :
  signed_number false x -> signed_number false y ->
  signed_number false (SF64add x y).
Proof.
  intros Hx Hy.
  destruct (SFadd_nan_or_signed x y (or_intror Hx) (or_intror Hy)) as [H|H];
    [|exact H].
  destruct x as [sx|sx| |sx mx ex], y as [sy|sy| |sy my ey]; simpl in Hx, Hy;
    try contradiction; subst; try discriminate H.
  exfalso. revert H. unfold SF64add, SFadd. cbn [cond_Zopp].
  rewrite Pos2Z.add_pos_pos. cbn [binary_normalize].
  apply (signed_number_is_number false), binary_round_signed.
Qed.

Lemma add_zero_signed (acc : float) :
  signed_number false (Prim2SF acc) -> acc + 0 = acc.
Proof.
  intros H. apply Prim2SF_inj. rewrite add_spec.
  change (Prim2SF 0) with (S754_zero false).
  destruct (Prim2SF acc) as [s|s| |s m e]; simpl in H; try contradiction;
    subst; reflexivity.
Qed.

(** Among numbers that are not negative, summing [0.0] in the place of a
    NaN is summing without it. *)
Lemma fold_filled_kept (a : list float) (acc : float) :
  Forall (fun x => nan_or_signed false (Prim2SF x)) a ->
  signed_number false (Prim2SF acc) ->
  fold_left PrimFloat.add (filled a) acc = fold_left PrimFloat.add (kept a) acc.
Proof.
  intros H. revert acc. induction H as [|x a Hx H IH]; intros acc Hacc.
  - reflexivity.
  - unfold filled, kept in *. cbn [map filter fold_left].
    destruct (PrimFloat.is_nan x) eqn:En; cbn [negb fold_left].
    + rewrite add_zero_signed by exact Hacc. now apply IH.
    + apply IH. rewrite add_spec. apply SFadd_signed; [exact Hacc|].
      destruct Hx as [Hx|Hx]; [|exact Hx].
      apply is_nan_spec in Hx. congruence.
Qed.

(** Fewer than eight elements are added in index order, so for them the
    Series mean is the plain mean of the entries that are not NaN. *)
Lemma series_mean_kept (a : list float) :
  Forall (fun x => nan_or_signed false (Prim2SF x)) a ->
  (length a < 8)%nat ->
  series_mean a = np_mean (kept a).
Proof.
  intros H Hlen. rewrite series_mean_unfold.
  pose proof (filter_length_le (fun x => negb (PrimFloat.is_nan x)) a) as Hk.
  fold (kept a) in Hk.
  destruct (kept a) as [|k ks] eqn:E; [reflexivity|].
  unfold np_mean. rewrite <- E in Hk |- *.
  rewrite (np_sum_short (filled a)) by (unfold filled; rewrite length_map; lia).
  rewrite (np_sum_short (kept a)) by lia.
  rewrite fold_filled_kept; [reflexivity|exact H|reflexivity].
Qed.

(** X13. For fewer than eight points SMAPE leaves out the points whose
    ratio is NaN and nothing else: the score is [-2] times the plain mean
    (sum over count) of the ratios that are not NaN, and NaN when none is
    left.  From eight points on this fails: numpy adds in blocks, and the
    zeros that stand for the NaN entries in the sum change how the other
    entries are paired and rounded. *)
Theorem smape_score_skips_nan (y_true y_pred : Series) :
  (index y_true = index y_pred ->
   (length y_true < 8)%nat ->
   smape_score y_true y_pred
   = Ok (-2 * np_mean (kept (smape_ratios y_true y_pred))) /\
   (kept (smape_ratios y_true y_pred) = [] ->
    smape_score y_true y_pred = Ok nan)) /\
  ~ (forall y_true y_pred : Series,
        index y_true = index y_pred ->
        smape_score y_true y_pred
        = Ok (-2 * np_mean (kept (smape_ratios y_true y_pred)))).
Proof.
  split.
  - intros E Hlen. rewrite smape_score_validated by exact E.
    rewrite series_mean_kept
      by (apply smape_ratios_signed || (rewrite smape_ratios_length; assumption)).
    split; [reflexivity|].
    now intros ->.
  - clear y_true y_pred. intros H.
    set (y_true := series_from 0
           [0x1.999999999999ap-4; 0; 0x1.999999999999ap-3; 0x1.3333333333333p-2;
            0x1.999999999999ap-2; 0.5; 0x1.3333333333333p-1;
            0x1.6666666666666p-1; 0x1.999999999999ap-1; 0x1.ccccccccccccdp-1]).
    set (y_pred := series_from 0
           [0x1.3333333333333p-2; 0; 0.5; 0x1.6666666666666p-1;
            0x1.ccccccccccccdp-1; 0x1.199999999999ap+0; 0x1.4cccccccccccdp+0;
            0x1.b333333333333p+0; 0x1.e666666666666p+0; 0x1.2666666666666p+1]).
    specialize (H y_true y_pred eq_refl).
    apply (f_equal (fun r => match r with
                             | Ok v => (v =? -2 * np_mean (kept (smape_ratios y_true y_pred)))
                             | Raise _ => false
                             end)) in H.
    vm_compute in H. discriminate H.
Qed.

Lemma smape_score_skips_nan_witness :
  smape_score (series_from 0 [0; 3; nan]) (series_from 0 [0; 1; 2]) = Ok (-1).
Proof.
  rewrite (proj1 (proj1 (smape_score_skips_nan (series_from 0 [0; 3; nan])
                           (series_from 0 [0; 1; 2]))
                    eq_refl ltac:(simpl; lia))).
  vm_compute. reflexivity.
Defined.

Lemma abs_errors_length (y_true y_pred : Series) :
  (length (abs_errors y_true y_pred) <= length y_true)%nat.
Proof.
  unfold abs_errors, values.
  rewrite length_map, length_combine, !length_map. lia.
Qed.

(** X14. For fewer than eight forecast points MASE leaves out of the
    out-of-sample error the points whose absolute error is NaN: with
    [1 <= sp < n_obs] the score is minus the plain mean of the errors that
    are not NaN, over the in-sample error.  From eight points on this
    fails, numpy's blocked sum pairing the zero-filled array otherwise. *)
Theorem mase_score_skips_nan (y_true y_pred y_train : Series) (sp : Z) :
  ((1 <= sp)%Z ->
   (sp + 1 <= Z.of_nat (length y_train))%Z ->
   indices_valid y_true y_pred y_train ->
   train_before_pred y_train y_pred ->
   (length y_true < 8)%nat ->
   mase_score y_true y_pred y_train sp
   = Ok (- np_mean (kept (abs_errors y_true y_pred)) / mae_naive y_train sp)) /\
  ~ (forall (y_true y_pred y_train : Series),
        indices_valid y_true y_pred y_train ->
        train_before_pred y_train y_pred ->
        (2 <= length y_train)%nat ->
        mase_score y_true y_pred y_train 1
        = Ok (- np_mean (kept (abs_errors y_true y_pred)) / mae_naive y_train 1)).
Proof.
  split.
  - intros Hsp Hn Hvalid Hord Hlen.
    rewrite mase_score_quotient by assumption.
    unfold mae_pred. rewrite series_mean_kept; [reflexivity| |].
    + apply abs_errors_signed.
    + pose proof (abs_errors_length y_true y_pred). lia.
  - clear y_true y_pred y_train sp. intros H.
    set (y_true := series_from 5 [0x1p53; nan; 1; 1; 1; 1; 1; 1; 1]).
    set (y_pred := series_from 5 [0; 0; 0; 0; 0; 0; 0; 0; 0]).
    set (y_train := series_from 0 [10; 12; 14]).
    specialize (H y_true y_pred y_train ltac:(repeat split)
                  (proj1 (ge_extrema_false y_train y_pred) eq_refl)
                  ltac:(simpl; lia)).
    apply (f_equal (fun r => match r with
                             | Ok v => (v =? - np_mean (kept (abs_errors y_true y_pred))
                                              / mae_naive y_train 1)
                             | Raise _ => false
                             end)) in H.
    vm_compute in H. discriminate H.
Qed.

Lemma mase_score_skips_nan_witness :
  mase_score (series_from 5 [20; nan; 22]) (series_from 5 [21; 21; 21])
             (series_from 0 [10; 12; 14]) 1 = Ok (-0.5).
Proof.
  rewrite (proj1 (mase_score_skips_nan
                    (series_from 5 [20; nan; 22]) (series_from 5 [21; 21; 21])
                    (series_from 0 [10; 12; 14]) 1)
             ltac:(lia) ltac:(simpl; lia) ltac:(repeat split)
             (proj1 (ge_extrema_false (series_from 0 [10; 12; 14])
                                      (series_from 5 [21; 21; 21])) eq_refl)
             ltac:(simpl; lia)).
  vm_compute. reflexivity.
Defined.
